(** * PayCrypt airdrop: Merkle allowlist builder, distributor and token

    A shallow embedding of
    - [src/scripts/generate-merkle.ts] (class [AirdropMerkleTree], built on
      [ethers] and [merkletreejs]),
    - the [PayCryptAirdrop] Solidity contract (built on OpenZeppelin's
      [MerkleProof], [SafeERC20], [Ownable] and [ReentrancyGuard]), and
    - [src/contracts/PayCryptToken.sol] (an OpenZeppelin [ERC20] with
      [ERC20Burnable], [Ownable] and [Pausable]),
    followed by the properties of the specification that concern them and
    by further properties of the code.

    Data model.  A JavaScript [Buffer], a Solidity [bytes32] and the byte
    strings handed to keccak256 are all [list byte]; [uint256] and [address]
    are [Z] with the range checks of Solidity 0.8 written out; Solidity
    mappings are [gmap]s read with the default value of the mapping. *)

From Stdlib Require Import ZArith List Strings.Byte Ascii String Lia Bool.
From stdpp Require Import base option list gmap strings.

Import ListNotations.

(** ** Byte strings *)

Module Bytes.

Definition byte_to_Z (b : byte) : Z := Z.of_N (Byte.to_N b).

(** The byte made of the low eight bits of [z]. *)
Definition byte_of_Z (z : Z) : byte :=
  match Byte.of_N (Z.to_N (z mod 256)) with
  | Some b => b
  | None => x00
  end.

(** [Buffer.compare]: unsigned lexicographic order, a proper prefix first.
    JavaScript's -1, 0, 1 are [Lt], [Eq], [Gt]. *)
Fixpoint compare (a b : list byte) : comparison :=
  match a, b with
  | [], [] => Eq
  | [], _ :: _ => Lt
  | _ :: _, [] => Gt
  | x :: a', y :: b' =>
      match Z.compare (byte_to_Z x) (byte_to_Z y) with
      | Eq => compare a' b'
      | c => c
      end
  end.

Definition eqb (a b : list byte) : bool :=
  match compare a b with Eq => true | _ => false end.

(** Big-endian value of a byte string. *)
Definition to_Z (bs : list byte) : Z :=
  fold_left (fun acc b => (acc * 256 + byte_to_Z b)%Z) bs 0%Z.

End Bytes.

(** ** keccak256

    The hash primitive shared by both ends: [ethers.keccak256] offline and the
    [keccak256] builtin on chain.  Keccak-f[1600] on 25 lanes of 64 bits, rate
    136 bytes, capacity 512 bits, multi-rate padding with domain byte 0x01. *)

Module Keccak.

Local Open Scope Z_scope.

Definition mask64 : Z := 0xFFFFFFFFFFFFFFFF.

Definition rotl64 (x n : Z) : Z :=
  Z.land (Z.lor (Z.shiftl x n) (Z.shiftr x (64 - n))) mask64.

Definition round_constants : list Z :=
  [ 0x0000000000000001; 0x0000000000008082; 0x800000000000808A;
    0x8000000080008000; 0x000000000000808B; 0x0000000080000001;
    0x8000000080008081; 0x8000000000008009; 0x000000000000008A;
    0x0000000000000088; 0x0000000080008009; 0x000000008000000A;
    0x000000008000808B; 0x800000000000008B; 0x8000000000008089;
    0x8000000000008003; 0x8000000000008002; 0x8000000000000080;
    0x000000000000800A; 0x800000008000000A; 0x8000000080008081;
    0x8000000000008080; 0x0000000080000001; 0x8000000080008008 ].

(** Rotation offsets, lane [(x, y)] at index [x + 5 * y]. *)
Definition rotation_offsets : list Z :=
  [  0;  1; 62; 28; 27;
    36; 44;  6; 55; 20;
     3; 10; 43; 25; 39;
    41; 45; 15; 21;  8;
    18;  2; 61; 56; 14 ].

Definition lane (st : list Z) (i : nat) : Z := nth i st 0.

Definition lanes (f : nat -> Z) : list Z := map f (seq 0 25).

Definition theta (a : list Z) : list Z :=
  let c x :=
    Z.lxor (lane a x) (Z.lxor (lane a (x + 5)) (Z.lxor (lane a (x + 10))
      (Z.lxor (lane a (x + 15)) (lane a (x + 20))))) in
  let cs := map c (seq 0 5) in
  let d x :=
    Z.lxor (lane cs ((x + 4) mod 5)) (rotl64 (lane cs ((x + 1) mod 5)) 1) in
  let ds := map d (seq 0 5) in
  lanes (fun i => Z.lxor (lane a i) (lane ds (i mod 5))).

(** rho and pi together: the lane that lands on [(X, Y)] is lane
    [(X + 3Y, X)], rotated by its own offset. *)
Definition rho_pi (a : list Z) : list Z :=
  lanes (fun i =>
    let X := (i mod 5)%nat in
    let Y := (i / 5)%nat in
    let s := (((X + 3 * Y) mod 5) + 5 * X)%nat in
    rotl64 (lane a s) (lane rotation_offsets s)).

Definition chi (b : list Z) : list Z :=
  lanes (fun i =>
    let x := (i mod 5)%nat in
    let y := (i / 5)%nat in
    Z.lxor (lane b i)
      (Z.land (Z.lxor (lane b (((x + 1) mod 5) + 5 * y)) mask64)
              (lane b (((x + 2) mod 5) + 5 * y)))).

Definition iota (rc : Z) (a : list Z) : list Z :=
  match a with
  | [] => []
  | a0 :: rest => Z.lxor a0 rc :: rest
  end.

Definition keccak_round (a : list Z) (rc : Z) : list Z :=
  iota rc (chi (rho_pi (theta a))).

Definition keccak_f (a : list Z) : list Z :=
  fold_left keccak_round round_constants a.

Definition rate : nat := 136.

(** XOR one byte into the state at byte position [pos] (lanes are
    little-endian). *)
Definition xor_byte (st : list Z) (pos : nat) (b : Z) : list Z :=
  lanes (fun i =>
    if Nat.eqb i (pos / 8)
    then Z.lxor (lane st i) (Z.shiftl b (8 * Z.of_nat (pos mod 8)))
    else lane st i).

Fixpoint absorb (st : list Z) (pos : nat) (m : list byte) : list Z * nat :=
  match m with
  | [] => (st, pos)
  | b :: m' =>
      let st' := xor_byte st pos (Bytes.byte_to_Z b) in
      if Nat.eqb (S pos) rate
      then absorb (keccak_f st') 0 m'
      else absorb st' (S pos) m'
  end.

Definition finalize (sp : list Z * nat) : list Z :=
  let '(st, pos) := sp in
  keccak_f (xor_byte (xor_byte st pos 0x01) (rate - 1) 0x80).

Definition squeeze (st : list Z) (n : nat) : list byte :=
  map (fun i =>
         Bytes.byte_of_Z
           (Z.land (Z.shiftr (lane st (i / 8)) (8 * Z.of_nat (i mod 8))) 255))
      (seq 0 n).

Definition keccak256 (m : list byte) : list byte :=
  squeeze (finalize (absorb (lanes (fun _ => 0)) 0 m)) 32.

End Keccak.

(** ** Hexadecimal text

    The textual form both JavaScript libraries use for byte strings:
    [0x] followed by two lower-case digits per byte. *)

Module Hex.

Local Open Scope Z_scope.

Definition in_range (lo hi : Z) (c : byte) : bool :=
  (lo <=? Bytes.byte_to_Z c) && (Bytes.byte_to_Z c <=? hi).

Definition is_digit (c : byte) : bool := in_range 48 57 c.     (* 0-9 *)
Definition is_lower_af (c : byte) : bool := in_range 97 102 c. (* a-f *)
Definition is_upper_AF (c : byte) : bool := in_range 65 70 c.  (* A-F *)
Definition is_hex (c : byte) : bool :=
  is_digit c || is_lower_af c || is_upper_AF c.

Definition value (c : byte) : Z :=
  let n := Bytes.byte_to_Z c in
  if is_digit c then n - 48
  else if is_lower_af c then n - 87
  else if is_upper_AF c then n - 55
  else 0.

Definition digit (v : Z) : byte :=
  Bytes.byte_of_Z (if v <? 10 then 48 + v else 87 + v).

(** [buf.toString('hex')] *)
Fixpoint encode (bs : list byte) : list byte :=
  match bs with
  | [] => []
  | b :: bs' =>
      digit (Bytes.byte_to_Z b / 16) :: digit (Bytes.byte_to_Z b mod 16)
        :: encode bs'
  end.

(** [Buffer.from(text, 'hex')]: two digits per byte; decoding stops at the
    first pair that is not two hexadecimal digits, and a trailing single
    digit is dropped. *)
Fixpoint decode (cs : list byte) : list byte :=
  match cs with
  | h :: l :: cs' =>
      if is_hex h && is_hex l
      then Bytes.byte_of_Z (16 * value h + value l) :: decode cs'
      else []
  | _ => []
  end.

Definition prefix_0x : list byte := [x30; x78].

(** [text.replace(/^0x/, '')] and [text.slice(2)] on a prefixed text. *)
Definition strip_0x (cs : list byte) : list byte :=
  match cs with
  | x30 :: x78 :: rest => rest
  | _ => cs
  end.

(** [hexlify] of ethers and [bufferToHex] of merkletreejs. *)
Definition hexlify (bs : list byte) : string :=
  string_of_list_byte (prefix_0x ++ encode bs).

(** [/^(0x)?[0-9A-Fa-f]*$/.test(v)] *)
Definition isHexString (v : string) : bool :=
  forallb is_hex (strip_0x (list_byte_of_string v)).

(** [bufferify] of merkletreejs on a string: a hexadecimal text is decoded,
    any other text is taken as its bytes. *)
Definition bufferify (v : string) : list byte :=
  if isHexString v
  then decode (strip_0x (list_byte_of_string v))
  else list_byte_of_string v.

End Hex.

(** ** The parts of ethers (v6) that [createLeaf] calls *)

Module Ethers.

Local Open Scope Z_scope.

(** Longest prefix of decimal digits, and what follows it. *)
Fixpoint span_digits (cs : list byte) : list byte * list byte :=
  match cs with
  | c :: cs' =>
      if Hex.is_digit c
      then let '(ds, rest) := span_digits cs' in (c :: ds, rest)
      else ([], cs)
  | [] => ([], [])
  end.

(** [BigInt] of a text of decimal digits. *)
Definition decimal_value (ds : list byte) : Z :=
  fold_left (fun acc c => acc * 10 + Hex.value c) ds 0.

Definition all_zero_digits (ds : list byte) : bool :=
  forallb (fun c => Bytes.byte_to_Z c =? 48) ds.

Definition decimals : nat := 18.

(** [parseEther(ether)], that is [parseUnits(ether, 18)], that is
    [FixedNumber.fromString(ether, {decimals: 18, width: 512}).value]:
    the text must be an optional minus sign, digits, an optional point and
    digits, and nothing else (the library matches it against a regular
    expression of that shape), with at least one
    digit; the fraction is padded with zeros to 18 digits and may not carry
    a non-zero digit beyond the 18th; the value must fit 512 signed bits.
    [None] stands for the exception the library throws. *)
Definition parseEther (ether : string) : option Z :=
  let cs := list_byte_of_string ether in
  let '(negative, cs1) :=
    match cs with
    | x2d :: rest => (true, rest)
    | _ => (false, cs)
    end in
  let '(whole, cs2) := span_digits cs1 in
  let cs3 := match cs2 with x2e :: rest => rest | _ => cs2 end in
  let '(fraction, cs4) := span_digits cs3 in
  match cs4 with
  | _ :: _ => None
  | [] =>
      if (length whole + length fraction =? 0)%nat then None
      else if negb (all_zero_digits (drop decimals fraction)) then None
      else
        let padded :=
          take decimals (fraction ++ replicate decimals x30) in
        let magnitude := decimal_value (whole ++ padded) in
        let v := if negative then - magnitude else magnitude in
        if (- 2 ^ 511 <=? v) && (v <? 2 ^ 511) then Some v else None
  end.

Definition to_lower (c : byte) : byte :=
  if Hex.is_upper_AF c then Bytes.byte_of_Z (Bytes.byte_to_Z c + 32) else c.

Definition to_upper (c : byte) : byte :=
  if Hex.is_lower_af c then Bytes.byte_of_Z (Bytes.byte_to_Z c - 32) else c.

Definition nibble_hi (b : byte) : Z := Bytes.byte_to_Z b / 16.
Definition nibble_lo (b : byte) : Z := Bytes.byte_to_Z b mod 16.

(** The loop of [getChecksumAddress]: characters two at a time against one
    byte of the hash. *)
Fixpoint checksum_case (chars hashed : list byte) : list byte :=
  match chars, hashed with
  | c0 :: c1 :: chars', h :: hashed' =>
      (if 8 <=? nibble_hi h then to_upper c0 else c0)
        :: (if 8 <=? nibble_lo h then to_upper c1 else c1)
        :: checksum_case chars' hashed'
  | _, _ => chars
  end.

(** [getChecksumAddress] (EIP-55) on the 40 digits after the prefix. *)
Definition getChecksumAddress (digits : list byte) : list byte :=
  let chars := map to_lower digits in
  Hex.prefix_0x ++ checksum_case chars (Keccak.keccak256 chars).

(** [/([A-F].*[a-f])|([a-f].*[A-F])/]: letters of both cases occur. *)
Definition mixed_case (cs : list byte) : bool :=
  existsb Hex.is_upper_AF cs && existsb Hex.is_lower_af cs.

(** [getAddress(address)] for the hexadecimal form
    [/^(0x)?[0-9a-fA-F]{40}$/]: the checksummed text, or [None] for the
    exception.  A text of both cases must carry the right checksum.  The
    ICAP form ([XE..]) is outside this model and is rejected. *)
Definition getAddress (address : string) : option (list byte) :=
  let cs := list_byte_of_string address in
  let digits := Hex.strip_0x cs in
  if (length digits =? 40)%nat && forallb Hex.is_hex digits then
    let result := getChecksumAddress digits in
    if negb (mixed_case digits) || Bytes.eqb result (Hex.prefix_0x ++ digits)
    then Some result
    else None
  else None.

(** [getBytes] of a hexadecimal text. *)
Definition getBytes (text : list byte) : list byte :=
  Hex.decode (Hex.strip_0x text).

(** Base-256 digits of [v], most significant first, [n] of them. *)
Fixpoint be_digits (n : nat) (v : Z) : list byte :=
  match n with
  | O => []
  | S n' => be_digits n' (v / 256) ++ [Bytes.byte_of_Z v]
  end.

(** Number of bytes of the shortest big-endian form; none for zero. *)
Definition byte_length (v : Z) : nat :=
  if v =? 0 then O else Z.to_nat (Z.log2 v / 8 + 1).

(** [toBeArray(value)]: refuses a negative value. *)
Definition toBeArray (v : Z) : option (list byte) :=
  if v <? 0 then None else Some (be_digits (byte_length v) v).

(** [zeroPadValue(data, length)]: refuses data longer than [length]. *)
Definition zeroPadValue (data : list byte) (len : nat) : option (list byte) :=
  if (len <? length data)%nat then None
  else Some (replicate (len - length data) x00 ++ data).

(** [solidityPacked(['address', 'uint256'], [address, value])] *)
Definition solidityPacked_address_uint256
    (address : string) (v : Z) : option (list byte) :=
  a ← getAddress address;
  be ← toBeArray v;
  w ← zeroPadValue be 32;
  Some (getBytes a ++ w).

(** [keccak256(data)] of ethers returns the hexadecimal text of the hash. *)
Definition keccak256 (data : list byte) : string :=
  Hex.hexlify (Keccak.keccak256 data).

Definition solidityPackedKeccak256_address_uint256
    (address : string) (v : Z) : option string :=
  keccak256 <$> solidityPacked_address_uint256 address v.

End Ethers.

(** ** merkletreejs: [new MerkleTree(leaves, hashFn, { sortPairs: true })]

    Only the options the script passes are modelled: pairs are sorted before
    they are hashed, leaves are neither hashed again nor sorted, and an odd
    node at the end of a layer is carried up unchanged. *)

Module MerkleTree.

(** The hash function after [bufferifyFn]: [ethers.keccak256] returns a
    hexadecimal text, which is turned back into a buffer. *)
Definition hashFn (data : list byte) : list byte :=
  Hex.bufferify (Ethers.keccak256 data).

(** [combined.sort(Buffer.compare)] on the two-element array
    [[left, right]], then [Buffer.concat]. *)
Definition combine (lhs rhs : list byte) : list byte :=
  match Bytes.compare lhs rhs with
  | Gt => rhs ++ lhs
  | _ => lhs ++ rhs
  end.

(** One pass of the inner [for] loop of [createHashes] ([i += 2]). *)
Fixpoint nextLayer (nodes : list (list byte)) : list (list byte) :=
  match nodes with
  | lhs :: rhs :: rest => hashFn (combine lhs rhs) :: nextLayer rest
  | [odd] => [odd]
  | [] => []
  end.

(** The [while (nodes.length > 1)] loop; every pass shortens the layer, so
    [length nodes] passes are more than enough. *)
Fixpoint moreLayers (fuel : nat) (nodes : list (list byte))
    : list (list (list byte)) :=
  match fuel with
  | O => []
  | S fuel' =>
      if (1 <? length nodes)%nat
      then nextLayer nodes :: moreLayers fuel' (nextLayer nodes)
      else []
  end.

Definition createHashes (nodes : list (list byte)) : list (list (list byte)) :=
  nodes :: moreLayers (length nodes) nodes.

Record t := { leaves : list (list byte); layers : list (list (list byte)) }.

(** The constructor, through [processLeaves]. *)
Definition new (lvs : list (list byte)) : t :=
  {| leaves := lvs; layers := createHashes lvs |}.

(** [this.layers[this.layers.length - 1][0] || Buffer.from([])] *)
Definition getRoot (tr : t) : list byte :=
  match last (layers tr) with
  | Some (root :: _) => root
  | _ => []
  end.

Definition getHexRoot (tr : t) : string := Hex.hexlify (getRoot tr).

(** [this.getLayers().length - 1] *)
Definition getDepth (tr : t) : nat := length (layers tr) - 1.

(** What the last pass of [createHashes] hands to the hash function to make
    the root: the two nodes of the layer below the top, sorted and
    concatenated.  Empty when the tree has no such layer. *)
Definition rootInput (tr : t) : list byte :=
  match rev (layers tr) with
  | _ :: [lhs; rhs] :: _ => combine lhs rhs
  | _ => []
  end.

(** The search loop of [getProof]: it does not stop at the first match, so
    the last matching leaf wins; [None] is the initial [-1]. *)
Fixpoint leafIndex (leaf : list byte) (lvs : list (list byte))
    (i : nat) (index : option nat) : option nat :=
  match lvs with
  | [] => index
  | l :: rest =>
      leafIndex leaf rest (S i) (if Bytes.eqb leaf l then Some i else index)
  end.

Inductive position := Left | Right.

Definition pairIndex (index : nat) : nat :=
  if Nat.odd index then index - 1 else index + 1.

(** The loop of [getProof] over the layers, leaf layer first. *)
Fixpoint proofFrom (lys : list (list (list byte))) (index : nat)
    : list (position * list byte) :=
  match lys with
  | [] => []
  | layer :: rest =>
      match layer !! pairIndex index with
      | Some data =>
          [(if Nat.odd index then Left else Right, data)]
      | None => []
      end ++ proofFrom rest (index / 2)
  end.

Definition getProof (tr : t) (leaf : list byte) : list (position * list byte) :=
  match leafIndex leaf (leaves tr) 0 None with
  | None => []
  | Some index => proofFrom (layers tr) index
  end.

Definition getHexProof (tr : t) (leaf : list byte) : list string :=
  map (fun item => Hex.hexlify (snd item)) (getProof tr leaf).

(** One step of [verify] for a proof element given as text. *)
Definition verifyStep (hash : list byte) (node : string) : list byte :=
  let data := Hex.bufferify node in
  match Bytes.compare hash data with
  | Lt => hashFn (hash ++ data)
  | _ => hashFn (data ++ hash)
  end.

(** [verify(proof, targetNode, root)] with [targetNode] a buffer and
    [proof] and [root] given as texts. *)
Definition verify (proof : list string) (targetNode : list byte)
    (root : string) : bool :=
  Bytes.eqb (fold_left verifyStep proof targetNode) (Hex.bufferify root).

(** Two lists that differ only by the order inside the pairs the first pass
    of [createHashes] forms: positions 0 and 1, 2 and 3, and so on. *)
Inductive sibling_swapped {A : Type} : list A -> list A -> Prop :=
  | swapped_nil :
      sibling_swapped [] []
  | swapped_odd x :
      sibling_swapped [x] [x]
  | swapped_keep x y l l' :
      sibling_swapped l l' -> sibling_swapped (x :: y :: l) (x :: y :: l')
  | swapped_swap x y l l' :
      sibling_swapped l l' -> sibling_swapped (x :: y :: l) (y :: x :: l').

End MerkleTree.

(** ** [src/scripts/generate-merkle.ts]: class [AirdropMerkleTree] *)

Module AirdropMerkleTree.

Record EligibleUser := {
  address : string;
  amount : string;          (* in ether, "1000" for 1000 tokens *)
  reason : option string
}.

(** [createLeaf]; [None] when [parseEther] or the packing throws. *)
Definition createLeaf (address amount : string) : option (list byte) :=
  amountWei ← Ethers.parseEther amount;
  hash ← Ethers.solidityPackedKeccak256_address_uint256 address amountWei;
  Some (Hex.decode (drop 2 (list_byte_of_string hash))).

Definition generateMerkleTree (users : list EligibleUser)
    : option MerkleTree.t :=
  lvs ← mapM (fun user => createLeaf (address user) (amount user)) users;
  Some (MerkleTree.new lvs).

Record t := { tree : MerkleTree.t; eligibleUsers : list EligibleUser }.

(** The constructor; [None] when a leaf cannot be made. *)
Definition new (users : list EligibleUser) : option t :=
  tr ← generateMerkleTree users;
  Some {| tree := tr; eligibleUsers := users |}.

Definition getMerkleRoot (a : t) : string := MerkleTree.getHexRoot (tree a).

Definition getProof (a : t) (address amount : string) : option (list string) :=
  leaf ← createLeaf address amount;
  Some (MerkleTree.getHexProof (tree a) leaf).

Definition verifyProof (a : t) (address amount : string)
    (proof : list string) : option bool :=
  leaf ← createLeaf address amount;
  Some (MerkleTree.verify proof leaf (getMerkleRoot a)).

(** An entry of [getAllEligibleWithProofs].  [amountWei] is the number whose
    decimal text the script stores. *)
Record EligibleWithProof := {
  entry_address : string;
  entry_amount : string;
  entry_amountWei : Z;
  entry_proof : list string;
  entry_reason : option string
}.

Definition getAllEligibleWithProofs (a : t) : option (list EligibleWithProof) :=
  mapM (fun user =>
          amountWei ← Ethers.parseEther (amount user);
          proof ← getProof a (address user) (amount user);
          Some {| entry_address := address user;
                  entry_amount := amount user;
                  entry_amountWei := amountWei;
                  entry_proof := proof;
                  entry_reason := reason user |})
       (eligibleUsers a).

(** [getStats], but for [totalTokensToDistribute], which is a sum of
    floating-point numbers. *)
Record Stats := {
  totalEligibleUsers : nat;
  merkleRoot : string;
  treeHeight : nat
}.

Definition getStats (a : t) : Stats :=
  {| totalEligibleUsers := length (eligibleUsers a);
     merkleRoot := getMerkleRoot a;
     treeHeight := MerkleTree.getDepth (tree a) |}.

(** The list the script ships with. *)
Definition ELIGIBLE_USERS : list EligibleUser :=
  [ {| address := "0x742d35Cc6661C0532108D3CE8c8FCfb4F88CA7C5";
       amount := "1000";
       reason := Some "Early PayCrypt user" |};
    {| address := "0x8ba1f109551bD432803012645Hac136c";
       amount := "500";
       reason := Some "Beta tester" |};
    {| address := "0x2546BcD3c84621e976D8185a91A922aE77ECEc30";
       amount := "2000";
       reason := Some "Community contributor" |};
    {| address := "0x90F79bf6EB2c4f870365E785982E1f101E93b906";
       amount := "750";
       reason := Some "Social media supporter" |};
    {| address := "0x15d34AAf54267DB7D7c367839AAf71A00a2C6A65";
       amount := "1500";
       reason := Some "Ecosystem partner" |} ]%string.

(** [addEligibleUsers], as far as the tree it returns. *)
Definition addEligibleUsers (newUsers : list EligibleUser) : option t :=
  let updatedUsers := ELIGIBLE_USERS ++ newUsers in
  new updatedUsers.

End AirdropMerkleTree.

(** ** OpenZeppelin [MerkleProof] *)

Module MerkleProof.

Definition _efficientHash (a b : list byte) : list byte :=
  Keccak.keccak256 (a ++ b).

(** [a < b] on [bytes32] is the order of the big-endian values. *)
Definition _hashPair (a b : list byte) : list byte :=
  match Bytes.compare a b with
  | Lt => _efficientHash a b
  | _ => _efficientHash b a
  end.

Definition processProof (proof : list (list byte)) (leaf : list byte)
    : list byte :=
  fold_left _hashPair proof leaf.

Definition verify (proof : list (list byte)) (root leaf : list byte) : bool :=
  Bytes.eqb (processProof proof leaf) root.

End MerkleProof.

(** ** The contracts

    A call returns [Ok] with the new state or [Revert] with the error; a
    reverted call leaves the state it started from (see [state_after]). *)

Module Solidity.

Local Open Scope Z_scope.

Inductive Error :=
  (* errors declared by PayCryptAirdrop *)
  | ClaimPeriodEnded
  | ClaimPeriodNotStarted
  | AlreadyClaimed
  | InvalidProof
  | InvalidAmount
  | InsufficientTokens
  | ZeroAddress
  (* Panic(0x11): checked arithmetic left the range of uint256 *)
  | Panic_arithmetic
  (* errors declared by PayCryptToken *)
  | NotMinter
  | VestingNotStarted
  | NoTokensToVest
  | ExceedsAllocation
  (* OpenZeppelin: Ownable, ReentrancyGuard, Pausable, ERC20 *)
  | Ownable_caller_is_not_the_owner
  | Ownable_new_owner_is_the_zero_address
  | ReentrancyGuard_reentrant_call
  | Pausable_paused
  | Pausable_not_paused
  | ERC20_transfer_from_the_zero_address
  | ERC20_transfer_to_the_zero_address
  | ERC20_transfer_amount_exceeds_balance
  | ERC20_mint_to_the_zero_address
  | ERC20_burn_from_the_zero_address
  | ERC20_burn_amount_exceeds_balance
  | ERC20_approve_from_the_zero_address
  | ERC20_approve_to_the_zero_address
  | ERC20_insufficient_allowance
  | ERC20_decreased_allowance_below_zero.

Inductive Result (A : Type) :=
  | Ok (a : A)
  | Revert (e : Error).
Arguments Ok {A} a.
Arguments Revert {A} e.

#[export] Instance Result_ret : MRet Result := @Ok.
#[export] Instance Result_bind : MBind Result := fun A B f m =>
  match m with
  | Ok a => f a
  | Revert e => Revert e
  end.

Definition uint256_max : Z := 2 ^ 256 - 1.

Definition is_uint256 (v : Z) : bool := (0 <=? v) && (v <=? uint256_max).
Definition is_address (v : Z) : bool := (0 <=? v) && (v <? 2 ^ 160).

(** [a + b] and [a - b] on [uint256] in Solidity 0.8. *)
Definition add (a b : Z) : Result Z :=
  if a + b <=? uint256_max then Ok (a + b) else Revert Panic_arithmetic.

Definition sub (a b : Z) : Result Z :=
  if b <=? a then Ok (a - b) else Revert Panic_arithmetic.

Definition mul (a b : Z) : Result Z :=
  if a * b <=? uint256_max then Ok (a * b) else Revert Panic_arithmetic.

(** [a + b] and [a - b] inside an [unchecked] block: the result wraps
    around. *)
Definition unchecked_add (a b : Z) : Z := (a + b) mod 2 ^ 256.
Definition unchecked_sub (a b : Z) : Z := (a - b) mod 2 ^ 256.

(** The [n] bytes of [v], most significant first. *)
Definition be_fixed (n : nat) (v : Z) : list byte :=
  map (fun i => Bytes.byte_of_Z (Z.shiftr v (8 * Z.of_nat (n - 1 - i))))
      (seq 0 n).

(** [abi.encodePacked(address, uint256)]: 20 bytes, then 32 bytes. *)
Definition encodePacked_address_uint256 (a v : Z) : list byte :=
  be_fixed 20 a ++ be_fixed 32 v.

(** Read of a [mapping(address => bool)] and of a
    [mapping(address => uint256)]: a key never written reads as zero. *)
Definition read_bool (m : gmap Z bool) (k : Z) : bool := default false (m !! k).
Definition read_uint (m : gmap Z Z) (k : Z) : Z := default 0 (m !! k).

(** What a call sees of its transaction and block. *)
Record Env := { msg_sender : Z; block_timestamp : Z }.

(** The arguments are values of their Solidity types. *)
Definition well_typed_env (env : Env) : bool :=
  is_address (msg_sender env) && is_uint256 (block_timestamp env).

End Solidity.

(** *** The token: [src/contracts/PayCryptToken.sol]

    An OpenZeppelin v4 [ERC20] with [ERC20Burnable], [Ownable] and
    [Pausable].  The state is the storage of the contract; its event log is
    left out. *)

Module PayCryptToken.

Import Solidity.
Local Open Scope Z_scope.

Definition TOTAL_SUPPLY : Z := 1000000000 * 10 ^ 18.
Definition AIRDROP_ALLOCATION : Z := 50000000 * 10 ^ 18.
Definition TEAM_ALLOCATION : Z := 200000000 * 10 ^ 18.
Definition TREASURY_ALLOCATION : Z := 300000000 * 10 ^ 18.
Definition LIQUIDITY_ALLOCATION : Z := 150000000 * 10 ^ 18.
Definition ECOSYSTEM_ALLOCATION : Z := 300000000 * 10 ^ 18.

(** [2 * 365 days], in seconds. *)
Definition VESTING_DURATION : Z := 2 * (365 * 86400).

Record Token := {
  this : Z   (* address(this) *);
  _balances : gmap Z Z;
  _allowances : gmap (Z * Z) Z;
  _totalSupply : Z;
  _owner : Z   (* Ownable *);
  _paused : bool   (* Pausable *);
  minters : gmap Z bool;
  vestingSchedule : gmap Z Z;
  teamTokensReleased : Z;
  teamVestingStart : Z
}.

Definition set__balances (v : gmap Z Z) (tk : Token) : Token :=
  {| this := this tk;
     _balances := v;
     _allowances := _allowances tk;
     _totalSupply := _totalSupply tk;
     _owner := _owner tk;
     _paused := _paused tk;
     minters := minters tk;
     vestingSchedule := vestingSchedule tk;
     teamTokensReleased := teamTokensReleased tk;
     teamVestingStart := teamVestingStart tk |}.

Definition set__allowances (v : gmap (Z * Z) Z) (tk : Token) : Token :=
  {| this := this tk;
     _balances := _balances tk;
     _allowances := v;
     _totalSupply := _totalSupply tk;
     _owner := _owner tk;
     _paused := _paused tk;
     minters := minters tk;
     vestingSchedule := vestingSchedule tk;
     teamTokensReleased := teamTokensReleased tk;
     teamVestingStart := teamVestingStart tk |}.

Definition set__totalSupply (v : Z) (tk : Token) : Token :=
  {| this := this tk;
     _balances := _balances tk;
     _allowances := _allowances tk;
     _totalSupply := v;
     _owner := _owner tk;
     _paused := _paused tk;
     minters := minters tk;
     vestingSchedule := vestingSchedule tk;
     teamTokensReleased := teamTokensReleased tk;
     teamVestingStart := teamVestingStart tk |}.

Definition set__owner (v : Z) (tk : Token) : Token :=
  {| this := this tk;
     _balances := _balances tk;
     _allowances := _allowances tk;
     _totalSupply := _totalSupply tk;
     _owner := v;
     _paused := _paused tk;
     minters := minters tk;
     vestingSchedule := vestingSchedule tk;
     teamTokensReleased := teamTokensReleased tk;
     teamVestingStart := teamVestingStart tk |}.

Definition set__paused (v : bool) (tk : Token) : Token :=
  {| this := this tk;
     _balances := _balances tk;
     _allowances := _allowances tk;
     _totalSupply := _totalSupply tk;
     _owner := _owner tk;
     _paused := v;
     minters := minters tk;
     vestingSchedule := vestingSchedule tk;
     teamTokensReleased := teamTokensReleased tk;
     teamVestingStart := teamVestingStart tk |}.

Definition set_minters (v : gmap Z bool) (tk : Token) : Token :=
  {| this := this tk;
     _balances := _balances tk;
     _allowances := _allowances tk;
     _totalSupply := _totalSupply tk;
     _owner := _owner tk;
     _paused := _paused tk;
     minters := v;
     vestingSchedule := vestingSchedule tk;
     teamTokensReleased := teamTokensReleased tk;
     teamVestingStart := teamVestingStart tk |}.

Definition set_vestingSchedule (v : gmap Z Z) (tk : Token) : Token :=
  {| this := this tk;
     _balances := _balances tk;
     _allowances := _allowances tk;
     _totalSupply := _totalSupply tk;
     _owner := _owner tk;
     _paused := _paused tk;
     minters := minters tk;
     vestingSchedule := v;
     teamTokensReleased := teamTokensReleased tk;
     teamVestingStart := teamVestingStart tk |}.

Definition set_teamTokensReleased (v : Z) (tk : Token) : Token :=
  {| this := this tk;
     _balances := _balances tk;
     _allowances := _allowances tk;
     _totalSupply := _totalSupply tk;
     _owner := _owner tk;
     _paused := _paused tk;
     minters := minters tk;
     vestingSchedule := vestingSchedule tk;
     teamTokensReleased := v;
     teamVestingStart := teamVestingStart tk |}.

(** **** Views *)

Definition totalSupply (tk : Token) : Z := _totalSupply tk.

Definition balanceOf (tk : Token) (account : Z) : Z :=
  read_uint (_balances tk) account.

(** [_allowances[owner][spender]] *)
Definition allowance (tk : Token) (owner spender : Z) : Z :=
  default 0 (_allowances tk !! (owner, spender)).

Definition decimals : Z := 18.

(** **** Modifiers *)

Definition onlyOwner (env : Env) (body : Token -> Result Token) (tk : Token)
    : Result Token :=
  if _owner tk =? msg_sender env then body tk
  else Revert Ownable_caller_is_not_the_owner.

(** [if (!minters[msg.sender] && msg.sender != owner()) revert NotMinter();] *)
Definition onlyMinter (env : Env) (body : Token -> Result Token) (tk : Token)
    : Result Token :=
  if negb (read_bool (minters tk) (msg_sender env))
     && negb (msg_sender env =? _owner tk)
  then Revert NotMinter
  else body tk.

(** **** Internal functions of ERC20

    [_beforeTokenTransfer] is overridden with [whenNotPaused], so every
    transfer, mint and burn first requires that the token is not paused. *)

Definition _transfer (from to amount : Z) (tk : Token) : Result Token :=
  if from =? 0 then Revert ERC20_transfer_from_the_zero_address
  else if to =? 0 then Revert ERC20_transfer_to_the_zero_address
  else if _paused tk then Revert Pausable_paused
  else
    let fromBalance := balanceOf tk from in
    if fromBalance <? amount then Revert ERC20_transfer_amount_exceeds_balance
    else
      let b1 := <[from := fromBalance - amount]> (_balances tk) in
      let b2 := <[to := unchecked_add (read_uint b1 to) amount]> b1 in
      Ok (set__balances b2 tk).

Definition _mint (account amount : Z) (tk : Token) : Result Token :=
  if account =? 0 then Revert ERC20_mint_to_the_zero_address
  else if _paused tk then Revert Pausable_paused
  else
    total ← add (_totalSupply tk) amount;
    let tk := set__totalSupply total tk in
    Ok (set__balances
          (<[account := unchecked_add (balanceOf tk account) amount]>
             (_balances tk)) tk).

Definition _burn (account amount : Z) (tk : Token) : Result Token :=
  if account =? 0 then Revert ERC20_burn_from_the_zero_address
  else if _paused tk then Revert Pausable_paused
  else
    let accountBalance := balanceOf tk account in
    if accountBalance <? amount then Revert ERC20_burn_amount_exceeds_balance
    else
      let tk :=
        set__balances (<[account := accountBalance - amount]> (_balances tk))
          tk in
      Ok (set__totalSupply (unchecked_sub (_totalSupply tk) amount) tk).

Definition _approve (owner spender amount : Z) (tk : Token) : Result Token :=
  if owner =? 0 then Revert ERC20_approve_from_the_zero_address
  else if spender =? 0 then Revert ERC20_approve_to_the_zero_address
  else Ok (set__allowances (<[(owner, spender) := amount]> (_allowances tk)) tk).

Definition _spendAllowance (owner spender amount : Z) (tk : Token)
    : Result Token :=
  let currentAllowance := allowance tk owner spender in
  if currentAllowance =? uint256_max then Ok tk
  else if currentAllowance <? amount then Revert ERC20_insufficient_allowance
  else _approve owner spender (currentAllowance - amount) tk.

(** **** The constructor

    [Ownable] makes the deployer the owner, the token starts unpaused, and
    four of the five allocations are minted. *)

Definition constructor (env : Env) (self : Z) : Result Token :=
  let tk :=
    {| this := self;
       _balances := ∅;
       _allowances := ∅;
       _totalSupply := 0;
       _owner := msg_sender env;
       _paused := false;
       minters := ∅;
       vestingSchedule := ∅;
       teamTokensReleased := 0;
       teamVestingStart := block_timestamp env |} in
  (* Mint initial allocations *)
  tk ← _mint (msg_sender env) TREASURY_ALLOCATION tk;
  tk ← _mint (msg_sender env) LIQUIDITY_ALLOCATION tk;
  tk ← _mint (msg_sender env) ECOSYSTEM_ALLOCATION tk;
  (* Team tokens are vested, so they are minted to this contract *)
  _mint self TEAM_ALLOCATION tk.

(** **** External functions of PayCryptToken *)

Definition mintForAirdrop (env : Env) (to amount : Z)
    : Token -> Result Token :=
  onlyMinter env (fun tk =>
    sum ← add (totalSupply tk) amount;
    if TOTAL_SUPPLY <? sum then Revert ExceedsAllocation
    else _mint to amount tk).

Definition releaseVestedTokens (env : Env) (beneficiary : Z)
    : Token -> Result Token :=
  onlyOwner env (fun tk =>
    if block_timestamp env <? teamVestingStart tk then Revert VestingNotStarted
    else
      let allocation := read_uint (vestingSchedule tk) beneficiary in
      if allocation =? 0 then Revert NoTokensToVest
      else
        (* Calculate vested amount *)
        elapsed ← sub (block_timestamp env) (teamVestingStart tk);
        vestedAmount ←
          (if VESTING_DURATION <=? elapsed then Ok allocation
           else
             product ← mul allocation elapsed;
             Ok (product / VESTING_DURATION));
        (* Calculate releasable amount (vested - already released) *)
        releasableAmount ←
          sub vestedAmount (read_uint (vestingSchedule tk) beneficiary);
        if releasableAmount =? 0 then Revert NoTokensToVest
        else
          (* Update state *)
          schedule ←
            add (read_uint (vestingSchedule tk) beneficiary) releasableAmount;
          let tk :=
            set_vestingSchedule
              (<[beneficiary := schedule]> (vestingSchedule tk)) tk in
          released ← add (teamTokensReleased tk) releasableAmount;
          let tk := set_teamTokensReleased released tk in
          (* Transfer tokens *)
          _transfer (this tk) beneficiary releasableAmount tk).

Definition addVestingSchedule (env : Env) (beneficiary amount : Z)
    : Token -> Result Token :=
  onlyOwner env (fun tk =>
    Ok (set_vestingSchedule (<[beneficiary := amount]> (vestingSchedule tk)) tk)).

Definition addMinter (env : Env) (minter : Z) : Token -> Result Token :=
  onlyOwner env (fun tk =>
    Ok (set_minters (<[minter := true]> (minters tk)) tk)).

Definition removeMinter (env : Env) (minter : Z) : Token -> Result Token :=
  onlyOwner env (fun tk =>
    Ok (set_minters (<[minter := false]> (minters tk)) tk)).

(** [_pause] runs under [whenNotPaused], [_unpause] under [whenPaused]. *)
Definition pause (env : Env) : Token -> Result Token :=
  onlyOwner env (fun tk =>
    if _paused tk then Revert Pausable_paused
    else Ok (set__paused true tk)).

Definition unpause (env : Env) : Token -> Result Token :=
  onlyOwner env (fun tk =>
    if _paused tk then Ok (set__paused false tk)
    else Revert Pausable_not_paused).

(** Returns [(vestedAmount, releasableAmount)]. *)
Definition getVestedAmount (env : Env) (beneficiary : Z) (tk : Token)
    : Result (Z * Z) :=
  let allocation := read_uint (vestingSchedule tk) beneficiary in
  if (allocation =? 0) || (block_timestamp env <? teamVestingStart tk)
  then Ok (0, 0)
  else
    elapsed ← sub (block_timestamp env) (teamVestingStart tk);
    vestedAmount ←
      (if VESTING_DURATION <=? elapsed then Ok allocation
       else
         product ← mul allocation elapsed;
         Ok (product / VESTING_DURATION));
    releasableAmount ←
      sub vestedAmount (read_uint (vestingSchedule tk) beneficiary);
    Ok (vestedAmount, releasableAmount).

(** Returns [(airdrop, team, treasury, liquidity, ecosystem)]. *)
Definition getAllocations : Z * Z * Z * Z * Z :=
  (AIRDROP_ALLOCATION, TEAM_ALLOCATION, TREASURY_ALLOCATION,
   LIQUIDITY_ALLOCATION, ECOSYSTEM_ALLOCATION).

(** Returns [(circulating, locked, burned)]. *)
Definition getSupplyStats (tk : Token) : Result (Z * Z * Z) :=
  let current := totalSupply tk in
  let locked := balanceOf tk (this tk) in
  circulating ← sub current locked;
  burned ← sub TOTAL_SUPPLY current;
  Ok (circulating, locked, burned).

(** **** Inherited entry points: ERC20, ERC20Burnable, Ownable *)

Definition transfer (env : Env) (to amount : Z) : Token -> Result Token :=
  _transfer (msg_sender env) to amount.

Definition approve (env : Env) (spender amount : Z) : Token -> Result Token :=
  _approve (msg_sender env) spender amount.

Definition transferFrom (env : Env) (from to amount : Z) (tk : Token)
    : Result Token :=
  tk ← _spendAllowance from (msg_sender env) amount tk;
  _transfer from to amount tk.

Definition increaseAllowance (env : Env) (spender addedValue : Z) (tk : Token)
    : Result Token :=
  sum ← add (allowance tk (msg_sender env) spender) addedValue;
  _approve (msg_sender env) spender sum tk.

Definition decreaseAllowance (env : Env) (spender subtractedValue : Z)
    (tk : Token) : Result Token :=
  let currentAllowance := allowance tk (msg_sender env) spender in
  if currentAllowance <? subtractedValue
  then Revert ERC20_decreased_allowance_below_zero
  else _approve (msg_sender env) spender (currentAllowance - subtractedValue) tk.

Definition burn (env : Env) (amount : Z) : Token -> Result Token :=
  _burn (msg_sender env) amount.

Definition burnFrom (env : Env) (account amount : Z) (tk : Token)
    : Result Token :=
  tk ← _spendAllowance account (msg_sender env) amount tk;
  _burn account amount tk.

Definition transferOwnership (env : Env) (newOwner : Z)
    : Token -> Result Token :=
  onlyOwner env (fun tk =>
    if newOwner =? 0 then Revert Ownable_new_owner_is_the_zero_address
    else Ok (set__owner newOwner tk)).

Definition renounceOwnership (env : Env) : Token -> Result Token :=
  onlyOwner env (fun tk => Ok (set__owner 0 tk)).

(** **** Transactions *)

Inductive Call :=
  | Transfer (to amount : Z)
  | Approve (spender amount : Z)
  | TransferFrom (from to amount : Z)
  | IncreaseAllowance (spender addedValue : Z)
  | DecreaseAllowance (spender subtractedValue : Z)
  | Burn (amount : Z)
  | BurnFrom (account amount : Z)
  | MintForAirdrop (to amount : Z)
  | ReleaseVestedTokens (beneficiary : Z)
  | AddVestingSchedule (beneficiary amount : Z)
  | AddMinter (minter : Z)
  | RemoveMinter (minter : Z)
  | Pause
  | Unpause
  | TransferOwnership (newOwner : Z)
  | RenounceOwnership.

Definition call (env : Env) (c : Call) : Token -> Result Token :=
  match c with
  | Transfer to amount => transfer env to amount
  | Approve spender amount => approve env spender amount
  | TransferFrom from to amount => transferFrom env from to amount
  | IncreaseAllowance spender addedValue =>
      increaseAllowance env spender addedValue
  | DecreaseAllowance spender subtractedValue =>
      decreaseAllowance env spender subtractedValue
  | Burn amount => burn env amount
  | BurnFrom account amount => burnFrom env account amount
  | MintForAirdrop to amount => mintForAirdrop env to amount
  | ReleaseVestedTokens beneficiary => releaseVestedTokens env beneficiary
  | AddVestingSchedule beneficiary amount =>
      addVestingSchedule env beneficiary amount
  | AddMinter minter => addMinter env minter
  | RemoveMinter minter => removeMinter env minter
  | Pause => pause env
  | Unpause => unpause env
  | TransferOwnership newOwner => transferOwnership env newOwner
  | RenounceOwnership => renounceOwnership env
  end.

Definition well_typed (c : Call) : bool :=
  match c with
  | Transfer a v | Approve a v | IncreaseAllowance a v | DecreaseAllowance a v
  | MintForAirdrop a v | AddVestingSchedule a v | BurnFrom a v =>
      is_address a && is_uint256 v
  | TransferFrom a b v => is_address a && is_address b && is_uint256 v
  | Burn v => is_uint256 v
  | ReleaseVestedTokens a | AddMinter a | RemoveMinter a
  | TransferOwnership a => is_address a
  | Pause | Unpause | RenounceOwnership => true
  end.

(** A state the constructor produces. *)
Definition deployed (tk : Token) : Prop :=
  exists env self,
    well_typed_env env = true /\ is_address self = true /\
    constructor env self = Ok tk.

(** [evolves tk tk']: [tk'] comes from [tk] by successful well-typed calls.
    The contract has no code that calls one of its own entry points, so it
    is never the sender. *)
Inductive evolves : Token -> Token -> Prop :=
  | evolves_refl tk :
      evolves tk tk
  | evolves_call tk tk' tk'' env c :
      evolves tk tk' ->
      well_typed_env env = true ->
      well_typed c = true ->
      msg_sender env <> this tk' ->
      call env c tk' = Ok tk'' ->
      evolves tk tk''.

Definition reachable (tk : Token) : Prop :=
  exists tk0, deployed tk0 /\ evolves tk0 tk.

(** The sum of all balances. *)
Definition sum_balances (tk : Token) : Z :=
  map_fold (fun _ v acc => v + acc) 0 (_balances tk).

(** What every reachable state of the token satisfies, with [locked] the
    team allocation (see [reachable_invariant]); during construction
    [locked] is still zero. *)
Record invariant_with (locked : Z) (tk : Token) : Prop := {
  inv_balances : map_Forall (fun _ v => 0 <= v) (_balances tk);
  inv_sum : sum_balances tk = _totalSupply tk;
  inv_cap : _totalSupply tk <= TOTAL_SUPPLY;
  inv_schedule : map_Forall (fun _ v => 0 <= v) (vestingSchedule tk);
  inv_allowance : forall spender, allowance tk (this tk) spender = 0;
  inv_team : locked <= balanceOf tk (this tk);
  inv_released : teamTokensReleased tk = 0
}.

Definition invariant : Token -> Prop := invariant_with TEAM_ALLOCATION.

End PayCryptToken.

(** *** The distributor: contract [PayCryptAirdrop] *)

Module PayCryptAirdrop.

Import Solidity.
Import PayCryptToken.
Local Open Scope Z_scope.

Inductive Event :=
  | TokensClaimed (claimer amount timestamp : Z)
  | AirdropUpdated (newMerkleRoot : list byte)
      (newClaimPeriodEnd totalTokens : Z)
  | EmergencyWithdraw (owner amount : Z)
  | OwnershipTransferred (previousOwner newOwner : Z).

Definition _NOT_ENTERED : Z := 1.
Definition _ENTERED : Z := 2.

Record State := {
  self : Z   (* address(this) *);
  token : Z   (* IERC20 public immutable token *);
  merkleRoot : list byte;
  claimPeriodEnd : Z;
  totalClaimable : Z;
  totalClaimed : Z;
  hasClaimed : gmap Z bool;
  claimedAmount : gmap Z Z;
  _owner : Z   (* Ownable *);
  _status : Z   (* ReentrancyGuard *);
  ledger : Token   (* storage of the token contract *);
  events : list Event   (* the log *)
}.

Definition set_merkleRoot (v : list byte) (s : State) : State :=
  {| self := self s;
     token := token s;
     merkleRoot := v;
     claimPeriodEnd := claimPeriodEnd s;
     totalClaimable := totalClaimable s;
     totalClaimed := totalClaimed s;
     hasClaimed := hasClaimed s;
     claimedAmount := claimedAmount s;
     _owner := _owner s;
     _status := _status s;
     ledger := ledger s;
     events := events s |}.

Definition set_claimPeriodEnd (v : Z) (s : State) : State :=
  {| self := self s;
     token := token s;
     merkleRoot := merkleRoot s;
     claimPeriodEnd := v;
     totalClaimable := totalClaimable s;
     totalClaimed := totalClaimed s;
     hasClaimed := hasClaimed s;
     claimedAmount := claimedAmount s;
     _owner := _owner s;
     _status := _status s;
     ledger := ledger s;
     events := events s |}.

Definition set_totalClaimable (v : Z) (s : State) : State :=
  {| self := self s;
     token := token s;
     merkleRoot := merkleRoot s;
     claimPeriodEnd := claimPeriodEnd s;
     totalClaimable := v;
     totalClaimed := totalClaimed s;
     hasClaimed := hasClaimed s;
     claimedAmount := claimedAmount s;
     _owner := _owner s;
     _status := _status s;
     ledger := ledger s;
     events := events s |}.

Definition set_totalClaimed (v : Z) (s : State) : State :=
  {| self := self s;
     token := token s;
     merkleRoot := merkleRoot s;
     claimPeriodEnd := claimPeriodEnd s;
     totalClaimable := totalClaimable s;
     totalClaimed := v;
     hasClaimed := hasClaimed s;
     claimedAmount := claimedAmount s;
     _owner := _owner s;
     _status := _status s;
     ledger := ledger s;
     events := events s |}.

Definition set_hasClaimed (v : gmap Z bool) (s : State) : State :=
  {| self := self s;
     token := token s;
     merkleRoot := merkleRoot s;
     claimPeriodEnd := claimPeriodEnd s;
     totalClaimable := totalClaimable s;
     totalClaimed := totalClaimed s;
     hasClaimed := v;
     claimedAmount := claimedAmount s;
     _owner := _owner s;
     _status := _status s;
     ledger := ledger s;
     events := events s |}.

Definition set_claimedAmount (v : gmap Z Z) (s : State) : State :=
  {| self := self s;
     token := token s;
     merkleRoot := merkleRoot s;
     claimPeriodEnd := claimPeriodEnd s;
     totalClaimable := totalClaimable s;
     totalClaimed := totalClaimed s;
     hasClaimed := hasClaimed s;
     claimedAmount := v;
     _owner := _owner s;
     _status := _status s;
     ledger := ledger s;
     events := events s |}.

Definition set__owner (v : Z) (s : State) : State :=
  {| self := self s;
     token := token s;
     merkleRoot := merkleRoot s;
     claimPeriodEnd := claimPeriodEnd s;
     totalClaimable := totalClaimable s;
     totalClaimed := totalClaimed s;
     hasClaimed := hasClaimed s;
     claimedAmount := claimedAmount s;
     _owner := v;
     _status := _status s;
     ledger := ledger s;
     events := events s |}.

Definition set__status (v : Z) (s : State) : State :=
  {| self := self s;
     token := token s;
     merkleRoot := merkleRoot s;
     claimPeriodEnd := claimPeriodEnd s;
     totalClaimable := totalClaimable s;
     totalClaimed := totalClaimed s;
     hasClaimed := hasClaimed s;
     claimedAmount := claimedAmount s;
     _owner := _owner s;
     _status := v;
     ledger := ledger s;
     events := events s |}.

Definition set_ledger (v : Token) (s : State) : State :=
  {| self := self s;
     token := token s;
     merkleRoot := merkleRoot s;
     claimPeriodEnd := claimPeriodEnd s;
     totalClaimable := totalClaimable s;
     totalClaimed := totalClaimed s;
     hasClaimed := hasClaimed s;
     claimedAmount := claimedAmount s;
     _owner := _owner s;
     _status := _status s;
     ledger := v;
     events := events s |}.

Definition set_events (v : list Event) (s : State) : State :=
  {| self := self s;
     token := token s;
     merkleRoot := merkleRoot s;
     claimPeriodEnd := claimPeriodEnd s;
     totalClaimable := totalClaimable s;
     totalClaimed := totalClaimed s;
     hasClaimed := hasClaimed s;
     claimedAmount := claimedAmount s;
     _owner := _owner s;
     _status := _status s;
     ledger := ledger s;
     events := v |}.

Definition emit (e : Event) (s : State) : State :=
  set_events (events s ++ [e]) s.

(** Modifier [nonReentrant] of ReentrancyGuard. *)
Definition nonReentrant (body : State -> Result State) (s : State)
    : Result State :=
  if _status s =? _ENTERED then Revert ReentrancyGuard_reentrant_call
  else
    s' ← body (set__status _ENTERED s);
    Ok (set__status _NOT_ENTERED s').

(** Modifier [onlyOwner] of Ownable. *)
Definition onlyOwner (env : Env) (body : State -> Result State) (s : State)
    : Result State :=
  if _owner s =? msg_sender env then body s
  else Revert Ownable_caller_is_not_the_owner.

(** [SafeERC20.safeTransfer(token, to, amount)] from this contract. *)
Definition safeTransfer (to amount : Z) (s : State) : Result State :=
  tk ← _transfer (self s) to amount (ledger s);
  Ok (set_ledger tk s).

(** [keccak256(abi.encodePacked(account, amount))] *)
Definition leafOf (account amount : Z) : list byte :=
  Keccak.keccak256 (encodePacked_address_uint256 account amount).

Definition constructor (env : Env) (this : Z) (tk : Token)
    (_token : Z) (_merkleRoot : list byte)
    (_claimPeriodEnd _totalClaimable : Z) : Result State :=
  if _token =? 0 then Revert ZeroAddress
  else if _claimPeriodEnd <=? block_timestamp env then Revert ClaimPeriodEnded
  else
    Ok {| self := this;
          token := _token;
          merkleRoot := _merkleRoot;
          claimPeriodEnd := _claimPeriodEnd;
          totalClaimable := _totalClaimable;
          totalClaimed := 0;
          hasClaimed := ∅;
          claimedAmount := ∅;
          _owner := msg_sender env;
          _status := _NOT_ENTERED;
          ledger := tk;
          events := [OwnershipTransferred 0 (msg_sender env)] |}.

Definition claimTokens (env : Env) (amount : Z)
    (merkleProof : list (list byte)) : State -> Result State :=
  nonReentrant (fun s =>
    (* Validation checks *)
    if claimPeriodEnd s <? block_timestamp env then Revert ClaimPeriodEnded
    else if read_bool (hasClaimed s) (msg_sender env) then Revert AlreadyClaimed
    else if amount =? 0 then Revert InvalidAmount
    else
      (* Verify merkle proof *)
      let leaf := leafOf (msg_sender env) amount in
      if negb (MerkleProof.verify merkleProof (merkleRoot s) leaf)
      then Revert InvalidProof
      else
        (* Check if enough tokens available *)
        sum ← add (totalClaimed s) amount;
        if totalClaimable s <? sum then Revert InsufficientTokens
        else
          (* Update state *)
          let s := set_hasClaimed (<[msg_sender env := true]> (hasClaimed s)) s in
          let s := set_claimedAmount
                     (<[msg_sender env := amount]> (claimedAmount s)) s in
          total ← add (totalClaimed s) amount;
          let s := set_totalClaimed total s in
          (* Transfer tokens *)
          s ← safeTransfer (msg_sender env) amount s;
          Ok (emit (TokensClaimed (msg_sender env) amount (block_timestamp env)) s)).

Definition canClaim (env : Env) (user amount : Z)
    (merkleProof : list (list byte)) (s : State) : Result bool :=
  (* Check basic conditions *)
  if claimPeriodEnd s <? block_timestamp env then Ok false
  else if read_bool (hasClaimed s) user then Ok false
  else if amount =? 0 then Ok false
  else
    sum ← add (totalClaimed s) amount;
    if totalClaimable s <? sum then Ok false
    else
      (* Verify merkle proof *)
      let leaf := leafOf user amount in
      Ok (MerkleProof.verify merkleProof (merkleRoot s) leaf).

(** Returns [(claimed, amount, canStillClaim)]. *)
Definition getClaimStatus (env : Env) (user : Z) (s : State)
    : Result (bool * Z * bool) :=
  let claimed := read_bool (hasClaimed s) user in
  let amount := read_uint (claimedAmount s) user in
  let canStillClaim :=
    negb claimed && (block_timestamp env <=? claimPeriodEnd s) in
  Ok (claimed, amount, canStillClaim).

(** Returns [(_totalClaimable, _totalClaimed, _remainingTokens,
    _claimPeriodEnd, _isActive)]. *)
Definition getAirdropStats (env : Env) (s : State)
    : Result (Z * Z * Z * Z * bool) :=
  _remainingTokens ← sub (totalClaimable s) (totalClaimed s);
  Ok (totalClaimable s, totalClaimed s, _remainingTokens, claimPeriodEnd s,
      block_timestamp env <=? claimPeriodEnd s).

Definition updateAirdrop (env : Env) (_merkleRoot : list byte)
    (_claimPeriodEnd _totalClaimable : Z) : State -> Result State :=
  onlyOwner env (fun s =>
    if _claimPeriodEnd <=? block_timestamp env then Revert ClaimPeriodEnded
    else
      let s := set_merkleRoot _merkleRoot s in
      let s := set_claimPeriodEnd _claimPeriodEnd s in
      let s := set_totalClaimable _totalClaimable s in
      Ok (emit (AirdropUpdated _merkleRoot _claimPeriodEnd _totalClaimable) s)).

Definition emergencyWithdraw (env : Env) : State -> Result State :=
  onlyOwner env (fun s =>
    if block_timestamp env <=? claimPeriodEnd s
    then Revert ClaimPeriodNotStarted
    else
      let remainingBalance := balanceOf (ledger s) (self s) in
      if 0 <? remainingBalance then
        s' ← safeTransfer (_owner s) remainingBalance s;
        Ok (emit (EmergencyWithdraw (_owner s) remainingBalance) s')
      else Ok s).

Definition extendClaimPeriod (env : Env) (newEndTime : Z)
    : State -> Result State :=
  onlyOwner env (fun s =>
    if newEndTime <=? claimPeriodEnd s then Revert InvalidAmount
    else Ok (set_claimPeriodEnd newEndTime s)).

(** Inherited from Ownable. *)
Definition transferOwnership (env : Env) (newOwner : Z)
    : State -> Result State :=
  onlyOwner env (fun s =>
    if newOwner =? 0 then Revert Ownable_new_owner_is_the_zero_address
    else Ok (emit (OwnershipTransferred (_owner s) newOwner)
                  (set__owner newOwner s))).

Definition renounceOwnership (env : Env) : State -> Result State :=
  onlyOwner env (fun s =>
    Ok (emit (OwnershipTransferred (_owner s) 0) (set__owner 0 s))).

(** The state-changing entry points. *)
Inductive Call :=
  | ClaimTokens (amount : Z) (merkleProof : list (list byte))
  | UpdateAirdrop (_merkleRoot : list byte)
      (_claimPeriodEnd _totalClaimable : Z)
  | EmergencyWithdrawCall
  | ExtendClaimPeriod (newEndTime : Z)
  | TransferOwnership (newOwner : Z)
  | RenounceOwnership.

Definition call (env : Env) (c : Call) : State -> Result State :=
  match c with
  | ClaimTokens amount merkleProof => claimTokens env amount merkleProof
  | UpdateAirdrop r e t => updateAirdrop env r e t
  | EmergencyWithdrawCall => emergencyWithdraw env
  | ExtendClaimPeriod newEndTime => extendClaimPeriod env newEndTime
  | TransferOwnership newOwner => transferOwnership env newOwner
  | RenounceOwnership => renounceOwnership env
  end.

Definition well_typed (c : Call) : bool :=
  match c with
  | ClaimTokens amount _ => is_uint256 amount
  | UpdateAirdrop _ e t => is_uint256 e && is_uint256 t
  | ExtendClaimPeriod newEndTime => is_uint256 newEndTime
  | TransferOwnership newOwner => is_address newOwner
  | EmergencyWithdrawCall | RenounceOwnership => true
  end.

(** The state a transaction leaves behind: a revert undoes everything. *)
Definition state_after (r : Result State) (s : State) : State :=
  match r with
  | Ok s' => s'
  | Revert _ => s
  end.

(** A state the constructor produces from well-typed arguments. *)
Definition deployed (s : State) : Prop :=
  exists env this tk _token _merkleRoot _claimPeriodEnd _totalClaimable,
    well_typed_env env = true /\
    is_uint256 _claimPeriodEnd && is_uint256 _totalClaimable = true /\
    constructor env this tk _token _merkleRoot _claimPeriodEnd
      _totalClaimable = Ok s.

(** [evolves allowed s s']: [s'] comes from [s] by successful well-typed
    calls, each of them [allowed] in the state it is made in; in between,
    the token contract lives its own life. *)
Inductive evolves (allowed : State -> Call -> Prop) : State -> State -> Prop :=
  | evolves_refl s :
      evolves allowed s s
  | evolves_call s s' s'' env c :
      evolves allowed s s' ->
      well_typed_env env = true ->
      well_typed c = true ->
      allowed s' c ->
      call env c s' = Ok s'' ->
      evolves allowed s s''
  | evolves_token s s' tk :
      evolves allowed s s' ->
      evolves allowed s (set_ledger tk s').

Definition any_call (_ : State) (_ : Call) : Prop := True.

Definition reachable (s : State) : Prop :=
  exists s0, deployed s0 /\ evolves any_call s0 s.

(** A call that does not bring the cap below what was already claimed:
    every call but an [updateAirdrop] whose [_totalClaimable] is less than
    the current [totalClaimed]. *)
Definition keeps_cap (s : State) (c : Call) : Prop :=
  match c with
  | UpdateAirdrop _ _ _totalClaimable => totalClaimed s <= _totalClaimable
  | _ => True
  end.

(** A call other than [updateAirdrop]. *)
Definition without_update (_ : State) (c : Call) : Prop :=
  match c with
  | UpdateAirdrop _ _ _ => False
  | _ => True
  end.

(** The sum of all recorded claims. *)
Definition sum_claimedAmount (s : State) : Z :=
  map_fold (fun _ v acc => v + acc) 0 (claimedAmount s).

End PayCryptAirdrop.

(** ** From the generated files to the contract

    The claim page sends [contract.claimTokens(amountWei, claimData.proof)]
    from the wallet whose address is the key of the entry: the texts of the
    proof become [bytes32] values, and the address text stands for an
    account. *)

Module Frontend.

(** The account an address text denotes: the value of its forty digits. *)
Definition accountOf (address : string) : Z :=
  Bytes.to_Z (Ethers.getBytes (list_byte_of_string address)).

(** The [bytes32[]] argument made from the texts of a proof. *)
Definition merkleProofOf (proof : list string) : list (list byte) :=
  map (fun node => Ethers.getBytes (list_byte_of_string node)) proof.

End Frontend.

(** ** A small round, used to exercise the statements below *)

Module Round.

Import Solidity PayCryptToken PayCryptAirdrop.
Local Open Scope Z_scope.

Definition alice : Z := 0xA11CE.
Definition bob : Z := 0xB0B.
Definition admin : Z := 0xAD.
Definition airdrop : Z := 0xD0.
Definition pcrypt : Z := 0x70.

(** A one-leaf tree: the root is the leaf and the proof is empty. *)
Definition root_alice_5 : list byte := leafOf alice 5.
Definition root_bob_max : list byte := leafOf bob uint256_max.

(** The token, with 10 units in the distributor's account. *)
Definition funded : Token :=
  {| this := pcrypt;
     _balances := {[ airdrop := 10 ]};
     _allowances := ∅;
     _totalSupply := 10;
     PayCryptToken._owner := admin;
     _paused := false;
     minters := ∅;
     vestingSchedule := ∅;
     teamTokensReleased := 0;
     teamVestingStart := 0 |}.

Definition at_time (who now : Z) : Env :=
  {| msg_sender := who; block_timestamp := now |}.

(** Deployed at time 0 with the window ending at 100 and a cap of 10. *)
Definition s_deployed : State :=
  {| self := airdrop;
     token := pcrypt;
     merkleRoot := root_alice_5;
     claimPeriodEnd := 100;
     totalClaimable := 10;
     totalClaimed := 0;
     hasClaimed := ∅;
     claimedAmount := ∅;
     _owner := admin;
     _status := _NOT_ENTERED;
     ledger := funded;
     events := [OwnershipTransferred 0 admin] |}.

(** Alice claims her 5 tokens at time 1. *)
Definition s_claimed : State :=
  state_after (claimTokens (at_time alice 1) 5 [] s_deployed) s_deployed.

(** The owner then lowers the cap to 3, below the 5 already claimed. *)
Definition s_lowered : State :=
  state_after (updateAirdrop (at_time admin 2) root_alice_5 200 3 s_claimed)
    s_claimed.

(** Or the owner opens a round in which Bob is owed the largest uint256. *)
Definition s_huge : State :=
  state_after
    (updateAirdrop (at_time admin 2) root_bob_max 200 uint256_max s_claimed)
    s_claimed.

(** The token as its constructor leaves it, deployed by [admin] at time 0,
    and then with a vesting schedule of 1000 for Bob. *)
Definition tk_deployed : Token :=
  match PayCryptToken.constructor (at_time admin 0) pcrypt with
  | Ok tk => tk
  | Revert _ => funded
  end.

Definition tk_vesting : Token :=
  match addVestingSchedule (at_time admin 1) bob 1000 tk_deployed with
  | Ok tk => tk
  | Revert _ => tk_deployed
  end.

(** Three entries for the builder, written in lower case, and the same
    three with the last two exchanged or the first two exchanged. *)
Definition carol : AirdropMerkleTree.EligibleUser :=
  {| AirdropMerkleTree.address := "0x2546bcd3c84621e976d8185a91a922ae77ecec30";
     AirdropMerkleTree.amount := "2000";
     AirdropMerkleTree.reason := None |}.

Definition dave : AirdropMerkleTree.EligibleUser :=
  {| AirdropMerkleTree.address := "0x90f79bf6eb2c4f870365e785982e1f101e93b906";
     AirdropMerkleTree.amount := "750";
     AirdropMerkleTree.reason := Some "Social media supporter"%string |}.

Definition erin : AirdropMerkleTree.EligibleUser :=
  {| AirdropMerkleTree.address := "15d34aaf54267db7d7c367839aaf71a00a2c6a65";
     AirdropMerkleTree.amount := "1500.5";
     AirdropMerkleTree.reason := None |}.

(** Alice's account as a text, with five of the smallest unit: she is not
    on the list below. *)
Definition alice_entry : AirdropMerkleTree.EligibleUser :=
  {| AirdropMerkleTree.address := "0x00000000000000000000000000000000000a11ce";
     AirdropMerkleTree.amount := "0.000000000000000005";
     AirdropMerkleTree.reason := None |}.

Definition users : list AirdropMerkleTree.EligibleUser := [carol; dave; erin].
Definition users_last_two_swapped : list AirdropMerkleTree.EligibleUser :=
  [carol; erin; dave].
Definition users_first_two_swapped : list AirdropMerkleTree.EligibleUser :=
  [dave; carol; erin].

(** The distributor of [s_deployed] with a given root and a cap of ten
    thousand tokens. *)
Definition s_with_root (root : list byte) : State :=
  set_totalClaimable (10000 * 10 ^ 18) (set_merkleRoot root s_deployed).

(** The tree of [users]. *)
Definition users_tree : AirdropMerkleTree.t :=
  default {| AirdropMerkleTree.tree := MerkleTree.new [];
             AirdropMerkleTree.eligibleUsers := [] |}
          (AirdropMerkleTree.new users).

End Round.

(** * Properties

    ** Byte strings and their order *)

Section BytesFacts.
Import Bytes.
Local Open Scope Z_scope.

Lemma byte_to_Z_range b : 0 <= byte_to_Z b < 256.
Proof.
  unfold byte_to_Z. pose proof (Byte.to_N_bounded b) as H. lia.
Qed.

Lemma byte_of_to_Z b : byte_of_Z (byte_to_Z b) = b.
Proof.
  unfold byte_of_Z, byte_to_Z.
  pose proof (Byte.to_N_bounded b) as H.
  rewrite Z.mod_small by lia.
  rewrite N2Z.id, Byte.of_to_N. reflexivity.
Qed.

Lemma byte_to_of_Z z : byte_to_Z (byte_of_Z z) = z mod 256.
Proof.
  unfold byte_of_Z, byte_to_Z.
  pose proof (Z.mod_pos_bound z 256 ltac:(lia)) as H.
  destruct (Byte.of_N (Z.to_N (z mod 256))) as [b|] eqn:E.
  - apply Byte.to_of_N in E. rewrite E. lia.
  - apply Byte.of_N_None_iff in E. lia.
Qed.

Lemma byte_to_Z_inj a b : byte_to_Z a = byte_to_Z b -> a = b.
Proof.
  intros H. rewrite <- (byte_of_to_Z a), <- (byte_of_to_Z b). congruence.
Qed.

Lemma compare_refl a : compare a a = Eq.
Proof. induction a as [|x a IH]; simpl; [done|]. by rewrite Z.compare_refl. Qed.

Lemma compare_Eq a b : compare a b = Eq -> a = b.
Proof.
  revert b. induction a as [|x a IH]; intros [|y b]; simpl; try done.
  destruct (Z.compare_spec (byte_to_Z x) (byte_to_Z y)) as [E| |]; try done.
  intros H. f_equal; [by apply byte_to_Z_inj | by apply IH].
Qed.

Lemma compare_antisym a b : compare b a = CompOpp (compare a b).
Proof.
  revert b. induction a as [|x a IH]; intros [|y b]; simpl; try done.
  rewrite (Z.compare_antisym (byte_to_Z x) (byte_to_Z y)).
  destruct (byte_to_Z x ?= byte_to_Z y); simpl; auto.
Qed.

Lemma eqb_true a b : eqb a b = true <-> a = b.
Proof.
  unfold eqb. split.
  - destruct (compare a b) eqn:E; try done. intros _. by apply compare_Eq.
  - intros ->. by rewrite compare_refl.
Qed.

Lemma eqb_refl a : eqb a a = true.
Proof. by apply eqb_true. Qed.
End BytesFacts.

(** ** Hexadecimal text and the hash function of the tree *)

Section HexFacts.
Import Bytes Hex.

Lemma decode_encode_byte b :
  is_hex (digit (byte_to_Z b / 16)) && is_hex (digit (byte_to_Z b mod 16)) = true /\
  byte_of_Z (16 * value (digit (byte_to_Z b / 16))
             + value (digit (byte_to_Z b mod 16))) = b.
Proof. destruct b; vm_compute; split; reflexivity. Qed.

Lemma decode_encode bs : decode (encode bs) = bs.
Proof.
  induction bs as [|b bs IH]; [done|].
  cbn [encode decode].
  destruct (decode_encode_byte b) as [-> ->]. by rewrite IH.
Qed.

Lemma encode_is_hex bs : forallb is_hex (encode bs) = true.
Proof.
  induction bs as [|b bs IH]; [done|].
  cbn [encode forallb].
  destruct (decode_encode_byte b) as [H _].
  apply andb_true_iff in H as [-> ->]. by rewrite IH.
Qed.

Lemma length_encode bs : length (encode bs) = 2 * length bs.
Proof. induction bs as [|b bs IH]; cbn [encode length]; lia. Qed.

Lemma bytes_of_hexlify bs :
  list_byte_of_string (hexlify bs) = prefix_0x ++ encode bs.
Proof. unfold hexlify. apply list_byte_of_string_of_list_byte. Qed.

Lemma bufferify_hexlify bs : bufferify (hexlify bs) = bs.
Proof.
  unfold bufferify, isHexString. rewrite bytes_of_hexlify.
  cbn [prefix_0x app strip_0x].
  by rewrite encode_is_hex, decode_encode.
Qed.
End HexFacts.

Section KeccakFacts.
Lemma length_keccak256 m : length (Keccak.keccak256 m) = 32.
Proof. unfold Keccak.keccak256, Keccak.squeeze. by rewrite length_map, length_seq. Qed.

Lemma hashFn_keccak256 data : MerkleTree.hashFn data = Keccak.keccak256 data.
Proof. unfold MerkleTree.hashFn, Ethers.keccak256. apply bufferify_hexlify. Qed.
End KeccakFacts.

(** ** The layers of the tree *)

Section MerkleFacts.
Import MerkleTree.

(** Induction two elements at a time, as the pairing loop goes. *)
Lemma pairs_ind {A} (P : list A -> Prop) :
  P [] -> (forall x, P [x]) -> (forall x y l, P l -> P (x :: y :: l)) ->
  forall l, P l.
Proof.
  intros H0 H1 H2 l.
  assert (H : P l /\ forall x, P (x :: l)); [|by destruct H].
  induction l as [|y l [IH1 IH2]]; [by split|].
  split; [apply IH2|]. intros x. by apply H2.
Qed.

Lemma verifyStep_hexlify hash data :
  verifyStep hash (Hex.hexlify data) = MerkleProof._hashPair hash data.
Proof.
  unfold verifyStep, MerkleProof._hashPair, MerkleProof._efficientHash.
  rewrite bufferify_hexlify.
  destruct (Bytes.compare hash data); apply hashFn_keccak256.
Qed.

(** The node built from a pair is what either child computes with the
    other as its sibling. *)
Lemma hashFn_combine l r :
  hashFn (combine l r) = MerkleProof._hashPair l r.
Proof.
  rewrite hashFn_keccak256.
  unfold combine, MerkleProof._hashPair, MerkleProof._efficientHash.
  destruct (Bytes.compare l r) eqn:E; try done.
  by apply compare_Eq in E as ->.
Qed.

Lemma hashPair_comm l r :
  MerkleProof._hashPair l r = MerkleProof._hashPair r l.
Proof.
  unfold MerkleProof._hashPair, MerkleProof._efficientHash.
  rewrite (compare_antisym l r).
  destruct (Bytes.compare l r) eqn:E; try done.
  by apply compare_Eq in E as ->.
Qed.

Lemma pairIndex_SS j : pairIndex (S (S j)) = S (S (pairIndex j)).
Proof.
  unfold pairIndex. rewrite Nat.odd_succ_succ.
  destruct (Nat.odd j) eqn:E; [|lia].
  destruct j; [done|lia].
Qed.

Lemma div2_SS j : (S (S j) / 2 = S (j / 2))%nat.
Proof.
  replace (S (S j)) with (1 * 2 + j)%nat by lia.
  rewrite Nat.div_add_l by lia. lia.
Qed.

(** One level up: the parent of node [i] sits at [i / 2] and is the pair
    hash of the node with its sibling, or the node itself when it is the
    odd one out. *)
Lemma nextLayer_lookup nodes i x :
  nodes !! i = Some x ->
  nextLayer nodes !! (i / 2)%nat =
    Some (match nodes !! pairIndex i with
          | Some d => MerkleProof._hashPair x d
          | None => x
          end).
Proof.
  revert i. induction nodes as [|y|y z rest IH] using pairs_ind; intros i Hi.
  - done.
  - destruct i; [|done]. by simplify_eq/=.
  - destruct i as [|[|j]].
    + simplify_eq/=. by rewrite hashFn_combine.
    + simplify_eq/=. f_equal. rewrite hashFn_combine. apply hashPair_comm.
    + rewrite div2_SS, pairIndex_SS. cbn [nextLayer]. simpl in Hi |- *.
      by apply IH.
Qed.

Lemma length_nextLayer nodes :
  (length (nextLayer nodes) <= length nodes)%nat /\
  (2 <= length nodes -> length (nextLayer nodes) < length nodes)%nat /\
  (1 <= length nodes -> 1 <= length (nextLayer nodes))%nat.
Proof.
  induction nodes as [|y|y z rest IH] using pairs_ind; cbn [nextLayer length];
    lia.
Qed.

(** Walking a proof from node [i] of the bottom layer ends at the single
    node of the top layer. *)
Lemma proofFrom_reaches_top fuel nodes i x :
  nodes !! i = Some x ->
  (length nodes <= fuel)%nat ->
  last (nodes :: moreLayers fuel nodes) =
    Some [fold_left verifyStep
            (map (fun item => Hex.hexlify (snd item))
               (proofFrom (nodes :: moreLayers fuel nodes) i)) x].
Proof.
  revert nodes i x. induction fuel as [|fuel IH]; intros nodes i x Hi Hlen.
  { apply lookup_lt_Some in Hi. lia. }
  cbn [moreLayers].
  destruct (1 <? length nodes)%nat eqn:E.
  - apply Nat.ltb_lt in E.
    pose proof (nextLayer_lookup nodes i x Hi) as Hup.
    destruct (length_nextLayer nodes) as (_ & Hlt & _).
    specialize (IH (nextLayer nodes) _ _ Hup ltac:(lia)).
    rewrite last_cons. cbn [proofFrom].
    change (nextLayer nodes :: moreLayers fuel (nextLayer nodes))
      with ([nextLayer nodes] ++ moreLayers fuel (nextLayer nodes)) at 1.
    cbn [app]. rewrite IH. f_equal. f_equal.
    rewrite map_app, fold_left_app. f_equal.
    destruct (nodes !! pairIndex i) as [d|]; [|done].
    cbn [map fold_left snd]. symmetry. apply verifyStep_hexlify.
  - apply Nat.ltb_ge in E.
    destruct nodes as [|y [|z rest]]; [done| |simpl in E; lia].
    destruct i; [|done]. by simplify_eq/=.
Qed.
End MerkleFacts.

(** ** Big-endian encodings: ethers against [abi.encodePacked] *)

Section EncodingFacts.
Import Bytes Hex Ethers Solidity.
Local Open Scope Z_scope.

Lemma length_be_digits n v : length (be_digits n v) = n.
Proof.
  revert v. induction n as [|n IH]; intros v; [done|].
  cbn [be_digits]. rewrite length_app, IH. cbn. lia.
Qed.

Lemma length_be_fixed n v : length (be_fixed n v) = n.
Proof. unfold be_fixed. by rewrite length_map, length_seq. Qed.

(** The bytes Solidity writes are the base-256 digits ethers writes. *)
Lemma be_fixed_be_digits n v : be_fixed n v = be_digits n v.
Proof.
  revert v. induction n as [|n IH]; intros v; [done|].
  cbn [be_digits]. rewrite <- IH. unfold be_fixed.
  rewrite seq_S, map_app. cbn [map plus]. f_equal.
  - apply map_ext_in. intros i Hi. apply in_seq in Hi. f_equal.
    replace (8 * Z.of_nat (S n - 1 - i)) with (8 + 8 * Z.of_nat (n - 1 - i))
      by lia.
    rewrite <- Z.shiftr_shiftr by lia. by rewrite (Z.shiftr_div_pow2 v 8).
  - replace (S n - 1 - n)%nat with 0%nat by lia. by rewrite Z.shiftr_0_r.
Qed.

Lemma be_digits_0 n : be_digits n 0 = replicate n x00.
Proof.
  induction n as [|n IH]; [done|].
  cbn [be_digits]. rewrite Z.div_0_l by lia. rewrite IH.
  change (byte_of_Z 0) with x00. by rewrite replicate_S_end.
Qed.

Lemma be_digits_pad k n v :
  0 <= v < 256 ^ Z.of_nat n ->
  be_digits (k + n) v = replicate k x00 ++ be_digits n v.
Proof.
  revert v. induction n as [|n IH]; intros v Hv.
  - assert (v = 0) as -> by (change (256 ^ Z.of_nat 0) with 1 in Hv; lia).
    rewrite Nat.add_0_r, be_digits_0. cbn. by rewrite app_nil_r.
  - rewrite Nat.add_succ_r. cbn [be_digits]. rewrite IH, app_assoc; [done|].
    rewrite Nat2Z.inj_succ, Z.pow_succ_r in Hv by lia.
    split; [apply Z.div_pos; lia|].
    apply Z.div_lt_upper_bound; lia.
Qed.

Lemma to_Z_snoc bs b : to_Z (bs ++ [b]) = to_Z bs * 256 + byte_to_Z b.
Proof. unfold to_Z. by rewrite fold_left_app. Qed.

Lemma to_Z_bound bs : 0 <= to_Z bs < 256 ^ Z.of_nat (length bs).
Proof.
  induction bs as [|b bs IH] using rev_ind; [done|].
  rewrite to_Z_snoc, length_app. cbn [length].
  replace (Z.of_nat (length bs + 1)) with (Z.succ (Z.of_nat (length bs)))
    by lia.
  rewrite Z.pow_succ_r by lia.
  pose proof (byte_to_Z_range b). lia.
Qed.

(** Writing the value of a byte string back gives the byte string. *)
Lemma be_digits_to_Z bs : be_digits (length bs) (to_Z bs) = bs.
Proof.
  induction bs as [|b bs IH] using rev_ind; [done|].
  rewrite to_Z_snoc, length_app. cbn [length]. rewrite Nat.add_1_r.
  cbn [be_digits]. pose proof (byte_to_Z_range b) as Hb.
  replace ((to_Z bs * 256 + byte_to_Z b) / 256) with (to_Z bs).
  2: { rewrite Z.div_add_l by lia. rewrite Z.div_small by lia. lia. }
  rewrite IH. f_equal. f_equal.
  rewrite <- (byte_of_to_Z b) at 2. unfold byte_of_Z.
  rewrite Z.add_comm, Z.mod_add by lia. done.
Qed.

Lemma byte_length_bound v : 0 <= v -> v < 256 ^ Z.of_nat (byte_length v).
Proof.
  intros Hv. unfold byte_length.
  destruct (v =? 0) eqn:E; [apply Z.eqb_eq in E; subst; done|].
  apply Z.eqb_neq in E. assert (0 < v) as Hpos by lia.
  pose proof (Z.log2_nonneg v) as Hl.
  pose proof (Z.div_pos (Z.log2 v) 8 Hl ltac:(lia)) as Hq.
  rewrite Z2Nat.id by lia.
  destruct (Z.log2_spec v Hpos) as [_ Hlt].
  eapply Z.lt_le_trans; [exact Hlt|].
  change 256 with (2 ^ 8). rewrite <- Z.pow_mul_r by lia.
  apply Z.pow_le_mono_r; [lia|].
  pose proof (Z.mod_pos_bound (Z.log2 v) 8 ltac:(lia)).
  pose proof (Z.div_mod (Z.log2 v) 8 ltac:(lia)). lia.
Qed.

(** [zeroPadValue(toBeArray(v), 32)] is the 32-byte word of [v], for the
    values that fit one and no others. *)
Lemma toBeArray_zeroPadValue v pad :
  (be ← toBeArray v; zeroPadValue be 32) = Some pad ->
  is_uint256 v = true /\ pad = be_fixed 32 v.
Proof.
  unfold toBeArray, zeroPadValue.
  destruct (v <? 0) eqn:Eneg; [done|]. apply Z.ltb_ge in Eneg.
  cbn [mbind option_bind]. rewrite length_be_digits.
  destruct (32 <? byte_length v)%nat eqn:El; [done|].
  apply Nat.ltb_ge in El. intros [= <-].
  pose proof (byte_length_bound v Eneg) as Hb.
  split.
  - unfold is_uint256, uint256_max.
    apply andb_true_iff. split; [by apply Z.leb_le|]. apply Z.leb_le.
    assert (256 ^ Z.of_nat (byte_length v) <= 256 ^ 32)
      by (apply Z.pow_le_mono_r; lia).
    change (256 ^ 32) with (2 ^ 256) in *. lia.
  - rewrite be_fixed_be_digits.
    rewrite <- be_digits_pad by lia. f_equal. lia.
Qed.

Lemma case_blind c :
  is_hex (to_lower c) = is_hex c /\ value (to_lower c) = value c /\
  is_hex (to_upper c) = is_hex c /\ value (to_upper c) = value c.
Proof. destruct c; vm_compute; repeat split; reflexivity. Qed.

Lemma decode_to_lower ds : decode (map to_lower ds) = decode ds.
Proof.
  induction ds as [|c|c d ds IH] using pairs_ind; [done..|].
  cbn [map decode].
  destruct (case_blind c) as (-> & -> & _), (case_blind d) as (-> & -> & _).
  by rewrite IH.
Qed.

(** The checksum changes the case of letters and nothing a decoder sees. *)
Lemma decode_checksum_case chars hashed :
  decode (checksum_case chars hashed) = decode chars.
Proof.
  revert hashed.
  induction chars as [|c|c d chars IH] using pairs_ind; intros hashed.
  - by destruct hashed.
  - by destruct hashed.
  - destruct hashed as [|h hashed]; [done|].
    cbn [checksum_case decode].
    destruct (case_blind c) as (_ & _ & Hc1 & Hc2).
    destruct (case_blind d) as (_ & _ & Hd1 & Hd2).
    rewrite IH.
    destruct (8 <=? nibble_hi h), (8 <=? nibble_lo h);
      rewrite ?Hc1, ?Hc2, ?Hd1, ?Hd2; done.
Qed.

Lemma length_decode n ds :
  length ds = (2 * n)%nat -> forallb is_hex ds = true -> length (decode ds) = n.
Proof.
  revert ds. induction n as [|n IH]; intros ds Hlen Hhex.
  - by destruct ds.
  - destruct ds as [|c [|d ds]]; [done|simpl in Hlen; lia|].
    cbn [forallb] in Hhex.
    apply andb_true_iff in Hhex as [Hc Hhex].
    apply andb_true_iff in Hhex as [Hd Hhex].
    cbn [decode]. rewrite Hc, Hd. cbn [andb length]. f_equal.
    apply IH; [simpl in Hlen; lia|done].
Qed.

(** What [getAddress] accepts denotes an account, and the bytes of the text
    it returns are the 20 bytes of that account. *)
Lemma getAddress_getBytes address a :
  getAddress address = Some a ->
  is_address (Frontend.accountOf address) = true /\
  getBytes a = be_fixed 20 (Frontend.accountOf address).
Proof.
  unfold getAddress, Frontend.accountOf.
  set (digits := strip_0x (list_byte_of_string address)).
  destruct (_ && _) eqn:E; [|done].
  apply andb_true_iff in E as [Hlen Hhex]. apply Nat.eqb_eq in Hlen.
  destruct (_ || _); [|done]. intros [= <-].
  assert (Hb : getBytes (getChecksumAddress digits) = decode digits).
  { unfold getBytes, getChecksumAddress.
    cbn [prefix_0x app strip_0x].
    by rewrite decode_checksum_case, decode_to_lower. }
  assert (Hd : getBytes (list_byte_of_string address) = decode digits)
    by reflexivity.
  rewrite Hb, Hd.
  pose proof (length_decode 20 digits Hlen Hhex) as H20.
  pose proof (to_Z_bound (decode digits)) as Hz. rewrite H20 in Hz.
  split.
  - unfold is_address. apply andb_true_iff.
    split; [apply Z.leb_le|apply Z.ltb_lt];
      change (256 ^ Z.of_nat 20) with (2 ^ 160) in Hz; lia.
  - rewrite be_fixed_be_digits, <- H20. symmetry. apply be_digits_to_Z.
Qed.

(** [solidityPacked(['address', 'uint256'], ...)], when it does not throw,
    is [abi.encodePacked] of the account and the amount. *)
Lemma solidityPacked_encodePacked address v packed :
  solidityPacked_address_uint256 address v = Some packed ->
  is_address (Frontend.accountOf address) = true /\
  is_uint256 v = true /\
  packed = encodePacked_address_uint256 (Frontend.accountOf address) v.
Proof.
  unfold solidityPacked_address_uint256.
  destruct (getAddress address) as [a|] eqn:Ea; [|done].
  cbn [mbind option_bind].
  destruct (toBeArray v) as [be|] eqn:Ebe; [|done].
  cbn [mbind option_bind].
  destruct (zeroPadValue be 32) as [w|] eqn:Ew; [|done].
  cbn [mbind option_bind]. intros [= <-].
  destruct (getAddress_getBytes _ _ Ea) as [Haddr ->].
  destruct (toBeArray_zeroPadValue v w) as [Hv ->].
  { rewrite Ebe. exact Ew. }
  done.
Qed.

Lemma length_encodePacked a v :
  length (encodePacked_address_uint256 a v) = 52%nat.
Proof.
  unfold encodePacked_address_uint256.
  by rewrite length_app, !length_be_fixed.
Qed.

End EncodingFacts.

(** ** Leaves, proofs and the builder *)

Section TreeFacts.
Import MerkleTree.

Lemma leafIndex_found leaf lvs i j :
  is_Some (leafIndex leaf lvs i (Some j)).
Proof.
  revert i j. induction lvs as [|l lvs IH]; intros i j; cbn [leafIndex]; [eauto|].
  destruct (Bytes.eqb leaf l); apply IH.
Qed.

Lemma leafIndex_elem leaf lvs i index :
  leaf ∈ lvs -> is_Some (leafIndex leaf lvs i index).
Proof.
  revert i index. induction lvs as [|l lvs IH]; intros i index Hin.
  - by apply elem_of_nil in Hin.
  - cbn [leafIndex]. apply elem_of_cons in Hin as [->|Hin].
    + rewrite eqb_refl. apply leafIndex_found.
    + by apply IH.
Qed.

Lemma leafIndex_not_elem leaf lvs i index :
  leaf ∉ lvs -> leafIndex leaf lvs i index = index.
Proof.
  revert i index. induction lvs as [|l lvs IH]; intros i index Hin; [done|].
  cbn [leafIndex]. apply not_elem_of_cons in Hin as [Hne Hin].
  destruct (Bytes.eqb leaf l) eqn:E; [by apply eqb_true in E|].
  by apply IH.
Qed.

Lemma leafIndex_lookup leaf lvs i index j :
  leafIndex leaf lvs i index = Some j ->
  index = Some j \/ exists k, j = (i + k)%nat /\ lvs !! k = Some leaf.
Proof.
  revert i index. induction lvs as [|l lvs IH]; intros i index H; [by left|].
  cbn [leafIndex] in H. apply IH in H as [H|(k & -> & Hk)].
  - destruct (Bytes.eqb leaf l) eqn:E; [|by left].
    apply eqb_true in E as ->. simplify_eq. right. exists 0%nat.
    split; [lia|done].
  - right. exists (S k). split; [lia|done].
Qed.

(** The proof for a leaf of the tree verifies against the tree's root. *)
Lemma getHexProof_verify lvs leaf :
  leaf ∈ lvs ->
  verify (getHexProof (new lvs) leaf) leaf (getHexRoot (new lvs)) = true.
Proof.
  intros Hin.
  unfold verify, getHexProof, getProof, getHexRoot, getRoot.
  cbn [new leaves layers].
  destruct (leafIndex_elem leaf lvs 0 None Hin) as [j Hj]. rewrite Hj.
  apply leafIndex_lookup in Hj as [?|(k & -> & Hk)]; [done|].
  unfold createHashes.
  rewrite (proofFrom_reaches_top (length lvs) lvs (0 + k) leaf Hk) by done.
  rewrite bufferify_hexlify. apply eqb_refl.
Qed.

Lemma getHexProof_not_elem lvs leaf :
  leaf ∉ lvs -> getHexProof (new lvs) leaf = [].
Proof.
  intros Hin. unfold getHexProof, getProof. cbn [new leaves].
  by rewrite leafIndex_not_elem.
Qed.
(** *** Order inside the sibling pairs *)

Lemma sibling_swapped_length {A} (l l' : list A) :
  sibling_swapped l l' -> length l = length l'.
Proof. induction 1; cbn [length]; congruence. Qed.

Lemma nextLayer_sibling_swapped l l' :
  sibling_swapped l l' -> nextLayer l = nextLayer l'.
Proof.
  induction 1 as [|x|x y l l' _ IH|x y l l' _ IH]; cbn [nextLayer];
    try done; rewrite IH; [done|].
  by rewrite !hashFn_combine, hashPair_comm.
Qed.

Lemma getRoot_sibling_swapped lvs lvs' :
  sibling_swapped lvs lvs' -> getRoot (new lvs) = getRoot (new lvs').
Proof.
  intros H. pose proof (sibling_swapped_length _ _ H) as Hlen.
  pose proof (nextLayer_sibling_swapped _ _ H) as Hnext.
  unfold getRoot, new, createHashes. cbn [layers]. rewrite <- Hlen.
  inversion H; subst; try done;
    cbn [length moreLayers Nat.ltb Nat.leb] in *;
    by rewrite !last_cons_cons, Hnext.
Qed.

Lemma mapM_sibling_swapped {A B} (f : A -> option B) l l' k :
  sibling_swapped l l' -> mapM f l = Some k ->
  exists k', mapM f l' = Some k' /\ sibling_swapped k k'.
Proof.
  intros H. revert k.
  induction H as [|x|x y l l' _ IH|x y l l' _ IH]; intros k Hk.
  - exists k. split; [done|]. injection Hk as <-. constructor.
  - exists k. split; [done|]. cbn in Hk.
    destruct (f x); [|done]. injection Hk as <-. constructor.
  - cbn in Hk |- *. destruct (f x) as [fx|]; [|done].
    destruct (f y) as [fy|]; [|done]. cbn in Hk |- *.
    destruct (mapM f l) as [k0|]; [|done]. injection Hk as <-.
    destruct (IH k0 eq_refl) as (k' & -> & Hs). cbn.
    eexists. split; [done|]. by constructor.
  - cbn in Hk |- *. destruct (f x) as [fx|]; [|done].
    destruct (f y) as [fy|]; [|done]. cbn in Hk |- *.
    destruct (mapM f l) as [k0|]; [|done]. injection Hk as <-.
    destruct (IH k0 eq_refl) as (k' & -> & Hs). cbn.
    eexists. split; [done|]. by constructor.
Qed.

(** *** The top of the tree *)

Lemma length_combine l r : length (combine l r) = (length l + length r)%nat.
Proof. unfold combine. destruct (Bytes.compare l r); rewrite length_app; lia. Qed.

Lemma nextLayer_32 nodes :
  Forall (fun node => length node = 32%nat) nodes ->
  Forall (fun node => length node = 32%nat) (nextLayer nodes).
Proof.
  induction nodes as [|y|y z rest IH] using pairs_ind; cbn [nextLayer];
    [done..|].
  intros H. apply Forall_cons in H as [_ H]. apply Forall_cons in H as [_ H].
  constructor; [|by apply IH].
  rewrite hashFn_keccak256. apply length_keccak256.
Qed.

Lemma nextLayer_single nodes :
  (2 <= length nodes)%nat -> length (nextLayer nodes) = 1%nat ->
  exists l r, nodes = [l; r].
Proof.
  destruct nodes as [|l [|r [|z rest]]]; cbn [length nextLayer]; try lia.
  - eauto.
  - intros _ H. exfalso. destruct rest as [|? ?]; cbn [nextLayer length] in H;
      lia.
Qed.

(** With two leaves or more, the last two layers are a pair of nodes and
    the hash of that pair. *)
Lemma top_of_tree fuel nodes :
  (2 <= length nodes <= fuel)%nat ->
  Forall (fun node => length node = 32%nat) nodes ->
  exists l r rest,
    rev (nodes :: moreLayers fuel nodes)
      = [hashFn (combine l r)] :: [l; r] :: rest /\
    length l = 32%nat /\ length r = 32%nat.
Proof.
  revert nodes. induction fuel as [|fuel IH]; intros nodes Hlen H32; [lia|].
  cbn [moreLayers].
  destruct (1 <? length nodes)%nat eqn:E; [|apply Nat.ltb_ge in E; lia].
  destruct (length_nextLayer nodes) as (_ & Hlt & Hge).
  destruct (Nat.eq_dec (length (nextLayer nodes)) 1) as [H1|H1].
  - destruct (nextLayer_single nodes ltac:(lia) H1) as (l & r & ->).
    exists l, r, []. apply Forall_cons in H32 as [Hl H32].
    apply Forall_cons in H32 as [Hr _].
    split; [|done]. cbn [nextLayer].
    destruct fuel; reflexivity.
  - destruct (IH (nextLayer nodes) ltac:(lia) (nextLayer_32 _ H32))
      as (l & r & rest & Hrev & Hl & Hr).
    exists l, r, (rest ++ [nodes]). split; [|done].
    change (rev (nodes :: ?x)) with (rev x ++ [nodes]).
    by rewrite Hrev.
Qed.

Lemma getRoot_rootInput lvs :
  (2 <= length lvs)%nat ->
  Forall (fun node => length node = 32%nat) lvs ->
  getRoot (new lvs) = Keccak.keccak256 (rootInput (new lvs)) /\
  length (rootInput (new lvs)) = 64%nat.
Proof.
  intros Hlen H32.
  destruct (top_of_tree (length lvs) lvs ltac:(lia) H32)
    as (l & r & rest & Hrev & Hl & Hr).
  unfold getRoot, rootInput, new, createHashes. cbn [layers].
  rewrite Hrev. rewrite length_combine, Hl, Hr. split; [|done].
  apply (f_equal (@rev _)) in Hrev. rewrite rev_involutive in Hrev.
  rewrite Hrev. cbn [rev]. rewrite last_snoc. apply hashFn_keccak256.
Qed.

(** With one leaf or none, the root is that leaf or the empty buffer. *)
Lemma getRoot_small lvs :
  (length lvs <= 1)%nat -> getRoot (new lvs) = default [] (head lvs).
Proof. destruct lvs as [|l [|? ?]]; cbn [length]; [done..|lia]. Qed.

End TreeFacts.

Section BuilderFacts.
Import AirdropMerkleTree.

Lemma createLeaf_Some address amount leaf :
  createLeaf address amount = Some leaf <->
  exists amountWei packed,
    Ethers.parseEther amount = Some amountWei /\
    Ethers.solidityPacked_address_uint256 address amountWei = Some packed /\
    leaf = Keccak.keccak256 packed.
Proof.
  unfold createLeaf, Ethers.solidityPackedKeccak256_address_uint256.
  destruct (Ethers.parseEther amount) as [w|]; cbn [mbind option_bind].
  2: { split; [done|]. by intros (?&?&?&_). }
  destruct (Ethers.solidityPacked_address_uint256 address w) as [p|] eqn:Ep;
    cbn [fmap option_fmap option_map mbind option_bind].
  2: { split; [done|]. intros (?&?&?&?&_). simplify_eq. }
  unfold Ethers.keccak256. rewrite bytes_of_hexlify.
  unfold Hex.prefix_0x. cbn [app]. rewrite !skipn_cons, drop_0, decode_encode.
  split.
  - intros [= <-]. eauto.
  - intros (?&?&?&?&->). by simplify_eq.
Qed.

Lemma new_Some users a :
  new users = Some a ->
  exists lvs,
    mapM (fun user => createLeaf (address user) (amount user)) users = Some lvs /\
    tree a = MerkleTree.new lvs.
Proof.
  unfold new, generateMerkleTree.
  destruct (mapM _ users) as [lvs|]; [|done].
  cbn. intros [= <-]. eauto.
Qed.

Lemma listed_leaf users lvs user :
  mapM (fun user => createLeaf (address user) (amount user)) users = Some lvs ->
  user ∈ users ->
  exists leaf,
    createLeaf (address user) (amount user) = Some leaf /\ leaf ∈ lvs.
Proof.
  intros Hm Hin. apply mapM_Some_1 in Hm.
  apply list_elem_of_lookup in Hin as [i Hi].
  destruct (Forall2_lookup_l _ _ _ _ _ Hm Hi) as (leaf & Hl & Hc).
  exists leaf. split; [done|]. apply list_elem_of_lookup. eauto.
Qed.

Lemma createLeaf_length address amount leaf :
  createLeaf address amount = Some leaf -> length leaf = 32%nat.
Proof.
  intros H. apply createLeaf_Some in H as (?&?&_&_&->).
  apply length_keccak256.
Qed.

Lemma leaves_32 users lvs :
  mapM (fun user => createLeaf (address user) (amount user)) users = Some lvs ->
  Forall (fun node => length node = 32%nat) lvs.
Proof.
  intros Hm. apply mapM_Some_1 in Hm.
  induction Hm as [|user leaf users lvs Hl _ IH]; constructor; [|done].
  by eapply createLeaf_length.
Qed.

End BuilderFacts.

(** ** The distributor, call by call *)

Section Distributor.
Import Solidity PayCryptToken PayCryptAirdrop.
Local Open Scope Z_scope.

Ltac owner_call H :=
  unfold updateAirdrop, emergencyWithdraw, extendClaimPeriod,
    transferOwnership, renounceOwnership, onlyOwner, safeTransfer in H;
  unfold mbind, Result_bind in H;
  repeat case_match; simplify_eq; cbn in *; try done.

Lemma add_Ok a b : a + b <= uint256_max -> add a b = Ok (a + b).
Proof. intros H. unfold add. by rewrite (proj2 (Z.leb_le _ _) H). Qed.

Lemma add_Panic a b : uint256_max < a + b -> add a b = Revert Panic_arithmetic.
Proof. intros H. unfold add. by rewrite (proj2 (Z.leb_gt _ _) H). Qed.

Lemma add_inv a b c : add a b = Ok c -> c = a + b /\ a + b <= uint256_max.
Proof.
  unfold add. destruct (a + b <=? uint256_max) eqn:E; [|done].
  intros [= <-]. apply Z.leb_le in E. done.
Qed.

(** [claimTokens] with the guard clear, as one chain of checks. *)
Lemma claimTokens_outcome env amount merkleProof s :
  _status s <> _ENTERED ->
  claimTokens env amount merkleProof s =
    (if claimPeriodEnd s <? block_timestamp env then Revert ClaimPeriodEnded
     else if read_bool (hasClaimed s) (msg_sender env)
     then Revert AlreadyClaimed
     else if amount =? 0 then Revert InvalidAmount
     else if negb (MerkleProof.verify merkleProof (merkleRoot s)
                     (leafOf (msg_sender env) amount))
     then Revert InvalidProof
     else if uint256_max <? totalClaimed s + amount
     then Revert Panic_arithmetic
     else if totalClaimable s <? totalClaimed s + amount
     then Revert InsufficientTokens
     else
       match _transfer (self s) (msg_sender env) amount (ledger s) with
       | Revert e => Revert e
       | Ok tk =>
           Ok {| self := self s;
                 token := token s;
                 merkleRoot := merkleRoot s;
                 claimPeriodEnd := claimPeriodEnd s;
                 totalClaimable := totalClaimable s;
                 totalClaimed := totalClaimed s + amount;
                 hasClaimed := <[msg_sender env := true]> (hasClaimed s);
                 claimedAmount :=
                   <[msg_sender env := amount]> (claimedAmount s);
                 _owner := _owner s;
                 _status := _NOT_ENTERED;
                 ledger := tk;
                 events := events s ++
                   [TokensClaimed (msg_sender env) amount
                      (block_timestamp env)] |}
       end).
Proof.
  intros Hst. unfold claimTokens, nonReentrant.
  destruct (_status s =? _ENTERED) eqn:E; [apply Z.eqb_eq in E; done|].
  cbn [claimPeriodEnd hasClaimed merkleRoot totalClaimed totalClaimable
       set__status].
  destruct (claimPeriodEnd s <? block_timestamp env); [done|].
  destruct (read_bool (hasClaimed s) (msg_sender env)); [done|].
  destruct (amount =? 0); [done|].
  destruct (negb _); [done|].
  unfold add. cbn [mbind Result_bind].
  destruct (uint256_max <? totalClaimed s + amount) eqn:Eo.
  - apply Z.ltb_lt in Eo. by rewrite (proj2 (Z.leb_gt _ _) Eo).
  - apply Z.ltb_ge in Eo. rewrite (proj2 (Z.leb_le _ _) Eo).
    cbn [mbind Result_bind].
    destruct (totalClaimable s <? totalClaimed s + amount); [done|].
    cbn. rewrite (proj2 (Z.leb_le _ _) Eo). cbn.
    unfold safeTransfer. cbn.
    destruct (_transfer _ _ _ _); done.
Qed.

Lemma claimTokens_entered env amount merkleProof s :
  _status s = _ENTERED ->
  claimTokens env amount merkleProof s = Revert ReentrancyGuard_reentrant_call.
Proof.
  intros Hst. unfold claimTokens, nonReentrant. by rewrite Hst.
Qed.

(** What a successful claim needs and what it writes. *)
Lemma claimTokens_Ok env amount merkleProof s s' :
  claimTokens env amount merkleProof s = Ok s' ->
  block_timestamp env <= claimPeriodEnd s /\
  read_bool (hasClaimed s) (msg_sender env) = false /\
  amount <> 0 /\
  MerkleProof.verify merkleProof (merkleRoot s)
    (leafOf (msg_sender env) amount) = true /\
  totalClaimed s + amount <= totalClaimable s /\
  totalClaimed s' = totalClaimed s + amount /\
  totalClaimable s' = totalClaimable s /\
  hasClaimed s' = <[msg_sender env := true]> (hasClaimed s) /\
  claimedAmount s' = <[msg_sender env := amount]> (claimedAmount s) /\
  _status s' = _NOT_ENTERED.
Proof.
  destruct (Z.eq_dec (_status s) _ENTERED) as [He|Hne].
  { by rewrite claimTokens_entered. }
  rewrite claimTokens_outcome by done.
  destruct (claimPeriodEnd s <? block_timestamp env) eqn:E1; [done|].
  destruct (read_bool _ _) eqn:E2; [done|].
  destruct (amount =? 0) eqn:E3; [done|].
  destruct (MerkleProof.verify _ _ _) eqn:E4; [|done]. cbn [negb].
  destruct (uint256_max <? _) eqn:E5; [done|].
  destruct (totalClaimable s <? _) eqn:E6; [done|].
  destruct (_transfer _ _ _ _); [|done].
  intros [= <-]. apply Z.ltb_ge in E1, E6. apply Z.eqb_neq in E3.
  cbn. repeat split; done.
Qed.

(** A successful claim has made its token transfer. *)
Lemma claimTokens_Ok_transfer env amount merkleProof s s' :
  claimTokens env amount merkleProof s = Ok s' ->
  exists tk,
    _transfer (self s) (msg_sender env) amount (ledger s) = Ok tk /\
    ledger s' = tk /\ self s' = self s /\
    events s' =
      events s ++ [TokensClaimed (msg_sender env) amount (block_timestamp env)].
Proof.
  destruct (Z.eq_dec (_status s) _ENTERED) as [He|Hne].
  { by rewrite claimTokens_entered. }
  rewrite claimTokens_outcome by done.
  destruct (claimPeriodEnd s <? block_timestamp env); [done|].
  destruct (read_bool _ _); [done|].
  destruct (amount =? 0); [done|].
  destruct (negb _); [done|].
  destruct (uint256_max <? _); [done|].
  destruct (totalClaimable s <? _); [done|].
  destruct (_transfer _ _ _ _) as [tk|]; [|done].
  intros [= <-]. by exists tk.
Qed.

(** A successful claim leaves the configuration alone. *)
Lemma claimTokens_Ok_frame env amount merkleProof s s' :
  claimTokens env amount merkleProof s = Ok s' ->
  merkleRoot s' = merkleRoot s /\ claimPeriodEnd s' = claimPeriodEnd s /\
  totalClaimable s' = totalClaimable s /\ _owner s' = _owner s /\
  self s' = self s /\ token s' = token s.
Proof.
  destruct (Z.eq_dec (_status s) _ENTERED) as [He|Hne].
  { by rewrite claimTokens_entered. }
  rewrite claimTokens_outcome by done.
  destruct (claimPeriodEnd s <? block_timestamp env); [done|].
  destruct (read_bool _ _); [done|].
  destruct (amount =? 0); [done|].
  destruct (negb _); [done|].
  destruct (uint256_max <? _); [done|].
  destruct (totalClaimable s <? _); [done|].
  destruct (_transfer _ _ _ _) as [tk|]; [|done].
  by intros [= <-].
Qed.

Lemma call_Ok_not_entered env c s s' :
  call env c s = Ok s' -> _status s = _NOT_ENTERED -> _status s' = _NOT_ENTERED.
Proof.
  destruct c; cbn [call]; intros H Hst.
  - by apply claimTokens_Ok in H as (_&_&_&_&_&_&_&_&_&?).
  - owner_call H.
  - owner_call H.
  - owner_call H.
  - owner_call H.
  - owner_call H.
Qed.

Lemma deployed_not_entered s : deployed s -> _status s = _NOT_ENTERED.
Proof.
  intros (env&this&tk&tok&r&e&t&_&_&H). unfold constructor in H.
  repeat case_match; simplify_eq; done.
Qed.

Lemma evolves_not_entered allowed s s' :
  evolves allowed s s' -> _status s = _NOT_ENTERED -> _status s' = _NOT_ENTERED.
Proof.
  induction 1 as [|s s' s'' env c _ IH _ _ _ Hc|s s' tk _ IH]; intros Hst.
  - done.
  - eapply call_Ok_not_entered; eauto.
  - cbn. auto.
Qed.

Lemma reachable_not_entered s : reachable s -> _status s = _NOT_ENTERED.
Proof.
  intros (s0&Hd&He). eapply evolves_not_entered; eauto.
  by apply deployed_not_entered.
Qed.

Lemma evolves_trans allowed s1 s2 s3 :
  evolves allowed s1 s2 -> evolves allowed s2 s3 -> evolves allowed s1 s3.
Proof.
  intros H12 H23. induction H23; eauto using evolves.
Qed.

Lemma read_bool_insert_ne (m : gmap Z bool) k k' v :
  k <> k' -> read_bool (<[k := v]> m) k' = read_bool m k'.
Proof. intros. unfold read_bool. by rewrite lookup_insert_ne. Qed.

Lemma read_uint_insert_ne (m : gmap Z Z) k k' v :
  k <> k' -> read_uint (<[k := v]> m) k' = read_uint m k'.
Proof. intros. unfold read_uint. by rewrite lookup_insert_ne. Qed.

(** No call touches the record of an address that has claimed. *)
Lemma call_keeps_record env c s s' a :
  call env c s = Ok s' ->
  read_bool (hasClaimed s) a = true ->
  read_bool (hasClaimed s') a = true /\
  read_uint (claimedAmount s') a = read_uint (claimedAmount s) a.
Proof.
  destruct c; cbn [call]; intros H Ha.
  - apply claimTokens_Ok in H as (_&Hs&_&_&_&_&_&->&->&_).
    assert (msg_sender env <> a) by congruence.
    by rewrite read_bool_insert_ne, read_uint_insert_ne.
  - owner_call H.
  - owner_call H.
  - owner_call H.
  - owner_call H.
  - owner_call H.
Qed.

Lemma evolves_keeps_record allowed s s' a :
  evolves allowed s s' ->
  read_bool (hasClaimed s) a = true ->
  read_bool (hasClaimed s') a = true /\
  read_uint (claimedAmount s') a = read_uint (claimedAmount s) a.
Proof.
  induction 1 as [|s s' s'' env c _ IH _ _ _ Hc|s s' tk _ IH]; intros Ha.
  - done.
  - destruct (IH Ha) as [H1 H2].
    destruct (call_keeps_record _ _ _ _ a Hc H1) as [H3 H4].
    split; [done|congruence].
  - cbn. auto.
Qed.

(** Every call but a cap-lowering [updateAirdrop] keeps the cap invariant. *)
Lemma call_keeps_cap env c s s' :
  call env c s = Ok s' ->
  keeps_cap s c ->
  totalClaimed s <= totalClaimable s ->
  totalClaimed s' <= totalClaimable s'.
Proof.
  destruct c; cbn [call keeps_cap]; intros H Hk Hinv.
  - apply claimTokens_Ok in H as (_&_&_&_&?&->&->&_). done.
  - owner_call H.
  - owner_call H.
  - owner_call H.
  - owner_call H.
  - owner_call H.
Qed.

Lemma deployed_cap s : deployed s -> totalClaimed s <= totalClaimable s.
Proof.
  intros (env&this&tk&tok&r&e&t&_&Ht&H). unfold constructor in H.
  apply andb_true_iff in Ht as [_ Ht]. unfold is_uint256 in Ht.
  apply andb_true_iff in Ht as [Ht _]. apply Z.leb_le in Ht.
  repeat case_match; simplify_eq; done.
Qed.

End Distributor.

(** ** The example round *)

Section RoundFacts.
Import Solidity PayCryptToken PayCryptAirdrop Round.
Local Open Scope Z_scope.

Lemma s_deployed_deployed : deployed s_deployed.
Proof.
  exists (at_time admin 0), airdrop, funded, pcrypt, root_alice_5, 100, 10.
  repeat split; reflexivity.
Qed.

Lemma s_claimed_Ok :
  claimTokens (at_time alice 1) 5 [] s_deployed = Ok s_claimed.
Proof. vm_compute. reflexivity. Qed.

Lemma s_lowered_Ok :
  updateAirdrop (at_time admin 2) root_alice_5 200 3 s_claimed = Ok s_lowered.
Proof. vm_compute. reflexivity. Qed.

Lemma s_huge_Ok :
  updateAirdrop (at_time admin 2) root_bob_max 200 uint256_max s_claimed
  = Ok s_huge.
Proof. vm_compute. reflexivity. Qed.

Lemma s_deployed_reachable : reachable s_deployed.
Proof. exists s_deployed. split; [apply s_deployed_deployed|constructor]. Qed.

Lemma s_claimed_evolves : evolves keeps_cap s_deployed s_claimed.
Proof.
  eapply (evolves_call _ _ _ _ (at_time alice 1) (ClaimTokens 5 []));
    [constructor|reflexivity|reflexivity|exact I|apply s_claimed_Ok].
Qed.

Lemma s_claimed_reachable : reachable s_claimed.
Proof.
  exists s_deployed. split; [apply s_deployed_deployed|].
  eapply (evolves_call _ _ _ _ (at_time alice 1) (ClaimTokens 5 []));
    [constructor|reflexivity|reflexivity|exact I|apply s_claimed_Ok].
Qed.

Lemma reachable_call env c s s' :
  reachable s -> well_typed_env env = true -> well_typed c = true ->
  call env c s = Ok s' -> reachable s'.
Proof.
  intros (s0&Hd&He) ? ? ?. exists s0. split; [done|].
  eapply evolves_call; eauto. exact I.
Qed.

Lemma s_lowered_reachable : reachable s_lowered.
Proof.
  eapply (reachable_call (at_time admin 2) (UpdateAirdrop root_alice_5 200 3));
    [apply s_claimed_reachable|reflexivity|reflexivity|apply s_lowered_Ok].
Qed.

Lemma s_huge_reachable : reachable s_huge.
Proof.
  eapply (reachable_call (at_time admin 2)
            (UpdateAirdrop root_bob_max 200 uint256_max));
    [apply s_claimed_reachable|reflexivity|reflexivity|apply s_huge_Ok].
Qed.

Lemma s_lowered_over_cap : totalClaimable s_lowered < totalClaimed s_lowered.
Proof. vm_compute. reflexivity. Qed.
End RoundFacts.

(** ** The token *)

Section TokenFacts.
Import Solidity PayCryptToken.
Local Open Scope Z_scope.

Lemma sub_Ok a b : b <= a -> sub a b = Ok (a - b).
Proof. intros H. unfold sub. by rewrite (proj2 (Z.leb_le _ _) H). Qed.

Lemma sub_Panic a b : a < b -> sub a b = Revert Panic_arithmetic.
Proof. intros H. unfold sub. by rewrite (proj2 (Z.leb_gt _ _) H). Qed.

(** While an allocation vests, less than the allocation is vested. *)
Lemma partly_vested allocation elapsed :
  0 < allocation -> 0 <= elapsed < VESTING_DURATION ->
  allocation * elapsed / VESTING_DURATION < allocation.
Proof.
  intros Ha He. apply Z.div_lt_upper_bound; [done|].
  rewrite Z.mul_comm. apply Z.mul_lt_mono_pos_r; lia.
Qed.

(** The vested amount both vesting functions compute, and what becomes of
    the subtraction of the schedule entry from it. *)
Lemma releasable_outcome allocation elapsed :
  0 < allocation -> 0 <= elapsed ->
  (vestedAmount ←
     (if VESTING_DURATION <=? elapsed then Ok allocation
      else product ← mul allocation elapsed; Ok (product / VESTING_DURATION));
   releasableAmount ← sub vestedAmount allocation;
   Ok (vestedAmount, releasableAmount))
  = if VESTING_DURATION <=? elapsed then Ok (allocation, 0)
    else Revert Panic_arithmetic.
Proof.
  intros Ha He. destruct (VESTING_DURATION <=? elapsed) eqn:E.
  - cbn. rewrite sub_Ok by lia. cbn. by rewrite Z.sub_diag.
  - apply Z.leb_gt in E. unfold mul.
    destruct (allocation * elapsed <=? uint256_max); [|done].
    cbn. by rewrite sub_Panic by (apply partly_vested; lia).
Qed.

(** *** Sums over a mapping *)

Lemma sum_insert_fresh (m : gmap Z Z) k v :
  m !! k = None ->
  map_fold (fun _ v acc => v + acc) 0 (<[k := v]> m)
  = v + map_fold (fun _ v acc => v + acc) 0 m.
Proof. intros H. apply map_fold_insert_L; [intros; lia|done]. Qed.

(** Writing [v] at [k] changes the sum by the difference to what was read
    there. *)
Lemma sum_insert (m : gmap Z Z) k v :
  map_fold (fun _ v acc => v + acc) 0 (<[k := v]> m)
  = map_fold (fun _ v acc => v + acc) 0 m - read_uint m k + v.
Proof.
  unfold read_uint. destruct (m !! k) as [old|] eqn:E; cbn [default].
  - assert (Hs : map_fold (fun _ v acc => v + acc) 0 m
                 = old + map_fold (fun _ v acc => v + acc) 0 (delete k m)).
    { rewrite <- (insert_delete_id m k old E) at 1.
      apply sum_insert_fresh, lookup_delete_eq. }
    rewrite <- (insert_delete_eq m), sum_insert_fresh by apply lookup_delete_eq.
    unfold id. lia.
  - rewrite sum_insert_fresh by done. lia.
Qed.

Lemma sum_nonneg (m : gmap Z Z) :
  map_Forall (fun _ v => 0 <= v) m ->
  0 <= map_fold (fun _ v acc => v + acc) 0 m.
Proof.
  induction m as [|k v m Hk _ IH] using map_first_key_ind.
  - by rewrite map_fold_empty.
  - intros H. apply map_Forall_insert in H as [Hv H]; [|done].
    rewrite sum_insert_fresh by done. specialize (IH H). lia.
Qed.

(** No balance exceeds the sum of all balances. *)
Lemma read_le_sum (m : gmap Z Z) k :
  map_Forall (fun _ v => 0 <= v) m ->
  0 <= read_uint m k <= map_fold (fun _ v acc => v + acc) 0 m.
Proof.
  intros H. unfold read_uint. destruct (m !! k) as [old|] eqn:E; cbn [default].
  - pose proof (map_Forall_lookup_1 _ _ _ _ H E) as Hold. cbn in Hold.
    rewrite <- (insert_delete_id m k old E) at 1.
    rewrite sum_insert_fresh by apply lookup_delete_eq.
    pose proof (sum_nonneg (delete k m) (map_Forall_delete _ _ _ H)).
    unfold id. lia.
  - split; [done|by apply sum_nonneg].
Qed.

Lemma read_uint_insert (m : gmap Z Z) k v : read_uint (<[k := v]> m) k = v.
Proof. unfold read_uint. by rewrite lookup_insert_eq. Qed.

Lemma nonneg_insert (m : gmap Z Z) k v :
  0 <= v -> map_Forall (fun _ v => 0 <= v) m ->
  map_Forall (fun _ v => 0 <= v) (<[k := v]> m).
Proof. intros. by apply map_Forall_insert_2. Qed.

Lemma unchecked_add_small a b :
  0 <= a + b <= uint256_max -> unchecked_add a b = a + b.
Proof.
  intros H. unfold unchecked_add. apply Z.mod_small.
  unfold uint256_max in H. lia.
Qed.

Lemma unchecked_sub_small a b :
  0 <= a - b <= uint256_max -> unchecked_sub a b = a - b.
Proof.
  intros H. unfold unchecked_sub. apply Z.mod_small.
  unfold uint256_max in H. lia.
Qed.

Lemma TOTAL_SUPPLY_fits : TOTAL_SUPPLY <= uint256_max.
Proof. vm_compute. discriminate. Qed.

(** *** [releaseVestedTokens], as one chain of checks *)

Lemma releaseVestedTokens_outcome env beneficiary tk :
  0 <= read_uint (vestingSchedule tk) beneficiary ->
  releaseVestedTokens env beneficiary tk =
    if _owner tk =? msg_sender env then
      if block_timestamp env <? teamVestingStart tk
      then Revert VestingNotStarted
      else if read_uint (vestingSchedule tk) beneficiary =? 0
      then Revert NoTokensToVest
      else if VESTING_DURATION <=? block_timestamp env - teamVestingStart tk
      then Revert NoTokensToVest
      else Revert Panic_arithmetic
    else Revert Ownable_caller_is_not_the_owner.
Proof.
  intros Hnonneg. unfold releaseVestedTokens, onlyOwner.
  set (allocation := read_uint (vestingSchedule tk) beneficiary) in *.
  set (now := block_timestamp env).
  destruct (_owner tk =? msg_sender env); [|done].
  destruct (now <? teamVestingStart tk) eqn:E1; [done|].
  apply Z.ltb_ge in E1.
  destruct (allocation =? 0) eqn:E2; [done|]. apply Z.eqb_neq in E2.
  rewrite sub_Ok by done. cbn [mbind Result_bind].
  pose proof (releasable_outcome allocation (now - teamVestingStart tk)
                ltac:(lia) ltac:(lia)) as Hout.
  destruct (VESTING_DURATION <=? now - teamVestingStart tk).
  - cbn [mbind Result_bind]. rewrite sub_Ok by lia.
    cbn [mbind Result_bind]. by rewrite Z.sub_diag.
  - unfold mul in *.
    destruct (allocation * (now - teamVestingStart tk) <=? uint256_max);
      [|done].
    cbn [mbind Result_bind] in Hout |- *.
    destruct (sub _ allocation); [done|]. by injection Hout as ->.
Qed.

Lemma releaseVestedTokens_reverts env beneficiary tk :
  0 <= read_uint (vestingSchedule tk) beneficiary ->
  exists e, releaseVestedTokens env beneficiary tk = Revert e.
Proof.
  intros H. rewrite releaseVestedTokens_outcome by done.
  repeat case_match; eauto.
Qed.

(** *** The internal functions and the invariant *)

Lemma _transfer_Ok from to amount tk tk' :
  _transfer from to amount tk = Ok tk' ->
  from <> 0 /\ to <> 0 /\ _paused tk = false /\ amount <= balanceOf tk from /\
  let b1 := <[from := balanceOf tk from - amount]> (_balances tk) in
  tk' = set__balances (<[to := unchecked_add (read_uint b1 to) amount]> b1) tk.
Proof.
  unfold _transfer.
  destruct (from =? 0) eqn:E1; [done|]. apply Z.eqb_neq in E1.
  destruct (to =? 0) eqn:E2; [done|]. apply Z.eqb_neq in E2.
  destruct (_paused tk); [done|].
  destruct (balanceOf tk from <? amount) eqn:E3; [done|].
  apply Z.ltb_ge in E3. by intros [= <-].
Qed.

Lemma _mint_Ok account amount tk tk' :
  _mint account amount tk = Ok tk' ->
  account <> 0 /\ _paused tk = false /\
  _totalSupply tk + amount <= uint256_max /\
  tk' = set__balances
          (<[account := unchecked_add (balanceOf tk account) amount]>
             (_balances tk))
          (set__totalSupply (_totalSupply tk + amount) tk).
Proof.
  unfold _mint.
  destruct (account =? 0) eqn:E1; [done|]. apply Z.eqb_neq in E1.
  destruct (_paused tk); [done|]. unfold add.
  destruct (_totalSupply tk + amount <=? uint256_max) eqn:E2; [|done].
  apply Z.leb_le in E2. cbn. by intros [= <-].
Qed.

Lemma _burn_Ok account amount tk tk' :
  _burn account amount tk = Ok tk' ->
  account <> 0 /\ _paused tk = false /\ amount <= balanceOf tk account /\
  tk' = set__totalSupply (unchecked_sub (_totalSupply tk) amount)
          (set__balances
             (<[account := balanceOf tk account - amount]> (_balances tk)) tk).
Proof.
  unfold _burn.
  destruct (account =? 0) eqn:E1; [done|]. apply Z.eqb_neq in E1.
  destruct (_paused tk); [done|].
  destruct (balanceOf tk account <? amount) eqn:E3; [done|].
  apply Z.ltb_ge in E3. by intros [= <-].
Qed.

Lemma _approve_Ok owner spender amount tk tk' :
  _approve owner spender amount tk = Ok tk' ->
  owner <> 0 /\ spender <> 0 /\
  tk' = set__allowances (<[(owner, spender) := amount]> (_allowances tk)) tk.
Proof.
  unfold _approve.
  destruct (owner =? 0) eqn:E1; [done|]. apply Z.eqb_neq in E1.
  destruct (spender =? 0) eqn:E2; [done|]. apply Z.eqb_neq in E2.
  by intros [= <-].
Qed.

Lemma balance_le_supply L tk account :
  invariant_with L tk -> 0 <= balanceOf tk account <= _totalSupply tk.
Proof.
  intros [Hb Hs _ _ _ _ _]. rewrite <- Hs. by apply read_le_sum.
Qed.

Lemma transfer_invariant L from to amount tk tk' :
  invariant_with L tk -> 0 <= amount ->
  (from = this tk -> amount = 0) ->
  _transfer from to amount tk = Ok tk' ->
  invariant_with L tk' /\ this tk' = this tk.
Proof.
  intros Hinv Hamount Hfrom H.
  apply _transfer_Ok in H as (_ & _ & _ & Hle & ->).
  pose proof Hinv as [Hb Hs Hc Hv Ha Ht Hr].
  pose proof TOTAL_SUPPLY_fits as Hfits.
  set (b1 := <[from := balanceOf tk from - amount]> (_balances tk)).
  assert (Hb1 : map_Forall (fun _ v => 0 <= v) b1)
    by (apply nonneg_insert; [lia|done]).
  assert (Hs1 : map_fold (fun _ v acc => v + acc) 0 b1
                = _totalSupply tk - amount).
  { unfold b1. rewrite sum_insert. fold (balanceOf tk from).
    unfold sum_balances in Hs. lia. }
  pose proof (read_le_sum b1 to Hb1) as Hto.
  assert (Hadd : unchecked_add (read_uint b1 to) amount
                 = read_uint b1 to + amount)
    by (apply unchecked_add_small; lia).
  split; [|done]. split; cbn; try done.
  - apply nonneg_insert; [lia|done].
  - unfold sum_balances. cbn. rewrite sum_insert, Hadd. lia.
  - unfold balanceOf in *. cbn. rewrite Hadd.
    destruct (decide (to = this tk)) as [->|Hne].
    + rewrite read_uint_insert. unfold b1.
      destruct (decide (from = this tk)) as [->|Hne'].
      * rewrite read_uint_insert. lia.
      * rewrite read_uint_insert_ne by done. lia.
    + rewrite read_uint_insert_ne by done. unfold b1.
      destruct (decide (from = this tk)) as [->|Hne'].
      * rewrite read_uint_insert. specialize (Hfrom eq_refl). lia.
      * by rewrite read_uint_insert_ne.
Qed.

Lemma mint_invariant L account amount tk tk' :
  invariant_with L tk -> 0 <= amount ->
  _totalSupply tk + amount <= TOTAL_SUPPLY ->
  _mint account amount tk = Ok tk' ->
  invariant_with (if decide (account = this tk) then L + amount else L) tk' /\
  this tk' = this tk /\ _totalSupply tk' = _totalSupply tk + amount.
Proof.
  intros Hinv Hamount Hcap H.
  apply _mint_Ok in H as (_ & _ & _ & ->).
  pose proof Hinv as [Hb Hs Hc Hv Ha Ht Hr].
  pose proof TOTAL_SUPPLY_fits as Hfits.
  pose proof (balance_le_supply L tk account Hinv) as Hacc.
  assert (Hadd : unchecked_add (balanceOf tk account) amount
                 = balanceOf tk account + amount)
    by (apply unchecked_add_small; lia).
  split; [|done]. split; cbn; try done.
  - apply nonneg_insert; [lia|done].
  - unfold sum_balances in *. cbn. rewrite sum_insert, Hadd.
    fold (balanceOf tk account). lia.
  - unfold balanceOf in *. cbn. rewrite Hadd.
    destruct (decide (account = this tk)) as [->|Hne].
    + rewrite read_uint_insert. lia.
    + by rewrite read_uint_insert_ne.
Qed.

Lemma burn_invariant L account amount tk tk' :
  invariant_with L tk -> 0 <= amount ->
  (account = this tk -> amount = 0) ->
  _burn account amount tk = Ok tk' ->
  invariant_with L tk' /\ this tk' = this tk.
Proof.
  intros Hinv Hamount Hfrom H.
  apply _burn_Ok in H as (_ & _ & Hle & ->).
  pose proof Hinv as [Hb Hs Hc Hv Ha Ht Hr].
  pose proof TOTAL_SUPPLY_fits as Hfits.
  pose proof (balance_le_supply L tk account Hinv) as Hacc.
  assert (Hsub : unchecked_sub (_totalSupply tk) amount
                 = _totalSupply tk - amount)
    by (apply unchecked_sub_small; lia).
  split; [|done]. split; cbn; try done.
  - apply nonneg_insert; [lia|done].
  - unfold sum_balances in *. cbn. rewrite sum_insert, Hsub.
    fold (balanceOf tk account). lia.
  - lia.
  - unfold balanceOf in *. cbn.
    destruct (decide (account = this tk)) as [->|Hne].
    + rewrite read_uint_insert. specialize (Hfrom eq_refl). lia.
    + by rewrite read_uint_insert_ne.
Qed.

Lemma approve_invariant L owner spender amount tk tk' :
  invariant_with L tk ->
  (owner = this tk -> amount = 0) ->
  _approve owner spender amount tk = Ok tk' ->
  invariant_with L tk' /\ this tk' = this tk.
Proof.
  intros Hinv Hown H. apply _approve_Ok in H as (_ & _ & ->).
  destruct Hinv as [Hb Hs Hc Hv Ha Ht Hr].
  split; [|done]. split; cbn; try done.
  intros sp. unfold allowance in *. cbn.
  destruct (decide ((owner, spender) = (this tk, sp))) as [[= -> ->]|Hne].
  - rewrite lookup_insert_eq. cbn. by apply Hown.
  - rewrite lookup_insert_ne by done. apply Ha.
Qed.

(** Nothing can be spent from the token's own account. *)
Lemma spendAllowance_invariant L owner spender amount tk tk' :
  invariant_with L tk -> 0 <= amount ->
  _spendAllowance owner spender amount tk = Ok tk' ->
  invariant_with L tk' /\ this tk' = this tk /\
  (owner = this tk' -> amount = 0).
Proof.
  intros Hinv Hamount. unfold _spendAllowance.
  pose proof (inv_allowance _ _ Hinv spender) as Hzero.
  destruct (allowance tk owner spender =? uint256_max) eqn:E1.
  - intros [= <-]. split; [done|]. split; [done|]. intros ->.
    apply Z.eqb_eq in E1. rewrite Hzero in E1. done.
  - destruct (allowance tk owner spender <? amount) eqn:E2; [done|].
    apply Z.ltb_ge in E2. intros H.
    assert (Hown : owner = this tk -> amount = 0)
      by (intros ->; rewrite Hzero in E2; lia).
    assert (Hown' : owner = this tk ->
                    allowance tk owner spender - amount = 0)
      by (intros ->; rewrite Hzero in *; lia).
    destruct (approve_invariant L _ _ _ _ _ Hinv Hown' H) as [Hinv' Hthis].
    rewrite Hthis. done.
Qed.

Lemma invariant_weaken L L' tk :
  L' <= L -> invariant_with L tk -> invariant_with L' tk.
Proof. intros HL [? ? ? ? ? ? ?]. split; try done. lia. Qed.

Lemma allocation_values :
  TOTAL_SUPPLY = 1000000000000000000000000000 /\
  AIRDROP_ALLOCATION = 50000000000000000000000000 /\
  TEAM_ALLOCATION = 200000000000000000000000000 /\
  TREASURY_ALLOCATION = 300000000000000000000000000 /\
  LIQUIDITY_ALLOCATION = 150000000000000000000000000 /\
  ECOSYSTEM_ALLOCATION = 300000000000000000000000000.
Proof.
  split; [vm_compute; reflexivity|]. split; [vm_compute; reflexivity|].
  split; [vm_compute; reflexivity|]. split; [vm_compute; reflexivity|].
  split; vm_compute; reflexivity.
Qed.

Lemma constructor_invariant env self tk :
  constructor env self = Ok tk -> invariant tk /\ this tk = self.
Proof.
  unfold constructor, invariant.
  destruct allocation_values as (HT & _ & HTe & HTr & HL & HE).
  match goal with
  | |- context [_mint _ TREASURY_ALLOCATION ?t] => set (tk0 := t)
  end.
  assert (H0 : invariant_with 0 tk0).
  { split; [done|reflexivity|change (0 <= TOTAL_SUPPLY); lia|done|done
           |vm_compute; discriminate|done]. }
  assert (S0 : _totalSupply tk0 = 0) by reflexivity.
  assert (T0 : this tk0 = self) by reflexivity.
  clearbody tk0.
  destruct (_mint (msg_sender env) TREASURY_ALLOCATION tk0) as [tk1|] eqn:E1;
    [|done].
  destruct (mint_invariant 0 (msg_sender env) TREASURY_ALLOCATION tk0 tk1 H0
              ltac:(lia) ltac:(lia) E1)
    as (H1 & T1 & S1).
  apply (invariant_weaken _ 0) in H1; [|destruct (decide _); lia].
  cbn [mbind Result_bind].
  destruct (_mint (msg_sender env) LIQUIDITY_ALLOCATION tk1) as [tk2|] eqn:E2;
    [|done].
  destruct (mint_invariant 0 (msg_sender env) LIQUIDITY_ALLOCATION tk1 tk2 H1
              ltac:(lia) ltac:(lia) E2)
    as (H2 & T2 & S2).
  apply (invariant_weaken _ 0) in H2; [|destruct (decide _); lia].
  cbn [mbind Result_bind].
  destruct (_mint (msg_sender env) ECOSYSTEM_ALLOCATION tk2) as [tk3|] eqn:E3;
    [|done].
  destruct (mint_invariant 0 (msg_sender env) ECOSYSTEM_ALLOCATION tk2 tk3 H2
              ltac:(lia) ltac:(lia) E3)
    as (H3 & T3 & S3).
  apply (invariant_weaken _ 0) in H3; [|destruct (decide _); lia].
  cbn [mbind Result_bind]. intros E4.
  destruct (mint_invariant 0 self TEAM_ALLOCATION tk3 tk H3
              ltac:(lia) ltac:(lia) E4)
    as (H4 & T4 & S4).
  split; [|congruence].
  rewrite decide_True in H4 by congruence.
  eapply invariant_weaken; [|exact H4]. lia.
Qed.

Lemma is_uint256_range v : is_uint256 v = true -> 0 <= v <= uint256_max.
Proof.
  unfold is_uint256. intros H. apply andb_true_iff in H as [H1 H2].
  apply Z.leb_le in H1, H2. done.
Qed.

Lemma schedule_nonneg L tk beneficiary :
  invariant_with L tk -> 0 <= read_uint (vestingSchedule tk) beneficiary.
Proof.
  intros Hinv. unfold read_uint.
  destruct (vestingSchedule tk !! beneficiary) as [v|] eqn:E; [|done].
  exact (map_Forall_lookup_1 _ _ _ _ (inv_schedule _ _ Hinv) E).
Qed.

(** Every entry point keeps the invariant, for every sender but the token
    itself. *)
Lemma call_invariant env c tk tk' :
  invariant tk -> well_typed c = true ->
  msg_sender env <> this tk -> call env c tk = Ok tk' ->
  invariant tk' /\ this tk' = this tk.
Proof.
  intros Hinv Hty Hsender H. unfold invariant in *.
  assert (Hnot : forall v : Z, msg_sender env = this tk -> v = 0)
    by (intros v Heq; by destruct Hsender).
  destruct c; cbn [call well_typed] in H, Hty;
    repeat (apply andb_true_iff in Hty as [Hty ?]);
    repeat match goal with
           | Hv : is_uint256 _ = true |- _ => apply is_uint256_range in Hv
           end.
  - apply (transfer_invariant _ (msg_sender env) to amount tk tk');
      [done|lia|apply Hnot|done].
  - apply (approve_invariant _ (msg_sender env) spender amount tk tk');
      [done|apply Hnot|done].
  - unfold transferFrom in H.
    destruct (_spendAllowance from (msg_sender env) amount tk) as [tk1|] eqn:E;
      [|done].
    cbn [mbind Result_bind] in H.
    destruct (spendAllowance_invariant _ from (msg_sender env) amount tk tk1
                Hinv ltac:(lia) E) as (Hinv1 & Hthis1 & Hfrom).
    destruct (transfer_invariant _ from to amount tk1 tk' Hinv1 ltac:(lia)
                Hfrom H) as [Hinv2 Hthis2].
    split; [done|congruence].
  - unfold increaseAllowance, add in H. case_match; [|done].
    cbn [mbind Result_bind] in H.
    eapply (approve_invariant _ (msg_sender env)); [done|apply Hnot|exact H].
  - unfold decreaseAllowance in H. case_match; [done|].
    eapply (approve_invariant _ (msg_sender env)); [done|apply Hnot|exact H].
  - apply (burn_invariant _ (msg_sender env) amount tk tk');
      [done|lia|apply Hnot|done].
  - unfold burnFrom in H.
    destruct (_spendAllowance account (msg_sender env) amount tk)
      as [tk1|] eqn:E; [|done].
    cbn [mbind Result_bind] in H.
    destruct (spendAllowance_invariant _ account (msg_sender env) amount tk tk1
                Hinv ltac:(lia) E) as (Hinv1 & Hthis1 & Hfrom).
    destruct (burn_invariant _ account amount tk1 tk' Hinv1 ltac:(lia)
                Hfrom H) as [Hinv2 Hthis2].
    split; [done|congruence].
  - unfold mintForAirdrop, onlyMinter, add, totalSupply in H.
    case_match; [done|]. case_match; [|done]. cbn [mbind Result_bind] in H.
    destruct (TOTAL_SUPPLY <? _totalSupply tk + amount) eqn:E; [done|].
    apply Z.ltb_ge in E.
    destruct (mint_invariant _ to amount tk tk' Hinv ltac:(lia) E H)
      as (Hinv1 & Hthis1 & _).
    split; [|done]. eapply invariant_weaken; [|exact Hinv1].
    destruct (decide _); lia.
  - destruct (releaseVestedTokens_reverts env beneficiary tk
                (schedule_nonneg _ _ _ Hinv)) as [e He].
    congruence.
  - unfold addVestingSchedule, onlyOwner in H. case_match; [|done].
    injection H as <-. destruct Hinv. split; [|done].
    split; try done. cbn. apply nonneg_insert; [lia|done].
  - unfold addMinter, onlyOwner in H. case_match; [|done].
    injection H as <-. destruct Hinv. split; [|done]. split; done.
  - unfold removeMinter, onlyOwner in H. case_match; [|done].
    injection H as <-. destruct Hinv. split; [|done]. split; done.
  - unfold pause, onlyOwner in H. repeat case_match; try done.
    injection H as <-. destruct Hinv. split; [|done]. split; done.
  - unfold unpause, onlyOwner in H. repeat case_match; try done.
    injection H as <-. destruct Hinv. split; [|done]. split; done.
  - unfold transferOwnership, onlyOwner in H. repeat case_match; try done.
    injection H as <-. destruct Hinv. split; [|done]. split; done.
  - unfold renounceOwnership, onlyOwner in H. case_match; [|done].
    injection H as <-. destruct Hinv. split; [|done]. split; done.
Qed.

Lemma evolves_invariant tk tk' :
  evolves tk tk' -> invariant tk -> invariant tk' /\ this tk' = this tk.
Proof.
  induction 1 as [|tk tk' tk'' env c _ IH _ Hty Hsender Hc]; intros Hinv;
    [done|].
  destruct (IH Hinv) as [Hinv' Hthis'].
  destruct (call_invariant _ _ _ _ Hinv' Hty Hsender Hc) as [Hinv'' Hthis''].
  split; [done|congruence].
Qed.

Lemma reachable_invariant tk : reachable tk -> invariant tk.
Proof.
  intros (tk0 & (env & self & _ & _ & Hc) & He).
  apply (evolves_invariant tk0 tk He).
  by destruct (constructor_invariant _ _ _ Hc).
Qed.

(** What the constructor leaves behind. *)
Lemma constructor_Ok env self tk :
  constructor env self = Ok tk -> msg_sender env <> self ->
  this tk = self /\ _owner tk = msg_sender env /\ _paused tk = false /\
  teamVestingStart tk = block_timestamp env /\
  _totalSupply tk = TOTAL_SUPPLY - AIRDROP_ALLOCATION /\
  balanceOf tk self = TEAM_ALLOCATION /\
  balanceOf tk (msg_sender env)
    = TREASURY_ALLOCATION + LIQUIDITY_ALLOCATION + ECOSYSTEM_ALLOCATION.
Proof.
  unfold constructor. intros H Hne.
  destruct (_mint _ TREASURY_ALLOCATION _) as [tk1|] eqn:E1; [|done].
  cbn [mbind Result_bind] in H.
  destruct (_mint _ LIQUIDITY_ALLOCATION _) as [tk2|] eqn:E2; [|done].
  cbn [mbind Result_bind] in H.
  destruct (_mint _ ECOSYSTEM_ALLOCATION _) as [tk3|] eqn:E3; [|done].
  cbn [mbind Result_bind] in H.
  apply _mint_Ok in E1 as (_ & _ & _ & ->).
  apply _mint_Ok in E2 as (_ & _ & _ & ->).
  apply _mint_Ok in E3 as (_ & _ & _ & ->).
  apply _mint_Ok in H as (_ & _ & _ & ->).
  assert (Hne' : self <> msg_sender env) by congruence.
  unfold balanceOf. cbn.
  repeat first [ rewrite read_uint_insert
               | rewrite read_uint_insert_ne by assumption ].
  split; [reflexivity|]. split; [reflexivity|]. split; [reflexivity|].
  split; [reflexivity|]. split; [vm_compute; reflexivity|].
  split; vm_compute; reflexivity.
Qed.

End TokenFacts.

(** ** The offline builder: claims C1, C2 and C3 *)

Section BuilderClaims.
Import AirdropMerkleTree Round.

Lemma users_tree_new : new users = Some users_tree.
Proof. vm_compute. reflexivity. Qed.

(** C1.  The leaf the offline builder computes for an address text and an
    amount text, whenever it computes one, is byte for byte the leaf
    [claimTokens] recomputes as [keccak256(abi.encodePacked(msg.sender,
    amount))] when [msg.sender] is the account the text denotes and [amount]
    is [parseEther] of the amount text; that account and that amount are
    values of [address] and [uint256]. *)
Theorem createLeaf_is_the_leaf_of_claimTokens address amount leaf :
  createLeaf address amount = Some leaf ->
  exists amountWei,
    Ethers.parseEther amount = Some amountWei /\
    Solidity.is_address (Frontend.accountOf address) = true /\
    Solidity.is_uint256 amountWei = true /\
    leaf = PayCryptAirdrop.leafOf (Frontend.accountOf address) amountWei.
Proof.
  intros H. apply createLeaf_Some in H as (amountWei & packed & Hp & Hs & ->).
  apply solidityPacked_encodePacked in Hs as (Ha & Hv & ->).
  exists amountWei. done.
Qed.

Lemma createLeaf_is_the_leaf_of_claimTokens_witness :
  createLeaf (address alice_entry) (amount alice_entry)
    = Some (PayCryptAirdrop.leafOf alice 5).
Proof.
  destruct (createLeaf (address alice_entry) (amount alice_entry))
    as [leaf|] eqn:E; [|vm_compute in E; discriminate].
  destruct (createLeaf_is_the_leaf_of_claimTokens _ _ _ E)
    as (amountWei & Hp & _ & _ & ->).
  vm_compute in Hp. injection Hp as <-. reflexivity.
Defined.

(** C2.  For every list of eligible users the builder accepts and every
    user of the list, [getProof] for the user's address and amount returns a
    proof that [verifyProof] accepts against the root of the tree. *)
Theorem listed_pair_proof_verifies users a user :
  users <> [] ->
  new users = Some a ->
  user ∈ users ->
  exists proof,
    getProof a (address user) (amount user) = Some proof /\
    verifyProof a (address user) (amount user) proof = Some true.
Proof.
  intros _ Ha Hin.
  destruct (new_Some _ _ Ha) as (lvs & Hm & Ht).
  destruct (listed_leaf _ _ _ Hm Hin) as (leaf & Hl & Hlin).
  exists (MerkleTree.getHexProof (tree a) leaf).
  unfold getProof, verifyProof, getMerkleRoot. rewrite Hl, Ht.
  cbn [mbind option_bind]. split; [done|].
  by rewrite getHexProof_verify.
Qed.

Lemma listed_pair_proof_verifies_witness :
  exists proof,
    getProof users_tree (address erin) (amount erin) = Some proof /\
    verifyProof users_tree (address erin) (amount erin) proof = Some true.
Proof.
  apply (listed_pair_proof_verifies users users_tree erin).
  - discriminate.
  - exact users_tree_new.
  - unfold users. apply elem_of_cons. right. apply elem_of_cons. right.
    apply elem_of_cons. left. reflexivity.
Defined.

(** C3, as amended.  The root does not change when the two entries of a
    sibling pair (positions 0 and 1, 2 and 3, ...) are exchanged in the
    list: if the builder accepts a list, it accepts every list that differs
    from it only inside such pairs, and the two roots are equal. *)
Theorem root_invariant_under_sibling_swaps users users' a :
  MerkleTree.sibling_swapped users users' ->
  new users = Some a ->
  exists a', new users' = Some a' /\ getMerkleRoot a' = getMerkleRoot a.
Proof.
  intros Hs Ha. destruct (new_Some _ _ Ha) as (lvs & Hm & Ht).
  destruct (mapM_sibling_swapped _ _ _ _ Hs Hm) as (lvs' & Hm' & Hs').
  unfold new, generateMerkleTree. rewrite Hm'. cbn.
  eexists. split; [done|].
  unfold getMerkleRoot, MerkleTree.getHexRoot. cbn [tree]. rewrite Ht.
  by rewrite (getRoot_sibling_swapped _ _ Hs').
Qed.

Lemma root_invariant_under_sibling_swaps_witness :
  exists a',
    new users_first_two_swapped = Some a' /\
    getMerkleRoot a' = getMerkleRoot users_tree.
Proof.
  apply (root_invariant_under_sibling_swaps users users_first_two_swapped).
  - unfold users, users_first_two_swapped.
    apply MerkleTree.swapped_swap, MerkleTree.swapped_odd.
  - exact users_tree_new.
Defined.

(** C3 as stated fails: two lists with the same three entries, the last two
    exchanged, give different roots. *)
Lemma root_depends_on_order_counterexample :
  users_last_two_swapped ≡ₚ users /\
  is_Some (new users) /\
  is_Some (new users_last_two_swapped) /\
  getMerkleRoot <$> new users_last_two_swapped <> getMerkleRoot <$> new users.
Proof.
  split; [apply perm_skip, perm_swap|].
  split; [rewrite users_tree_new; eauto|].
  split; [vm_compute; eauto|].
  vm_compute. discriminate.
Qed.

End BuilderClaims.

(** ** The distributor: claims C4, C5, C6, C7, C9 and C10 *)

Section DistributorClaims.
Import Solidity PayCryptToken PayCryptAirdrop Round.
Local Open Scope Z_scope.

(** C4, as amended.  Outside a re-entrant call, [claimTokens] runs its
    checks in a fixed order and reverts with the error of the first check
    that fails: [ClaimPeriodEnded] when the window has elapsed; otherwise
    [AlreadyClaimed] when the caller has claimed; otherwise [InvalidAmount]
    when the amount is zero; otherwise [InvalidProof] when the proof does not
    recompute the stored root; otherwise, when [totalClaimed + amount]
    exceeds [totalClaimable], [InsufficientTokens] if the sum fits
    [uint256] and the arithmetic panic if it does not.  Whatever the error,
    the state after the call is the state before it. *)
Theorem claimTokens_rejections env amount merkleProof s :
  _status s = _NOT_ENTERED ->
  let r := claimTokens env amount merkleProof s in
  let now := block_timestamp env in
  let claimed := read_bool (hasClaimed s) (msg_sender env) in
  let proven :=
    MerkleProof.verify merkleProof (merkleRoot s)
      (leafOf (msg_sender env) amount) in
  (claimPeriodEnd s < now -> r = Revert ClaimPeriodEnded) /\
  (now <= claimPeriodEnd s -> claimed = true -> r = Revert AlreadyClaimed) /\
  (now <= claimPeriodEnd s -> claimed = false -> amount = 0 ->
     r = Revert InvalidAmount) /\
  (now <= claimPeriodEnd s -> claimed = false -> amount <> 0 ->
     proven = false -> r = Revert InvalidProof) /\
  (now <= claimPeriodEnd s -> claimed = false -> amount <> 0 ->
     proven = true -> totalClaimed s + amount <= uint256_max ->
     totalClaimable s < totalClaimed s + amount ->
     r = Revert InsufficientTokens) /\
  (now <= claimPeriodEnd s -> claimed = false -> amount <> 0 ->
     proven = true -> uint256_max < totalClaimed s + amount ->
     r = Revert Panic_arithmetic) /\
  (forall e, r = Revert e -> state_after r s = s).
Proof.
  intros Hst r now claimed proven.
  assert (Hr : r = claimTokens env amount merkleProof s) by reflexivity.
  rewrite claimTokens_outcome in Hr by (rewrite Hst; done).
  fold now claimed proven in Hr.
  repeat split.
  - intros H. apply Z.ltb_lt in H. by rewrite H in Hr.
  - intros H1 H2. apply Z.ltb_ge in H1. by rewrite H1, H2 in Hr.
  - intros H1 H2 H3. apply Z.ltb_ge in H1. apply Z.eqb_eq in H3.
    by rewrite H1, H2, H3 in Hr.
  - intros H1 H2 H3 H4. apply Z.ltb_ge in H1. apply Z.eqb_neq in H3.
    by rewrite H1, H2, H3, H4 in Hr.
  - intros H1 H2 H3 H4 H5 H6. apply Z.ltb_ge in H1, H5.
    apply Z.eqb_neq in H3. apply Z.ltb_lt in H6.
    by rewrite H1, H2, H3, H4, H5, H6 in Hr.
  - intros H1 H2 H3 H4 H5. apply Z.ltb_ge in H1.
    apply Z.eqb_neq in H3. apply Z.ltb_lt in H5.
    by rewrite H1, H2, H3, H4, H5 in Hr.
  - intros e ->. reflexivity.
Qed.

Lemma claimTokens_rejections_witness :
  _status s_claimed = _NOT_ENTERED /\
  block_timestamp (at_time alice 7) <= claimPeriodEnd s_claimed /\
  read_bool (hasClaimed s_claimed) (msg_sender (at_time alice 7)) = true /\
  claimTokens (at_time alice 7) 5 [] s_claimed = Revert AlreadyClaimed.
Proof.
  assert (H1 : _status s_claimed = _NOT_ENTERED) by (vm_compute; reflexivity).
  assert (H2 : block_timestamp (at_time alice 7) <= claimPeriodEnd s_claimed)
    by (vm_compute; discriminate).
  assert (H3 : read_bool (hasClaimed s_claimed) (msg_sender (at_time alice 7))
               = true) by (vm_compute; reflexivity).
  exact (conj H1 (conj H2 (conj H3
    (proj1 (proj2 (claimTokens_rejections (at_time alice 7) 5 [] s_claimed H1))
       H2 H3)))).
Defined.

(** C4 as stated fails: with the window elapsed and a zero amount the error
    is the window's and not [InvalidAmount]; and a claim whose amount takes
    [totalClaimed + amount] past both the cap and [uint256] reverts with the
    arithmetic panic and not with [InsufficientTokens]. *)
Lemma claimTokens_named_error_counterexample :
  _status s_huge = _NOT_ENTERED /\
  (* window elapsed and amount zero: the window's error, not the amount's *)
  claimPeriodEnd s_huge < block_timestamp (at_time bob 201) /\
  claimTokens (at_time bob 201) 0 [] s_huge = Revert ClaimPeriodEnded /\
  claimTokens (at_time bob 201) 0 [] s_huge <> Revert InvalidAmount /\
  (* the sum is above the cap and above uint256: a panic, no named error *)
  totalClaimable s_huge < totalClaimed s_huge + uint256_max /\
  claimTokens (at_time bob 3) uint256_max [] s_huge = Revert Panic_arithmetic /\
  claimTokens (at_time bob 3) uint256_max [] s_huge <> Revert InsufficientTokens.
Proof.
  assert (H1 : claimTokens (at_time bob 201) 0 [] s_huge
               = Revert ClaimPeriodEnded) by (vm_compute; reflexivity).
  assert (H2 : claimTokens (at_time bob 3) uint256_max [] s_huge
               = Revert Panic_arithmetic) by (vm_compute; reflexivity).
  rewrite H1, H2.
  split; [vm_compute; reflexivity|]. split; [vm_compute; reflexivity|].
  split; [reflexivity|]. split; [discriminate|].
  split; [vm_compute; reflexivity|]. split; [reflexivity|discriminate].
Qed.

(** C5, as amended.  Once [hasClaimed[a]] is true in a reachable state, it
    stays true and [claimedAmount[a]] keeps its value through every sequence
    of calls, [updateAirdrop] included, and every later [claimTokens] call
    from [a] reverts: with [ClaimPeriodEnded] when the window has elapsed,
    with [AlreadyClaimed] otherwise. *)
Theorem claim_record_is_final s a :
  reachable s ->
  read_bool (hasClaimed s) a = true ->
  forall s', evolves any_call s s' ->
    read_bool (hasClaimed s') a = true /\
    read_uint (claimedAmount s') a = read_uint (claimedAmount s) a /\
    forall env amount merkleProof,
      msg_sender env = a ->
      claimTokens env amount merkleProof s' =
        Revert (if claimPeriodEnd s' <? block_timestamp env
                then ClaimPeriodEnded else AlreadyClaimed).
Proof.
  intros Hr Ha s' He.
  destruct (evolves_keeps_record _ _ _ a He Ha) as [H1 H2].
  repeat split; try done.
  intros env amount merkleProof <-.
  rewrite claimTokens_outcome.
  - destruct (claimPeriodEnd s' <? block_timestamp env); [done|].
    by rewrite H1.
  - rewrite (evolves_not_entered _ _ _ He (reachable_not_entered _ Hr)). done.
Qed.

Lemma claim_record_is_final_witness :
  read_bool (hasClaimed s_lowered) alice = true /\
  read_uint (claimedAmount s_lowered) alice = 5 /\
  claimTokens (at_time alice 7) 5 [] s_lowered = Revert AlreadyClaimed.
Proof.
  assert (Ha : read_bool (hasClaimed s_claimed) alice = true)
    by (vm_compute; reflexivity).
  assert (He : evolves any_call s_claimed s_lowered).
  { eapply (evolves_call _ _ _ _ (at_time admin 2)
              (UpdateAirdrop root_alice_5 200 3));
      [constructor|reflexivity|reflexivity|exact I|apply s_lowered_Ok]. }
  destruct (claim_record_is_final s_claimed alice s_claimed_reachable Ha
              s_lowered He) as (H1 & H2 & H3).
  split; [exact H1|]. split.
  - rewrite H2. vm_compute. reflexivity.
  - exact (H3 (at_time alice 7) 5 [] eq_refl).
Defined.

(** C5 as stated fails: after the window, a further claim by an address
    that has claimed reverts with [ClaimPeriodEnded], not
    [AlreadyClaimed]. *)
Lemma already_claimed_after_window_counterexample :
  reachable s_claimed /\
  read_bool (hasClaimed s_claimed) alice = true /\
  claimTokens (at_time alice 101) 5 [] s_claimed = Revert ClaimPeriodEnded /\
  claimTokens (at_time alice 101) 5 [] s_claimed <> Revert AlreadyClaimed.
Proof.
  assert (H : claimTokens (at_time alice 101) 5 [] s_claimed
              = Revert ClaimPeriodEnded) by (vm_compute; reflexivity).
  rewrite H. split; [apply s_claimed_reachable|].
  split; [vm_compute; reflexivity|]. split; [reflexivity|discriminate].
Qed.

(** C6, as amended.  [totalClaimed <= totalClaimable] holds in every state
    reached from a constructor state by calls none of which is an
    [updateAirdrop] with a [_totalClaimable] below the current
    [totalClaimed]; and a [claimTokens] call whose amount would take
    [totalClaimed] past [totalClaimable] reverts and leaves the state
    unchanged, with [InsufficientTokens] when every earlier check passes and
    the sum fits [uint256]. *)
Theorem cap_invariant_without_lowering :
  (forall s0 s, deployed s0 -> evolves keeps_cap s0 s ->
     totalClaimed s <= totalClaimable s) /\
  (forall env amount merkleProof s,
     totalClaimable s < totalClaimed s + amount ->
     let r := claimTokens env amount merkleProof s in
     (exists e, r = Revert e) /\ state_after r s = s /\
     (_status s = _NOT_ENTERED ->
      block_timestamp env <= claimPeriodEnd s ->
      read_bool (hasClaimed s) (msg_sender env) = false ->
      amount <> 0 ->
      MerkleProof.verify merkleProof (merkleRoot s)
        (leafOf (msg_sender env) amount) = true ->
      totalClaimed s + amount <= uint256_max ->
      r = Revert InsufficientTokens)).
Proof.
  split.
  - intros s0 s Hd He.
    induction He as [|s s' s'' env c _ IH _ _ Hk Hc|s s' tk _ IH].
    + by apply deployed_cap.
    + eapply call_keeps_cap; eauto.
    + cbn. auto.
  - intros env amount merkleProof s Hover r.
    assert (Hrev : exists e, r = Revert e).
    { destruct r as [s'|e] eqn:E; [|by eexists].
      apply claimTokens_Ok in E as (_&_&_&_&?&_). lia. }
    split; [done|]. split; [by destruct Hrev as [e ->]|].
    intros Hst H1 H2 H3 H4 H5.
    by apply (claimTokens_rejections env amount merkleProof s Hst).
Qed.

Lemma cap_invariant_without_lowering_witness :
  totalClaimed s_claimed <= totalClaimable s_claimed /\
  claimTokens (at_time bob 3) 6 [] s_claimed <> Ok s_claimed.
Proof.
  split.
  - exact (proj1 cap_invariant_without_lowering s_deployed s_claimed
             s_deployed_deployed s_claimed_evolves).
  - assert (Hover : totalClaimable s_claimed < totalClaimed s_claimed + 6)
      by (vm_compute; reflexivity).
    destruct (proj1 (proj2 cap_invariant_without_lowering (at_time bob 3) 6 []
                       s_claimed Hover)) as [e He].
    rewrite He. discriminate.
Defined.

(** C6 as stated fails: after a claim of 5 the owner sets the cap to 3, and
    the state reached has [totalClaimed > totalClaimable]. *)
Lemma cap_invariant_counterexample :
  reachable s_lowered /\ totalClaimable s_lowered < totalClaimed s_lowered.
Proof. split; [apply s_lowered_reachable|apply s_lowered_over_cap]. Qed.

(** C7.  When [block.timestamp > claimPeriodEnd], [claimTokens] reverts for
    every caller, amount and proof, the state is unchanged, and outside a
    re-entrant call the error is [ClaimPeriodEnded]. *)
Theorem no_claim_after_window env amount merkleProof s :
  claimPeriodEnd s < block_timestamp env ->
  (exists e, claimTokens env amount merkleProof s = Revert e) /\
  (_status s <> _ENTERED ->
   claimTokens env amount merkleProof s = Revert ClaimPeriodEnded) /\
  state_after (claimTokens env amount merkleProof s) s = s.
Proof.
  intros Hlate.
  assert (Hne : _status s <> _ENTERED ->
                claimTokens env amount merkleProof s = Revert ClaimPeriodEnded).
  { intros Hst. rewrite claimTokens_outcome by done.
    apply Z.ltb_lt in Hlate. by rewrite Hlate. }
  destruct (Z.eq_dec (_status s) _ENTERED) as [He|Hn].
  - rewrite claimTokens_entered by done.
    split; [eauto|]. split; [intros Hn; by destruct Hn|reflexivity].
  - rewrite Hne by done.
    split; [eauto|]. split; [done|reflexivity].
Qed.

Lemma no_claim_after_window_witness :
  claimPeriodEnd s_deployed < block_timestamp (at_time alice 101) /\
  MerkleProof.verify [] (merkleRoot s_deployed) (leafOf alice 5) = true /\
  claimTokens (at_time alice 101) 5 [] s_deployed = Revert ClaimPeriodEnded.
Proof.
  assert (H : claimPeriodEnd s_deployed < block_timestamp (at_time alice 101))
    by (vm_compute; reflexivity).
  split; [exact H|]. split.
  - vm_compute. reflexivity.
  - apply (proj1 (proj2 (no_claim_after_window (at_time alice 101) 5 []
                           s_deployed H))).
    vm_compute. discriminate.
Defined.

(** C9.  Outside a re-entrant call and provided the token transfer of
    [amount] from the contract to [user] does not fail, [canClaim(user,
    amount, proof)] returns true if and only if [claimTokens(amount, proof)]
    sent by [user] at the same time succeeds. *)
Theorem canClaim_iff_claimTokens_succeeds env user amount merkleProof s :
  _status s = _NOT_ENTERED ->
  (exists tk, _transfer (self s) user amount (ledger s) = Ok tk) ->
  canClaim env user amount merkleProof s = Ok true <->
  exists s',
    claimTokens {| msg_sender := user; block_timestamp := block_timestamp env |}
      amount merkleProof s = Ok s'.
Proof.
  intros Hst [tk Htk].
  rewrite claimTokens_outcome by (rewrite Hst; done).
  unfold canClaim, add. cbn [msg_sender block_timestamp].
  destruct (claimPeriodEnd s <? block_timestamp env).
  { split; [done|by intros [? ?]]. }
  destruct (read_bool (hasClaimed s) user).
  { split; [done|by intros [? ?]]. }
  destruct (amount =? 0).
  { split; [done|by intros [? ?]]. }
  destruct (uint256_max <? totalClaimed s + amount) eqn:Eo.
  - apply Z.ltb_lt in Eo. rewrite (proj2 (Z.leb_gt _ _) Eo).
    cbn [mbind Result_bind].
    destruct (negb _); split; try done; by intros [? ?].
  - apply Z.ltb_ge in Eo. rewrite (proj2 (Z.leb_le _ _) Eo).
    cbn [mbind Result_bind].
    destruct (totalClaimable s <? totalClaimed s + amount).
    { destruct (negb _); split; try done; by intros [? ?]. }
    rewrite Htk.
    destruct (MerkleProof.verify _ _ _); cbn [negb].
    + split; [eauto|done].
    + split; [done|by intros [? ?]].
Qed.

Lemma canClaim_iff_claimTokens_succeeds_witness :
  canClaim (at_time bob 1) alice 5 [] s_deployed = Ok true /\
  claimTokens (at_time alice 1) 5 [] s_deployed = Ok s_claimed.
Proof.
  assert (H1 : _status s_deployed = _NOT_ENTERED) by reflexivity.
  assert (H2 : exists tk,
             _transfer (self s_deployed) alice 5 (ledger s_deployed) = Ok tk)
    by (eexists; vm_compute; reflexivity).
  split.
  - apply (proj2 (canClaim_iff_claimTokens_succeeds (at_time bob 1) alice 5 []
                    s_deployed H1 H2)).
    exists s_claimed. vm_compute. reflexivity.
  - apply s_claimed_Ok.
Defined.

(** C10.  [getAirdropStats] returns [_remainingTokens = totalClaimable -
    totalClaimed] whenever [totalClaimed <= totalClaimable], and reverts with
    the arithmetic panic whenever [totalClaimed > totalClaimable]; every
    successful [updateAirdrop] with a [_totalClaimable] below the current
    [totalClaimed] leads from a reachable state to such a state, and such a
    state is reachable. *)
Theorem getAirdropStats_needs_cap_invariant :
  (forall env s,
     totalClaimed s <= totalClaimable s ->
     0 <= totalClaimable s - totalClaimed s /\
     getAirdropStats env s =
       Ok (totalClaimable s, totalClaimed s,
           totalClaimable s - totalClaimed s, claimPeriodEnd s,
           block_timestamp env <=? claimPeriodEnd s)) /\
  (forall env s,
     totalClaimable s < totalClaimed s ->
     getAirdropStats env s = Revert Panic_arithmetic) /\
  (forall env _merkleRoot _claimPeriodEnd _totalClaimable s s',
     reachable s ->
     well_typed_env env = true ->
     well_typed (UpdateAirdrop _merkleRoot _claimPeriodEnd _totalClaimable)
       = true ->
     _totalClaimable < totalClaimed s ->
     updateAirdrop env _merkleRoot _claimPeriodEnd _totalClaimable s = Ok s' ->
     reachable s' /\ totalClaimable s' < totalClaimed s') /\
  (exists s, reachable s /\ totalClaimable s < totalClaimed s).
Proof.
  split; [|split; [|split]].
  - intros env s Hcap. split; [lia|].
    unfold getAirdropStats, sub.
    by rewrite (proj2 (Z.leb_le _ _) Hcap).
  - intros env s Hover. unfold getAirdropStats, sub.
    by rewrite (proj2 (Z.leb_gt _ _) Hover).
  - intros env r e t s s' Hreach Henv Hty Hlow Hupd. split.
    + by eapply (reachable_call env (UpdateAirdrop r e t)).
    + unfold updateAirdrop, onlyOwner in Hupd.
      repeat case_match; simplify_eq; cbn; done.
  - exists s_lowered.
    split; [apply s_lowered_reachable|apply s_lowered_over_cap].
Qed.

Lemma getAirdropStats_needs_cap_invariant_witness :
  getAirdropStats (at_time bob 3) s_claimed = Ok (10, 5, 5, 100, true) /\
  getAirdropStats (at_time bob 3) s_lowered = Revert Panic_arithmetic.
Proof.
  split.
  - assert (Hcap : totalClaimed s_claimed <= totalClaimable s_claimed)
      by (vm_compute; discriminate).
    exact (proj2 (proj1 getAirdropStats_needs_cap_invariant
                    (at_time bob 3) s_claimed Hcap)).
  - exact (proj1 (proj2 getAirdropStats_needs_cap_invariant)
             (at_time bob 3) s_lowered s_lowered_over_cap).
Defined.

End DistributorClaims.

(** ** Further properties of the token *)

Section TokenProperties.
Import Solidity PayCryptToken.
Import Round (admin, alice, bob, pcrypt, at_time, tk_deployed, tk_vesting).
Local Open Scope Z_scope.

(** [releaseVestedTokens] never succeeds.  It subtracts the beneficiary's
    whole schedule entry from the vested amount, which is at most that
    entry: a caller who is not the owner is refused; before the start the
    error is [VestingNotStarted]; a beneficiary without an entry, or one
    whose entry is fully vested, gets [NoTokensToVest]; and during the
    vesting period the subtraction (or the multiplication before it)
    panics. *)
Theorem releaseVestedTokens_never_succeeds env beneficiary tk :
  0 <= read_uint (vestingSchedule tk) beneficiary ->
  let r := releaseVestedTokens env beneficiary tk in
  let allocation := read_uint (vestingSchedule tk) beneficiary in
  let now := block_timestamp env in
  (exists e, r = Revert e) /\
  (_owner tk <> msg_sender env -> r = Revert Ownable_caller_is_not_the_owner) /\
  (_owner tk = msg_sender env -> now < teamVestingStart tk ->
     r = Revert VestingNotStarted) /\
  (_owner tk = msg_sender env -> teamVestingStart tk <= now ->
     allocation = 0 \/ VESTING_DURATION <= now - teamVestingStart tk ->
     r = Revert NoTokensToVest) /\
  (_owner tk = msg_sender env -> teamVestingStart tk <= now ->
     allocation <> 0 -> now - teamVestingStart tk < VESTING_DURATION ->
     r = Revert Panic_arithmetic).
Proof.
  intros Hnonneg r allocation now.
  assert (Hr : r =
    if _owner tk =? msg_sender env then
      if now <? teamVestingStart tk then Revert VestingNotStarted
      else if allocation =? 0 then Revert NoTokensToVest
      else if VESTING_DURATION <=? now - teamVestingStart tk
      then Revert NoTokensToVest
      else Revert Panic_arithmetic
    else Revert Ownable_caller_is_not_the_owner).
  { unfold r, releaseVestedTokens, onlyOwner. fold allocation now.
    destruct (_owner tk =? msg_sender env); [|done].
    destruct (now <? teamVestingStart tk) eqn:E1; [done|].
    apply Z.ltb_ge in E1.
    destruct (allocation =? 0) eqn:E2; [done|]. apply Z.eqb_neq in E2.
    rewrite sub_Ok by done. cbn [mbind Result_bind].
    pose proof (releasable_outcome allocation (now - teamVestingStart tk)
                  ltac:(lia) ltac:(lia)) as Hout.
    destruct (VESTING_DURATION <=? now - teamVestingStart tk).
    - cbn [mbind Result_bind]. rewrite sub_Ok by lia.
      cbn [mbind Result_bind]. by rewrite Z.sub_diag.
    - unfold mul in *.
      destruct (allocation * (now - teamVestingStart tk) <=? uint256_max);
        [|done].
      cbn [mbind Result_bind] in Hout |- *.
      destruct (sub _ allocation); [done|]. by injection Hout as ->. }
  split; [|split; [|split; [|split]]].
  - rewrite Hr. repeat case_match; eauto.
  - intros H. apply Z.eqb_neq in H. by rewrite Hr, H.
  - intros H1 H2. apply Z.eqb_eq in H1. apply Z.ltb_lt in H2.
    by rewrite Hr, H1, H2.
  - intros H1 H2 H3. apply Z.eqb_eq in H1. apply Z.ltb_ge in H2.
    rewrite Hr, H1, H2. destruct (allocation =? 0) eqn:E; [done|].
    apply Z.eqb_neq in E. destruct H3 as [H3|H3]; [done|].
    by rewrite (proj2 (Z.leb_le _ _) H3).
  - intros H1 H2 H3 H4. apply Z.eqb_eq in H1. apply Z.ltb_ge in H2.
    apply Z.eqb_neq in H3. apply Z.leb_gt in H4.
    by rewrite Hr, H1, H2, H3, H4.
Qed.

Lemma releaseVestedTokens_never_succeeds_witness :
  releaseVestedTokens (at_time admin 1000) bob tk_vesting
    = Revert Panic_arithmetic /\
  releaseVestedTokens (at_time admin (VESTING_DURATION + 5)) bob tk_vesting
    = Revert NoTokensToVest.
Proof.
  assert (H0 : 0 <= read_uint (vestingSchedule tk_vesting) bob)
    by (vm_compute; discriminate).
  split.
  - apply (releaseVestedTokens_never_succeeds (at_time admin 1000) bob
             tk_vesting H0);
      [reflexivity|vm_compute; discriminate|vm_compute; discriminate
      |vm_compute; reflexivity].
  - apply (releaseVestedTokens_never_succeeds
             (at_time admin (VESTING_DURATION + 5)) bob tk_vesting H0);
      [reflexivity|vm_compute; discriminate|].
    right. vm_compute. discriminate.
Defined.

(** [getVestedAmount] never reports a releasable amount: it returns
    [(0, 0)] for a beneficiary without an entry or before the start, and
    [(allocation, 0)] once the entry is fully vested; during the vesting
    period of a beneficiary with an entry it reverts with the arithmetic
    panic. *)
Theorem getVestedAmount_outcome env beneficiary tk :
  0 <= read_uint (vestingSchedule tk) beneficiary ->
  let allocation := read_uint (vestingSchedule tk) beneficiary in
  let now := block_timestamp env in
  getVestedAmount env beneficiary tk =
    if (allocation =? 0) || (now <? teamVestingStart tk) then Ok (0, 0)
    else if VESTING_DURATION <=? now - teamVestingStart tk
    then Ok (allocation, 0)
    else Revert Panic_arithmetic.
Proof.
  intros Hnonneg allocation now. unfold getVestedAmount. fold allocation now.
  destruct (allocation =? 0) eqn:E1; [done|]. apply Z.eqb_neq in E1.
  destruct (now <? teamVestingStart tk) eqn:E2; [done|]. apply Z.ltb_ge in E2.
  cbn [orb]. rewrite sub_Ok by done. cbn [mbind Result_bind].
  apply releasable_outcome; lia.
Qed.

Lemma getVestedAmount_outcome_witness :
  getVestedAmount (at_time alice 1000) bob tk_vesting
    = Revert Panic_arithmetic /\
  getVestedAmount (at_time alice (VESTING_DURATION + 5)) bob tk_vesting
    = Ok (1000, 0).
Proof.
  assert (H0 : 0 <= read_uint (vestingSchedule tk_vesting) bob)
    by (vm_compute; discriminate).
  split.
  - exact (getVestedAmount_outcome (at_time alice 1000) bob tk_vesting H0).
  - exact (getVestedAmount_outcome (at_time alice (VESTING_DURATION + 5)) bob
             tk_vesting H0).
Defined.

Lemma tk_deployed_Ok : constructor (at_time admin 0) pcrypt = Ok tk_deployed.
Proof. vm_compute. reflexivity. Qed.

Lemma tk_vesting_Ok :
  addVestingSchedule (at_time admin 1) bob 1000 tk_deployed = Ok tk_vesting.
Proof. vm_compute. reflexivity. Qed.

Lemma tk_vesting_reachable : reachable tk_vesting.
Proof.
  exists tk_deployed. split.
  - exists (at_time admin 0), pcrypt.
    split; [reflexivity|]. split; [reflexivity|apply tk_deployed_Ok].
  - eapply (evolves_call _ _ _ (at_time admin 1) (AddVestingSchedule bob 1000));
      [constructor|reflexivity|reflexivity|vm_compute; discriminate
      |apply tk_vesting_Ok].
Qed.

(** In every reachable state of the token the balances add up to
    [totalSupply], which is at most [TOTAL_SUPPLY], so that
    [getSupplyStats] does not revert: it returns the supply outside the
    token's own account, that account's balance, and what is missing to
    [TOTAL_SUPPLY]. *)
Theorem getSupplyStats_never_reverts tk :
  reachable tk ->
  sum_balances tk = totalSupply tk /\
  totalSupply tk <= TOTAL_SUPPLY /\
  getSupplyStats tk =
    Ok (totalSupply tk - balanceOf tk (this tk), balanceOf tk (this tk),
        TOTAL_SUPPLY - totalSupply tk).
Proof.
  intros Hreach. pose proof (reachable_invariant tk Hreach) as Hinv.
  pose proof (balance_le_supply _ tk (this tk) Hinv) as Hlocked.
  destruct Hinv as [_ Hsum Hcap _ _ _ _].
  split; [done|]. split; [done|].
  unfold getSupplyStats, totalSupply.
  rewrite (sub_Ok (_totalSupply tk)), (sub_Ok TOTAL_SUPPLY) by lia.
  reflexivity.
Qed.

Lemma getSupplyStats_never_reverts_witness :
  getSupplyStats tk_vesting
  = Ok (TREASURY_ALLOCATION + LIQUIDITY_ALLOCATION + ECOSYSTEM_ALLOCATION,
        TEAM_ALLOCATION, AIRDROP_ALLOCATION).
Proof.
  destruct (getSupplyStats_never_reverts tk_vesting tk_vesting_reachable)
    as (_ & _ & ->).
  vm_compute. reflexivity.
Defined.

(** The team allocation never leaves the token's own account: in every
    reachable state that account holds at least [TEAM_ALLOCATION],
    [teamTokensReleased] is zero, and [releaseVestedTokens] reverts for
    every caller, beneficiary and time. *)
Theorem team_allocation_is_locked tk :
  reachable tk ->
  TEAM_ALLOCATION <= balanceOf tk (this tk) /\
  teamTokensReleased tk = 0 /\
  forall env beneficiary,
    exists e, releaseVestedTokens env beneficiary tk = Revert e.
Proof.
  intros Hreach. pose proof (reachable_invariant tk Hreach) as Hinv.
  split; [apply Hinv|]. split; [apply Hinv|].
  intros env beneficiary. apply releaseVestedTokens_reverts.
  by eapply schedule_nonneg.
Qed.

Lemma team_allocation_is_locked_witness :
  TEAM_ALLOCATION <= balanceOf tk_vesting (this tk_vesting) /\
  exists e,
    releaseVestedTokens (at_time admin (VESTING_DURATION + 5)) bob tk_vesting
    = Revert e.
Proof.
  destruct (team_allocation_is_locked tk_vesting tk_vesting_reachable)
    as (H1 & _ & H3).
  split; [exact H1|apply H3].
Defined.

(** Right after deployment by anyone but the token itself, [getSupplyStats]
    reports the three allocations minted to the deployer as circulating, the
    team allocation as locked, and the airdrop allocation, which has not
    been minted, as burned. *)
Theorem getSupplyStats_after_deployment env self tk :
  constructor env self = Ok tk ->
  msg_sender env <> self ->
  getSupplyStats tk
  = Ok (TREASURY_ALLOCATION + LIQUIDITY_ALLOCATION + ECOSYSTEM_ALLOCATION,
        TEAM_ALLOCATION, AIRDROP_ALLOCATION).
Proof.
  intros H Hne.
  destruct (constructor_Ok _ _ _ H Hne) as (Hthis & _ & _ & _ & Hs & Hb & _).
  unfold getSupplyStats, totalSupply. rewrite Hthis, Hs, Hb.
  vm_compute. reflexivity.
Qed.

Lemma getSupplyStats_after_deployment_witness :
  getSupplyStats tk_deployed
  = Ok (TREASURY_ALLOCATION + LIQUIDITY_ALLOCATION + ECOSYSTEM_ALLOCATION,
        TEAM_ALLOCATION, AIRDROP_ALLOCATION).
Proof.
  apply (getSupplyStats_after_deployment (at_time admin 0) pcrypt).
  - apply tk_deployed_Ok.
  - vm_compute. discriminate.
Defined.

(** [mintForAirdrop] runs its checks in order: a caller who is neither a
    minter nor the owner gets [NotMinter]; then, if [totalSupply + amount]
    does not fit [uint256] the call panics, and if it fits but exceeds
    [TOTAL_SUPPLY] the error is [ExceedsAllocation]; then minting to the zero
    address is refused, and so is minting while the token is paused.  A call
    that succeeds adds [amount] to [totalSupply], which stays within
    [TOTAL_SUPPLY], and to the balance of [to], and to no other balance. *)
Theorem mintForAirdrop_outcome env to amount tk :
  let r := mintForAirdrop env to amount tk in
  let authorised :=
    read_bool (minters tk) (msg_sender env) || (msg_sender env =? _owner tk) in
  let sum := totalSupply tk + amount in
  (authorised = false -> r = Revert NotMinter) /\
  (authorised = true -> uint256_max < sum -> r = Revert Panic_arithmetic) /\
  (authorised = true -> sum <= uint256_max -> TOTAL_SUPPLY < sum ->
     r = Revert ExceedsAllocation) /\
  (authorised = true -> sum <= TOTAL_SUPPLY -> to = 0 ->
     r = Revert ERC20_mint_to_the_zero_address) /\
  (authorised = true -> sum <= TOTAL_SUPPLY -> to <> 0 -> _paused tk = true ->
     r = Revert Pausable_paused) /\
  (forall tk', r = Ok tk' ->
     totalSupply tk' = sum /\ sum <= TOTAL_SUPPLY /\
     balanceOf tk' to = unchecked_add (balanceOf tk to) amount /\
     forall account, account <> to -> balanceOf tk' account = balanceOf tk account).
Proof.
  intros r authorised sum.
  pose proof TOTAL_SUPPLY_fits as Hfits.
  assert (Hr : r =
    if authorised then
      if uint256_max <? sum then Revert Panic_arithmetic
      else if TOTAL_SUPPLY <? sum then Revert ExceedsAllocation
      else _mint to amount tk
    else Revert NotMinter).
  { unfold r, mintForAirdrop, onlyMinter, authorised, add. fold sum.
    destruct (read_bool _ _), (_ =? _); cbn [negb andb orb]; try done;
      destruct (uint256_max <? sum) eqn:E;
      try (apply Z.ltb_lt in E; by rewrite (proj2 (Z.leb_gt _ _) E));
      apply Z.ltb_ge in E; by rewrite (proj2 (Z.leb_le _ _) E). }
  split; [|split; [|split; [|split; [|split]]]].
  - intros H. by rewrite Hr, H.
  - intros H1 H2. apply Z.ltb_lt in H2. by rewrite Hr, H1, H2.
  - intros H1 H2 H3. apply Z.ltb_ge in H2. apply Z.ltb_lt in H3.
    by rewrite Hr, H1, H2, H3.
  - intros H1 H2 H3.
    rewrite Hr, H1, (proj2 (Z.ltb_ge _ _)), (proj2 (Z.ltb_ge _ _)) by lia.
    unfold _mint. by rewrite (proj2 (Z.eqb_eq _ _) H3).
  - intros H1 H2 H3 H4.
    rewrite Hr, H1, (proj2 (Z.ltb_ge _ _)), (proj2 (Z.ltb_ge _ _)) by lia.
    unfold _mint. by rewrite (proj2 (Z.eqb_neq _ _) H3), H4.
  - intros tk'. rewrite Hr. destruct authorised; [|done].
    destruct (uint256_max <? sum); [done|].
    destruct (TOTAL_SUPPLY <? sum) eqn:E; [done|]. apply Z.ltb_ge in E.
    intros H. apply _mint_Ok in H as (_ & _ & _ & ->).
    unfold balanceOf, totalSupply. cbn. rewrite read_uint_insert.
    repeat split; try done.
    intros account Hne. by rewrite read_uint_insert_ne.
Qed.

Lemma mintForAirdrop_outcome_witness :
  mintForAirdrop (at_time admin 2) alice uint256_max tk_deployed
    = Revert Panic_arithmetic /\
  mintForAirdrop (at_time admin 2) alice (AIRDROP_ALLOCATION + 1) tk_deployed
    = Revert ExceedsAllocation /\
  mintForAirdrop (at_time bob 2) alice 1 tk_deployed = Revert NotMinter.
Proof.
  split; [|split].
  - apply (mintForAirdrop_outcome (at_time admin 2) alice uint256_max
             tk_deployed); vm_compute; reflexivity.
  - apply (mintForAirdrop_outcome (at_time admin 2) alice
             (AIRDROP_ALLOCATION + 1) tk_deployed);
      vm_compute; (reflexivity || discriminate).
  - apply (mintForAirdrop_outcome (at_time bob 2) alice 1 tk_deployed).
    vm_compute. reflexivity.
Defined.

End TokenProperties.

(** ** Further properties of the distributor *)

Section DistributorProperties.
Import Solidity PayCryptToken PayCryptAirdrop Round.
Local Open Scope Z_scope.

Ltac owner_call H :=
  unfold updateAirdrop, emergencyWithdraw, extendClaimPeriod,
    transferOwnership, renounceOwnership, onlyOwner, safeTransfer in H;
  unfold mbind, Result_bind in H;
  repeat case_match; simplify_eq; cbn in *; try done.

(** A successful claim moves exactly [amount] tokens from the contract to
    the claimer, when the claimer is not the contract and the claimer's
    balance does not wrap around: no other balance changes, [totalClaimed]
    grows by [amount], the claimer's record holds [amount], and one
    [TokensClaimed] event is appended to the log. *)
Theorem claimTokens_moves_tokens env amount merkleProof s s' :
  claimTokens env amount merkleProof s = Ok s' ->
  msg_sender env <> self s ->
  0 <= balanceOf (ledger s) (msg_sender env) + amount <= uint256_max ->
  balanceOf (ledger s') (self s) = balanceOf (ledger s) (self s) - amount /\
  balanceOf (ledger s') (msg_sender env)
    = balanceOf (ledger s) (msg_sender env) + amount /\
  (forall account,
     account <> self s -> account <> msg_sender env ->
     balanceOf (ledger s') account = balanceOf (ledger s) account) /\
  totalClaimed s' = totalClaimed s + amount /\
  read_bool (hasClaimed s') (msg_sender env) = true /\
  read_uint (claimedAmount s') (msg_sender env) = amount /\
  events s' =
    events s ++ [TokensClaimed (msg_sender env) amount (block_timestamp env)].
Proof.
  intros H Hne Hfit.
  destruct (Z.eq_dec (_status s) _ENTERED) as [He|Hst].
  { by rewrite claimTokens_entered in H. }
  rewrite claimTokens_outcome in H by done.
  repeat (case_match; [done|]).
  destruct (_transfer _ _ _ _) as [tk|] eqn:Et; [|done].
  injection H as <-.
  apply _transfer_Ok in Et as (_ & _ & _ & _ & ->).
  assert (Hne' : self s <> msg_sender env) by congruence.
  unfold balanceOf in *. cbn.
  repeat first [ rewrite read_uint_insert
               | rewrite read_uint_insert_ne by assumption ].
  rewrite unchecked_add_small by done.
  split; [done|]. split; [done|]. split.
  { intros account Ha1 Ha2. by rewrite !read_uint_insert_ne by congruence. }
  split; [done|]. split; [|done].
  unfold read_bool. by rewrite lookup_insert_eq.
Qed.

Lemma claimTokens_moves_tokens_witness :
  balanceOf (ledger s_claimed) airdrop = 5 /\
  balanceOf (ledger s_claimed) alice = 5 /\
  totalClaimed s_claimed = 5.
Proof.
  assert (Hne : msg_sender (at_time alice 1) <> self s_deployed)
    by (vm_compute; discriminate).
  assert (Hfit : 0 <= balanceOf (ledger s_deployed)
                        (msg_sender (at_time alice 1)) + 5 <= uint256_max)
    by (split; vm_compute; discriminate).
  destruct (claimTokens_moves_tokens (at_time alice 1) 5 [] s_deployed
              s_claimed s_claimed_Ok Hne Hfit) as (H1 & H2 & _ & H4 & _).
  split; [exact H1|]. split; [exact H2|exact H4].
Defined.

(** While the token is paused no claim succeeds: [claimTokens] reverts and
    the state is unchanged, and when every check of the distributor passes,
    so that [canClaim] answers true, the error is the token's
    [Pausable: paused]. *)
Theorem paused_token_blocks_claims env amount merkleProof s :
  _paused (ledger s) = true ->
  (exists e, claimTokens env amount merkleProof s = Revert e) /\
  state_after (claimTokens env amount merkleProof s) s = s /\
  (_status s = _NOT_ENTERED -> self s <> 0 -> msg_sender env <> 0 ->
   canClaim env (msg_sender env) amount merkleProof s = Ok true ->
   claimTokens env amount merkleProof s = Revert Pausable_paused).
Proof.
  intros Hpaused.
  assert (Hrev : exists e, claimTokens env amount merkleProof s = Revert e).
  { destruct (claimTokens env amount merkleProof s) as [s'|e] eqn:E;
      [exfalso|by exists e].
    apply claimTokens_Ok_transfer in E as (tk & Ht & _).
    apply _transfer_Ok in Ht as (_ & _ & Hnot & _). congruence. }
  split; [done|]. split; [by destruct Hrev as [e ->]|].
  intros Hst Hself Hsender Hcan.
  rewrite claimTokens_outcome by (rewrite Hst; done).
  unfold canClaim, add in Hcan.
  destruct (claimPeriodEnd s <? block_timestamp env); [done|].
  destruct (read_bool _ _); [done|].
  destruct (amount =? 0); [done|].
  destruct (totalClaimed s + amount <=? uint256_max) eqn:E1; [|done].
  apply Z.leb_le in E1. cbn [mbind Result_bind] in Hcan.
  destruct (totalClaimable s <? totalClaimed s + amount); [done|].
  injection Hcan as ->. cbn [negb].
  rewrite (proj2 (Z.ltb_ge _ _) E1).
  unfold _transfer.
  by rewrite (proj2 (Z.eqb_neq _ _) Hself), (proj2 (Z.eqb_neq _ _) Hsender),
    Hpaused.
Qed.

Lemma paused_token_blocks_claims_witness :
  canClaim (at_time alice 1) alice 5 [] (set_ledger (set__paused true funded)
                                           s_deployed) = Ok true /\
  claimTokens (at_time alice 1) 5 [] (set_ledger (set__paused true funded)
                                        s_deployed) = Revert Pausable_paused.
Proof.
  assert (Hcan : canClaim (at_time alice 1) alice 5 []
                   (set_ledger (set__paused true funded) s_deployed) = Ok true)
    by (vm_compute; reflexivity).
  split; [exact Hcan|].
  apply (paused_token_blocks_claims (at_time alice 1) 5 []
           (set_ledger (set__paused true funded) s_deployed));
    [reflexivity|reflexivity|vm_compute; discriminate|vm_compute; discriminate
    |exact Hcan].
Defined.

(** [extendClaimPeriod] can only move the end of the window forward, and
    changes nothing else; so along any sequence of calls none of which is
    [updateAirdrop] the end of the window never moves back. *)
Theorem claim_period_only_grows :
  (forall env newEndTime s s',
     extendClaimPeriod env newEndTime s = Ok s' ->
     msg_sender env = _owner s /\ claimPeriodEnd s < newEndTime /\
     s' = set_claimPeriodEnd newEndTime s) /\
  (forall s s',
     evolves without_update s s' -> claimPeriodEnd s <= claimPeriodEnd s').
Proof.
  assert (Hext : forall env newEndTime s s',
             extendClaimPeriod env newEndTime s = Ok s' ->
             msg_sender env = _owner s /\ claimPeriodEnd s < newEndTime /\
             s' = set_claimPeriodEnd newEndTime s).
  { intros env newEndTime s s' H.
    unfold extendClaimPeriod, onlyOwner in H.
    destruct (_owner s =? msg_sender env) eqn:E1; [|done].
    apply Z.eqb_eq in E1.
    destruct (newEndTime <=? claimPeriodEnd s) eqn:E2; [done|].
    apply Z.leb_gt in E2. injection H as <-. done. }
  split; [exact Hext|].
  intros s s' H.
  induction H as [|s s' s'' env c _ IH _ _ Hc H|s s' tk _ IH]; [lia| |done].
  enough (claimPeriodEnd s' <= claimPeriodEnd s'') by lia.
  destruct c; cbn [call without_update] in H, Hc; [|done| | | |].
  - destruct (Z.eq_dec (_status s') _ENTERED) as [He|Hst].
    { by rewrite claimTokens_entered in H. }
    rewrite claimTokens_outcome in H by done.
    repeat (case_match; [done|]). case_match; [|done].
    injection H as <-. cbn. lia.
  - owner_call H; lia.
  - destruct (Hext _ _ _ _ H) as (_ & Hlt & ->). cbn. lia.
  - owner_call H; lia.
  - owner_call H; lia.
Qed.

Lemma claim_period_only_grows_witness :
  claimPeriodEnd s_deployed <= claimPeriodEnd s_claimed.
Proof.
  apply (proj2 claim_period_only_grows s_deployed s_claimed).
  eapply (evolves_call _ _ _ _ (at_time alice 1) (ClaimTokens 5 []));
    [constructor|reflexivity|reflexivity|exact I|apply s_claimed_Ok].
Defined.

(** A successful [emergencyWithdraw] is made by the owner after the window
    and leaves the contract with no tokens: its whole balance has gone to
    the owner (when the owner is not the contract and the owner's balance
    does not wrap around), the configuration and the claim records are
    untouched, and calling it again changes nothing. *)
Theorem emergencyWithdraw_sweeps env s s' :
  emergencyWithdraw env s = Ok s' ->
  _owner s <> self s ->
  0 <= balanceOf (ledger s) (self s) ->
  0 <= balanceOf (ledger s) (_owner s) + balanceOf (ledger s) (self s)
    <= uint256_max ->
  msg_sender env = _owner s /\
  claimPeriodEnd s < block_timestamp env /\
  balanceOf (ledger s') (self s) = 0 /\
  balanceOf (ledger s') (_owner s)
    = balanceOf (ledger s) (_owner s) + balanceOf (ledger s) (self s) /\
  (merkleRoot s', claimPeriodEnd s', totalClaimable s', totalClaimed s',
   hasClaimed s', claimedAmount s')
  = (merkleRoot s, claimPeriodEnd s, totalClaimable s, totalClaimed s,
     hasClaimed s, claimedAmount s) /\
  emergencyWithdraw env s' = Ok s'.
Proof.
  intros H Hne Hself Hfit.
  unfold emergencyWithdraw, onlyOwner in H.
  destruct (_owner s =? msg_sender env) eqn:E1; [|done].
  apply Z.eqb_eq in E1.
  destruct (block_timestamp env <=? claimPeriodEnd s) eqn:E2; [done|].
  apply Z.leb_gt in E2.
  split; [done|]. split; [done|].
  destruct (0 <? balanceOf (ledger s) (self s)) eqn:E3.
  - unfold safeTransfer in H.
    destruct (_transfer _ _ _ _) as [tk|] eqn:Et; [|done].
    cbn [mbind Result_bind] in H. injection H as <-.
    apply _transfer_Ok in Et as (_ & _ & _ & _ & ->).
    assert (Hne' : self s <> _owner s) by congruence.
    unfold emergencyWithdraw, onlyOwner, balanceOf in *. cbn.
    repeat first [ rewrite read_uint_insert
                 | rewrite read_uint_insert_ne by assumption ].
    rewrite unchecked_add_small by done.
    rewrite Z.sub_diag, (proj2 (Z.eqb_eq _ _) E1), (proj2 (Z.leb_gt _ _) E2).
    done.
  - injection H as <-. apply Z.ltb_ge in E3.
    assert (H0 : balanceOf (ledger s) (self s) = 0) by lia.
    unfold emergencyWithdraw, onlyOwner.
    rewrite H0, (proj2 (Z.eqb_eq _ _) E1), (proj2 (Z.leb_gt _ _) E2).
    repeat split; try done. lia.
Qed.

Lemma emergencyWithdraw_sweeps_witness :
  exists s',
    emergencyWithdraw (at_time admin 101) s_claimed = Ok s' /\
    balanceOf (ledger s') airdrop = 0 /\ balanceOf (ledger s') admin = 5.
Proof.
  destruct (emergencyWithdraw (at_time admin 101) s_claimed) as [s'|] eqn:E;
    [|vm_compute in E; discriminate].
  exists s'. split; [reflexivity|].
  destruct (emergencyWithdraw_sweeps (at_time admin 101) s_claimed s' E)
    as (_ & _ & H1 & H2 & _).
  - vm_compute. discriminate.
  - vm_compute. discriminate.
  - split; vm_compute; discriminate.
  - split; [exact H1|].
    etransitivity; [exact H2|]. vm_compute. reflexivity.
Defined.

(** At no time can both a claim and the emergency withdrawal succeed in the
    same state: a claim needs [block.timestamp <= claimPeriodEnd], the
    withdrawal [block.timestamp > claimPeriodEnd]. *)
Theorem claim_and_withdrawal_exclude_each_other
    env env' amount merkleProof s s1 s2 :
  block_timestamp env = block_timestamp env' ->
  claimTokens env amount merkleProof s = Ok s1 ->
  emergencyWithdraw env' s = Ok s2 ->
  False.
Proof.
  intros Htime Hclaim Hwithdraw.
  apply claimTokens_Ok in Hclaim as (Hopen & _).
  unfold emergencyWithdraw, onlyOwner in Hwithdraw.
  destruct (_owner s =? msg_sender env'); [|done].
  destruct (block_timestamp env' <=? claimPeriodEnd s) eqn:E; [done|].
  apply Z.leb_gt in E. lia.
Qed.

Lemma claim_and_withdrawal_exclude_each_other_witness :
  exists e, emergencyWithdraw (at_time admin 1) s_deployed = Revert e.
Proof.
  destruct (emergencyWithdraw (at_time admin 1) s_deployed) as [s2|e] eqn:E;
    [|by exists e].
  destruct (claim_and_withdrawal_exclude_each_other (at_time alice 1)
              (at_time admin 1) 5 [] s_deployed s_claimed s2 eq_refl
              s_claimed_Ok E).
Defined.

(** Only the owner changes the configuration: a successful call from anyone
    else is a claim, and it leaves the root, the end of the window, the cap
    and the owner as they were. *)
Theorem configuration_changes_need_the_owner env c s s' :
  call env c s = Ok s' ->
  msg_sender env <> _owner s ->
  (exists amount merkleProof, c = ClaimTokens amount merkleProof) /\
  merkleRoot s' = merkleRoot s /\
  claimPeriodEnd s' = claimPeriodEnd s /\
  totalClaimable s' = totalClaimable s /\
  _owner s' = _owner s.
Proof.
  intros H Hne.
  assert (Hno : forall body, onlyOwner env body s = Ok s' -> False).
  { intros body. unfold onlyOwner.
    destruct (_owner s =? msg_sender env) eqn:E; [|done].
    apply Z.eqb_eq in E. congruence. }
  destruct c; cbn [call] in H; try (by destruct (Hno _ H)).
  split; [eauto|].
  by apply claimTokens_Ok_frame in H as (? & ? & ? & ? & _).
Qed.

Lemma configuration_changes_need_the_owner_witness :
  merkleRoot s_claimed = merkleRoot s_deployed /\
  totalClaimable s_claimed = totalClaimable s_deployed /\
  updateAirdrop (at_time alice 2) root_bob_max 200 0 s_claimed
    <> Ok s_lowered.
Proof.
  assert (Hne : msg_sender (at_time alice 1) <> _owner s_deployed)
    by (vm_compute; discriminate).
  destruct (configuration_changes_need_the_owner (at_time alice 1)
              (ClaimTokens 5 []) s_deployed s_claimed s_claimed_Ok Hne)
    as (_ & H1 & _ & H3 & _).
  split; [exact H1|]. split; [exact H3|].
  intros H.
  assert (Hne' : msg_sender (at_time alice 2) <> _owner s_claimed)
    by (vm_compute; discriminate).
  destruct (configuration_changes_need_the_owner (at_time alice 2)
              (UpdateAirdrop root_bob_max 200 0) s_claimed s_lowered H Hne')
    as ((amount & merkleProof & Hc) & _).
  discriminate Hc.
Defined.

(** What [getClaimStatus] reports around a successful claim: afterwards the
    claimer is reported as having claimed [amount] and unable to claim, at
    any time; before, as not having claimed and able to; and the report for
    every other user is the same before and after. *)
Theorem getClaimStatus_after_claim env env' amount merkleProof s s' :
  claimTokens env amount merkleProof s = Ok s' ->
  getClaimStatus env' (msg_sender env) s' = Ok (true, amount, false) /\
  getClaimStatus env (msg_sender env) s
    = Ok (false, read_uint (claimedAmount s) (msg_sender env), true) /\
  (forall user,
     user <> msg_sender env ->
     getClaimStatus env' user s' = getClaimStatus env' user s).
Proof.
  intros H. pose proof (claimTokens_Ok _ _ _ _ _ H)
    as (Hopen & Hnot & _ & _ & _ & _ & _ & Hc & Ha & _).
  pose proof (claimTokens_Ok_frame _ _ _ _ _ H) as (_ & Hend & _).
  unfold getClaimStatus. rewrite Hc, Ha, Hend, Hnot.
  split; [|split].
  - unfold read_bool, read_uint. by rewrite !lookup_insert_eq.
  - by rewrite (proj2 (Z.leb_le _ _) Hopen).
  - intros user Hne.
    by rewrite read_bool_insert_ne, read_uint_insert_ne by congruence.
Qed.

Lemma getClaimStatus_after_claim_witness :
  getClaimStatus (at_time bob 500) alice s_claimed = Ok (true, 5, false).
Proof.
  exact (proj1 (getClaimStatus_after_claim (at_time alice 1) (at_time bob 500)
                  5 [] s_deployed s_claimed s_claimed_Ok)).
Defined.

(** In every reachable state [totalClaimed] is the sum of the recorded
    claimed amounts, and an address that has not claimed has no recorded
    amount. *)
Theorem totalClaimed_is_the_sum_of_claims s :
  reachable s ->
  sum_claimedAmount s = totalClaimed s /\
  forall account,
    read_bool (hasClaimed s) account = false ->
    read_uint (claimedAmount s) account = 0.
Proof.
  intros (s0 & Hd & He).
  induction He as [|s0 s s' env c _ IH _ _ _ H|s0 s tk _ IH].
  - destruct Hd as (env & this & tk & tok & r & e & t & _ & _ & H).
    unfold constructor in H. repeat case_match; simplify_eq. done.
  - destruct (IH Hd) as [Hsum Hzero].
    destruct c; cbn [call] in H;
      [|owner_call H; by split..].
    apply claimTokens_Ok in H
      as (_ & Hnot & _ & _ & _ & Ht & _ & Hc & Ha & _).
    unfold sum_claimedAmount in *. rewrite Ht, Hc, Ha. split.
    + rewrite sum_insert, (Hzero _ Hnot). lia.
    + intros account Hacc.
      destruct (Z.eq_dec (msg_sender env) account) as [<-|Hne].
      * unfold read_bool in Hacc. by rewrite lookup_insert_eq in Hacc.
      * rewrite read_bool_insert_ne in Hacc by done.
        rewrite read_uint_insert_ne by done. by apply Hzero.
  - by apply IH.
Qed.

Lemma totalClaimed_is_the_sum_of_claims_witness :
  sum_claimedAmount s_lowered = 5.
Proof.
  rewrite (proj1 (totalClaimed_is_the_sum_of_claims s_lowered
                    s_lowered_reachable)).
  vm_compute. reflexivity.
Defined.

End DistributorProperties.

(** ** Further properties of the builder, and the builder against the
    distributor *)

Section BuilderProperties.
Import AirdropMerkleTree.
Import Round (users, users_tree, carol, dave, erin, alice_entry, at_time,
              alice, bob, s_with_root).

Lemma getBytes_hexlify bs :
  Ethers.getBytes (list_byte_of_string (Hex.hexlify bs)) = bs.
Proof.
  unfold Ethers.getBytes. rewrite bytes_of_hexlify.
  cbn [Hex.prefix_0x app Hex.strip_0x]. apply decode_encode.
Qed.

Lemma merkleProofOf_hexlify (items : list (MerkleTree.position * list byte)) :
  Frontend.merkleProofOf (map (fun item => Hex.hexlify (snd item)) items)
  = map snd items.
Proof.
  unfold Frontend.merkleProofOf. rewrite map_map.
  apply map_ext. intros item. apply getBytes_hexlify.
Qed.

(** Offline and on chain a proof is folded the same way. *)
Lemma fold_verifyStep items x :
  fold_left MerkleTree.verifyStep
    (map (fun item : MerkleTree.position * list byte => Hex.hexlify (snd item))
       items) x
  = MerkleProof.processProof (map snd items) x.
Proof.
  unfold MerkleProof.processProof. revert x.
  induction items as [|item items IH]; intros x; [done|].
  cbn [map fold_left]. by rewrite verifyStep_hexlify, IH.
Qed.

Lemma getProof_processProof lvs leaf :
  leaf ∈ lvs ->
  MerkleProof.processProof
    (map snd (MerkleTree.getProof (MerkleTree.new lvs) leaf)) leaf
  = MerkleTree.getRoot (MerkleTree.new lvs).
Proof.
  intros Hin. unfold MerkleTree.getProof, MerkleTree.getRoot.
  cbn [MerkleTree.new MerkleTree.leaves MerkleTree.layers].
  destruct (leafIndex_elem leaf lvs 0 None Hin) as [j Hj]. rewrite Hj.
  apply leafIndex_lookup in Hj as [?|(k & -> & Hk)]; [done|].
  unfold MerkleTree.createHashes.
  rewrite (proofFrom_reaches_top (length lvs) lvs (0 + k) leaf Hk) by done.
  by rewrite fold_verifyStep.
Qed.

(** The proof the builder writes for a listed user, sent to the contract
    by the claim page, is accepted by [MerkleProof.verify] against the root
    the builder reports, for the leaf [claimTokens] computes from the user's
    account and [parseEther] of the amount; so [canClaim] answers true for
    it in every state that holds this root, while the window is open, the
    user has not claimed, the amount is not zero and the cap is not
    exceeded. *)
Theorem generated_proof_is_accepted_on_chain users a user :
  new users = Some a ->
  user ∈ users ->
  exists proof amountWei,
    getProof a (address user) (amount user) = Some proof /\
    Ethers.parseEther (amount user) = Some amountWei /\
    let account := Frontend.accountOf (address user) in
    let root :=
      Ethers.getBytes (list_byte_of_string (getMerkleRoot a)) in
    MerkleProof.verify (Frontend.merkleProofOf proof) root
      (PayCryptAirdrop.leafOf account amountWei) = true /\
    forall env s,
      PayCryptAirdrop.merkleRoot s = root ->
      (Solidity.block_timestamp env <= PayCryptAirdrop.claimPeriodEnd s)%Z ->
      Solidity.read_bool (PayCryptAirdrop.hasClaimed s) account = false ->
      amountWei <> 0%Z ->
      (PayCryptAirdrop.totalClaimed s + amountWei
         <= PayCryptAirdrop.totalClaimable s <= Solidity.uint256_max)%Z ->
      PayCryptAirdrop.canClaim env account amountWei
        (Frontend.merkleProofOf proof) s = Solidity.Ok true.
Proof.
  intros Ha Hin.
  destruct (new_Some _ _ Ha) as (lvs & Hm & Ht).
  destruct (listed_leaf _ _ _ Hm Hin) as (leaf & Hl & Hlin).
  pose proof Hl as Hleaf.
  apply createLeaf_Some in Hleaf as (amountWei & packed & Hp & Hs & Hk).
  apply solidityPacked_encodePacked in Hs as (_ & _ & ->).
  exists (MerkleTree.getHexProof (tree a) leaf), amountWei.
  unfold getProof. rewrite Hl. cbn [mbind option_bind].
  split; [done|]. split; [done|]. cbn zeta.
  assert (Hv : MerkleProof.verify
                 (Frontend.merkleProofOf (MerkleTree.getHexProof (tree a) leaf))
                 (Ethers.getBytes (list_byte_of_string (getMerkleRoot a)))
                 (PayCryptAirdrop.leafOf
                    (Frontend.accountOf (address user)) amountWei) = true).
  { unfold MerkleProof.verify, getMerkleRoot, MerkleTree.getHexRoot,
      MerkleTree.getHexProof, PayCryptAirdrop.leafOf.
    rewrite getBytes_hexlify, merkleProofOf_hexlify, <- Hk, Ht.
    rewrite getProof_processProof by done. apply eqb_refl. }
  split; [exact Hv|].
  intros env s Hroot Hopen Hnot Hnz Hcap.
  unfold PayCryptAirdrop.canClaim, Solidity.add.
  rewrite (proj2 (Z.ltb_ge _ _) Hopen), Hnot, (proj2 (Z.eqb_neq _ _) Hnz).
  rewrite (proj2 (Z.leb_le _ _)) by lia. cbn [mbind Solidity.Result_bind].
  rewrite (proj2 (Z.ltb_ge _ _)) by lia.
  by rewrite Hroot, Hv.
Qed.

Lemma generated_proof_is_accepted_on_chain_witness :
  exists proof amountWei,
    getProof users_tree (address erin) (amount erin) = Some proof /\
    Ethers.parseEther (amount erin) = Some amountWei /\
    PayCryptAirdrop.canClaim (at_time bob 7)
      (Frontend.accountOf (address erin)) amountWei
      (Frontend.merkleProofOf proof)
      (s_with_root
         (Ethers.getBytes (list_byte_of_string (getMerkleRoot users_tree))))
    = Solidity.Ok true.
Proof.
  destruct (generated_proof_is_accepted_on_chain users users_tree erin
              users_tree_new)
    as (proof & amountWei & Hproof & Hwei & Hverify & Hcan).
  { unfold users. apply elem_of_cons. right. apply elem_of_cons. right.
    apply elem_of_cons. by left. }
  exists proof, amountWei. split; [exact Hproof|]. split; [exact Hwei|].
  assert (Hamount : amountWei = 1500500000000000000000%Z).
  { vm_compute in Hwei. by injection Hwei as <-. }
  apply Hcan.
  - reflexivity.
  - vm_compute. discriminate.
  - vm_compute. reflexivity.
  - rewrite Hamount. discriminate.
  - rewrite Hamount. split; vm_compute; discriminate.
Defined.

(** *** When [createLeaf] throws *)

Lemma byte_length_le_32 v :
  Solidity.is_uint256 v = true -> (Ethers.byte_length v <= 32)%nat.
Proof.
  intros Hv. apply is_uint256_range in Hv. unfold Ethers.byte_length.
  destruct (v =? 0)%Z eqn:E; [lia|]. apply Z.eqb_neq in E.
  assert (Z.log2 v < 256)%Z as Hlog.
  { apply Z.log2_lt_pow2; [lia|]. unfold Solidity.uint256_max in Hv. lia. }
  pose proof (Z.log2_nonneg v).
  assert (Z.log2 v / 8 < 32)%Z by (apply Z.div_lt_upper_bound; lia).
  pose proof (Z.div_pos (Z.log2 v) 8 ltac:(lia) ltac:(lia)). lia.
Qed.

Lemma zeroPadValue_toBeArray v :
  Solidity.is_uint256 v = true ->
  (be ← Ethers.toBeArray v; Ethers.zeroPadValue be 32)
  = Some (Solidity.be_fixed 32 v).
Proof.
  intros Hv. pose proof (byte_length_le_32 v Hv) as Hlen.
  apply is_uint256_range in Hv. unfold Ethers.toBeArray, Ethers.zeroPadValue.
  rewrite (proj2 (Z.ltb_ge _ _)) by lia. cbn [mbind option_bind].
  rewrite length_be_digits, (proj2 (Nat.ltb_ge _ _)) by lia.
  f_equal. rewrite be_fixed_be_digits.
  rewrite <- be_digits_pad by (split; [lia|apply byte_length_bound; lia]).
  f_equal. lia.
Qed.

Lemma solidityPacked_Some address a v :
  Ethers.getAddress address = Some a ->
  Solidity.is_uint256 v = true ->
  Ethers.solidityPacked_address_uint256 address v
  = Some (Solidity.encodePacked_address_uint256
            (Frontend.accountOf address) v).
Proof.
  intros Ha Hv. unfold Ethers.solidityPacked_address_uint256. rewrite Ha.
  cbn [mbind option_bind].
  pose proof (zeroPadValue_toBeArray v Hv) as Hpad.
  destruct (Ethers.toBeArray v) as [be|]; [|done].
  cbn [mbind option_bind] in Hpad |- *. rewrite Hpad.
  cbn [mbind option_bind].
  by destruct (getAddress_getBytes _ _ Ha) as [_ ->].
Qed.

(** [createLeaf] returns a leaf exactly when [getAddress] accepts the
    address text and [parseEther] returns an amount that is a [uint256]: it
    throws for any other address text and for an amount text that does not
    parse, is negative, or is 2^256 base units or more. *)
Theorem createLeaf_is_defined_exactly_when address amount :
  is_Some (createLeaf address amount) <->
  is_Some (Ethers.getAddress address) /\
  exists amountWei,
    Ethers.parseEther amount = Some amountWei /\
    Solidity.is_uint256 amountWei = true.
Proof.
  split.
  - intros [leaf Hleaf].
    apply createLeaf_Some in Hleaf as (amountWei & packed & Hp & Hs & _).
    split.
    + unfold Ethers.solidityPacked_address_uint256 in Hs.
      destruct (Ethers.getAddress address); [eauto|done].
    + apply solidityPacked_encodePacked in Hs as (_ & Hv & _). eauto.
  - intros [[a Ha] (amountWei & Hp & Hv)].
    eexists. apply createLeaf_Some. exists amountWei. eexists.
    split; [done|]. split; [by apply (solidityPacked_Some _ a)|done].
Qed.

Lemma createLeaf_is_defined_exactly_when_witness :
  createLeaf (address carol) "-1" = None /\
  createLeaf (address carol) "1.0000000000000000001" = None /\
  createLeaf "0x8ba1f109551bD432803012645Hac136c" "500" = None /\
  is_Some (createLeaf (address carol) (amount carol)).
Proof.
  assert (Hnone : forall address amount,
             ~ (is_Some (Ethers.getAddress address) /\
                exists amountWei,
                  Ethers.parseEther amount = Some amountWei /\
                  Solidity.is_uint256 amountWei = true) ->
             createLeaf address amount = None).
  { intros address amount Hn. apply eq_None_not_Some. intros Hs.
    apply Hn. by apply createLeaf_is_defined_exactly_when. }
  split; [|split; [|split]].
  - apply Hnone. intros (_ & w & Hp & Hv).
    vm_compute in Hp. injection Hp as <-. vm_compute in Hv. discriminate Hv.
  - apply Hnone. intros (_ & w & Hp & _). vm_compute in Hp. discriminate Hp.
  - apply Hnone. intros ([a Ha] & _). vm_compute in Ha. discriminate Ha.
  - apply createLeaf_is_defined_exactly_when. split.
    + vm_compute. eauto.
    + eexists. split; [vm_compute; reflexivity|]. vm_compute. reflexivity.
Defined.

(** *** The height of the tree *)

Lemma length_nextLayer_half nodes :
  (length nodes <= 2 * length (MerkleTree.nextLayer nodes))%nat.
Proof.
  induction nodes as [|y|y z rest IH] using pairs_ind;
    cbn [MerkleTree.nextLayer length]; lia.
Qed.

Lemma leaves_le_pow fuel nodes :
  (length nodes <= fuel)%nat ->
  (length nodes <= 2 ^ length (MerkleTree.moreLayers fuel nodes))%nat.
Proof.
  revert nodes. induction fuel as [|fuel IH]; intros nodes Hlen.
  { cbn. lia. }
  cbn [MerkleTree.moreLayers].
  destruct (1 <? length nodes)%nat eqn:E.
  - apply Nat.ltb_lt in E.
    destruct (length_nextLayer nodes) as (_ & Hlt & _).
    pose proof (length_nextLayer_half nodes).
    specialize (IH (MerkleTree.nextLayer nodes) ltac:(lia)).
    cbn [length]. rewrite Nat.pow_succ_r'. lia.
  - apply Nat.ltb_ge in E. cbn. lia.
Qed.

(** A proof has at most one node per layer below the root. *)
Lemma length_proofFrom fuel nodes i x :
  nodes !! i = Some x ->
  (length nodes <= fuel)%nat ->
  (length (MerkleTree.proofFrom (nodes :: MerkleTree.moreLayers fuel nodes) i)
   <= length (MerkleTree.moreLayers fuel nodes))%nat.
Proof.
  revert nodes i x. induction fuel as [|fuel IH]; intros nodes i x Hi Hlen.
  { apply lookup_lt_Some in Hi. lia. }
  cbn [MerkleTree.moreLayers].
  destruct (1 <? length nodes)%nat eqn:E.
  - apply Nat.ltb_lt in E.
    pose proof (nextLayer_lookup nodes i x Hi) as Hup.
    destruct (length_nextLayer nodes) as (_ & Hlt & _).
    specialize (IH (MerkleTree.nextLayer nodes) _ _ Hup ltac:(lia)).
    cbn [MerkleTree.proofFrom length] in IH |- *.
    rewrite length_app.
    destruct (nodes !! MerkleTree.pairIndex i); cbn [length]; lia.
  - apply Nat.ltb_ge in E.
    destruct nodes as [|y [|z rest]]; [done| |simpl in E; lia].
    destruct i; [|done]. cbn. lia.
Qed.

(** The proof for any address and amount has at most [treeHeight] nodes,
    where [treeHeight], as [getStats] reports it, is large enough for
    [2 ^ treeHeight] to cover the [totalEligibleUsers] entries of the
    list. *)
Theorem proof_length_is_at_most_tree_height users a address amount proof :
  new users = Some a ->
  getProof a address amount = Some proof ->
  (length proof <= treeHeight (getStats a))%nat /\
  (totalEligibleUsers (getStats a) <= 2 ^ treeHeight (getStats a))%nat /\
  totalEligibleUsers (getStats a) = length users.
Proof.
  intros Ha Hproof.
  destruct (new_Some _ _ Ha) as (lvs & Hm & Ht).
  assert (Husers : eligibleUsers a = users).
  { unfold new in Ha. destruct (generateMerkleTree users); [|done].
    by injection Ha as <-. }
  pose proof (length_mapM _ _ _ Hm) as Hlen.
  unfold getStats, MerkleTree.getDepth.
  cbn [treeHeight totalEligibleUsers]. rewrite Ht, Husers.
  cbn [MerkleTree.new MerkleTree.layers MerkleTree.createHashes length].
  replace (S (length (MerkleTree.moreLayers (length lvs) lvs)) - 1)%nat
    with (length (MerkleTree.moreLayers (length lvs) lvs)) by lia.
  split; [|split; [rewrite Hlen; by apply leaves_le_pow|done]].
  unfold getProof in Hproof.
  destruct (createLeaf address amount) as [leaf|]; [|done].
  injection Hproof as <-. rewrite Ht.
  unfold MerkleTree.getHexProof, MerkleTree.getProof. rewrite length_map.
  cbn [MerkleTree.new MerkleTree.leaves MerkleTree.layers].
  destruct (MerkleTree.leafIndex leaf lvs 0 None) as [j|] eqn:Hj;
    [|cbn; lia].
  apply leafIndex_lookup in Hj as [?|(k & -> & Hk)]; [done|].
  by apply (length_proofFrom (length lvs) lvs (0 + k) leaf).
Qed.

Lemma proof_length_is_at_most_tree_height_witness :
  exists proof,
    getProof users_tree (address carol) (amount carol) = Some proof /\
    (length proof <= 2)%nat /\ treeHeight (getStats users_tree) = 2%nat.
Proof.
  destruct (getProof users_tree (address carol) (amount carol))
    as [proof|] eqn:E; [|vm_compute in E; discriminate].
  exists proof. split; [reflexivity|].
  destruct (proof_length_is_at_most_tree_height users users_tree
              (address carol) (amount carol) proof users_tree_new E)
    as (H1 & _ & _).
  assert (Hh : treeHeight (getStats users_tree) = 2%nat)
    by (vm_compute; reflexivity).
  rewrite Hh in H1. split; [exact H1|exact Hh].
Defined.

(** *** A pair that is not on the list *)

(** For an address and amount whose leaf is not among the leaves of the
    tree, [getProof] returns the empty proof, and [verifyProof] of the empty
    proof answers whether that leaf is the root: false for a tree of one
    leaf or none, and for a larger tree true only if keccak256 maps the 52
    packed bytes of the pair and the 64 bytes hashed into the root to the
    same value. *)
Theorem unlisted_pair_gets_the_empty_proof users a address amount leaf :
  new users = Some a ->
  createLeaf address amount = Some leaf ->
  leaf ∉ MerkleTree.leaves (tree a) ->
  getProof a address amount = Some [] /\
  verifyProof a address amount []
    = Some (Bytes.eqb leaf (MerkleTree.getRoot (tree a))) /\
  ((length users <= 1)%nat -> verifyProof a address amount [] = Some false) /\
  ((2 <= length users)%nat ->
   verifyProof a address amount [] = Some true ->
   exists packed,
     leaf = Keccak.keccak256 packed /\ length packed = 52%nat /\
     length (MerkleTree.rootInput (tree a)) = 64%nat /\
     Keccak.keccak256 packed
       = Keccak.keccak256 (MerkleTree.rootInput (tree a))).
Proof.
  intros Ha Hleaf Hout.
  destruct (new_Some _ _ Ha) as (lvs & Hm & Ht).
  pose proof (length_mapM _ _ _ Hm) as Hlen.
  assert (Hv : verifyProof a address amount []
               = Some (Bytes.eqb leaf (MerkleTree.getRoot (tree a)))).
  { unfold verifyProof, getMerkleRoot. rewrite Hleaf.
    cbn [mbind option_bind]. f_equal.
    unfold MerkleTree.verify, MerkleTree.getHexRoot. cbn [fold_left].
    by rewrite bufferify_hexlify. }
  split; [|split; [exact Hv|split]].
  - unfold getProof. rewrite Hleaf, Ht in *. cbn [mbind option_bind].
    cbn [MerkleTree.new MerkleTree.leaves] in Hout.
    by rewrite getHexProof_not_elem.
  - intros Hsmall. rewrite Hv. f_equal.
    destruct (Bytes.eqb _ _) eqn:E; [exfalso|done].
    apply eqb_true in E. rewrite Ht in E, Hout.
    rewrite getRoot_small in E by lia.
    cbn [MerkleTree.new MerkleTree.leaves] in Hout.
    destruct lvs as [|l lvs]; cbn [head default] in E.
    + apply createLeaf_length in Hleaf. by rewrite E in Hleaf.
    + apply Hout. rewrite E. apply elem_of_cons. by left.
  - intros Hbig Htrue. rewrite Hv in Htrue. injection Htrue as Htrue.
    apply eqb_true in Htrue. rewrite Ht in Htrue |- *.
    destruct (getRoot_rootInput lvs ltac:(lia) (leaves_32 _ _ Hm))
      as [Hroot H64].
    apply createLeaf_Some in Hleaf as (amountWei & packed & _ & Hs & ->).
    apply solidityPacked_encodePacked in Hs as (_ & _ & ->).
    eexists. split; [done|]. split; [apply length_encodePacked|].
    split; [done|]. by rewrite <- Hroot.
Qed.

Lemma unlisted_pair_gets_the_empty_proof_witness :
  getProof users_tree (address alice_entry) (amount alice_entry) = Some [] /\
  verifyProof users_tree (address alice_entry) (amount alice_entry) []
    = Some false.
Proof.
  destruct (createLeaf (address alice_entry) (amount alice_entry))
    as [leaf|] eqn:Hleaf; [|vm_compute in Hleaf; discriminate].
  assert (Hout : leaf ∉ MerkleTree.leaves (tree users_tree)).
  { vm_compute in Hleaf. injection Hleaf as <-. vm_compute. intros H.
    repeat (apply elem_of_cons in H as [H|H]; [discriminate H|]).
    by apply elem_of_nil in H. }
  destruct (unlisted_pair_gets_the_empty_proof users users_tree
              (address alice_entry) (amount alice_entry) leaf
              users_tree_new Hleaf Hout) as (H1 & H2 & _).
  split; [exact H1|]. rewrite H2. f_equal.
  vm_compute in Hleaf. injection Hleaf as <-. vm_compute. reflexivity.
Defined.

(** *** The list the script ships with *)

(** With the list as shipped the constructor of [AirdropMerkleTree] throws,
    also after any users are added to it: [getAddress] refuses the address
    of the first entry, whose checksum is wrong, and the text of the second,
    which is no address; the other three entries alone make a tree. *)
Theorem shipped_list_is_rejected :
  (forall newUsers, addEligibleUsers newUsers = None) /\
  new ELIGIBLE_USERS = None /\
  Ethers.getAddress "0x742d35Cc6661C0532108D3CE8c8FCfb4F88CA7C5" = None /\
  Ethers.getAddress "0x8ba1f109551bD432803012645Hac136c" = None /\
  is_Some (new (drop 2 ELIGIBLE_USERS)).
Proof.
  assert (Hfirst :
    createLeaf "0x742d35Cc6661C0532108D3CE8c8FCfb4F88CA7C5" "1000" = None)
    by (vm_compute; reflexivity).
  split; [|split; [vm_compute; reflexivity|]].
  - intros newUsers. unfold addEligibleUsers, new, generateMerkleTree.
    unfold ELIGIBLE_USERS. cbn [app mapM address amount].
    by rewrite Hfirst.
  - split; [vm_compute; reflexivity|]. split; [vm_compute; reflexivity|].
    vm_compute. eauto.
Qed.

(** *** Every entry of the generated file *)

Lemma eligibleUsers_new users a : new users = Some a -> eligibleUsers a = users.
Proof.
  unfold new. destruct (generateMerkleTree users); [|done].
  by intros [= <-].
Qed.

(** [getAllEligibleWithProofs] returns one entry per user of the list, in
    the order of the list, with the user's address, amount and reason, with
    [parseEther] of the amount, and with a proof that [verifyProof] accepts
    for the user. *)
Theorem getAllEligibleWithProofs_entries_verify users a :
  new users = Some a ->
  exists entries,
    getAllEligibleWithProofs a = Some entries /\
    Forall2
      (fun user entry =>
         entry_address entry = address user /\
         entry_amount entry = amount user /\
         entry_reason entry = reason user /\
         Ethers.parseEther (amount user) = Some (entry_amountWei entry) /\
         verifyProof a (address user) (amount user) (entry_proof entry)
           = Some true)
      users entries.
Proof.
  intros Ha. destruct (new_Some _ _ Ha) as (lvs & Hm & Ht).
  unfold getAllEligibleWithProofs. rewrite (eligibleUsers_new _ _ Ha).
  match goal with |- context [mapM ?g users] => set (f := g) end.
  assert (Hall : forall user, user ∈ users ->
            exists entry, f user = Some entry /\
              entry_address entry = address user /\
              entry_amount entry = amount user /\
              entry_reason entry = reason user /\
              Ethers.parseEther (amount user) = Some (entry_amountWei entry) /\
              verifyProof a (address user) (amount user) (entry_proof entry)
                = Some true).
  { intros user Hin.
    destruct (listed_leaf _ _ _ Hm Hin) as (leaf & Hl & Hlin).
    pose proof Hl as Hleaf.
    apply createLeaf_Some in Hleaf as (amountWei & packed & Hp & _ & _).
    unfold f, getProof, verifyProof, getMerkleRoot. rewrite Hp, Hl, Ht.
    cbn [mbind option_bind]. eexists. split; [reflexivity|].
    cbn [entry_address entry_amount entry_reason entry_amountWei entry_proof].
    repeat (split; [reflexivity|]).
    by rewrite getHexProof_verify. }
  destruct (mapM_is_Some_2 f users) as [entries Hentries].
  { apply Forall_forall. intros user Hin.
    destruct (Hall user Hin) as (entry & He & _). by exists entry. }
  exists entries. split; [done|].
  apply mapM_Some_1 in Hentries.
  apply Forall2_same_length_lookup.
  split; [by eapply Forall2_length|].
  intros i user entry Hu He.
  pose proof (Forall2_lookup_lr _ _ _ _ _ _ Hentries Hu He) as Hf.
  destruct (Hall user) as (entry' & Hf' & Hrest).
  { apply list_elem_of_lookup. eauto. }
  rewrite Hf in Hf'. by injection Hf' as <-.
Qed.

Lemma getAllEligibleWithProofs_entries_verify_witness :
  exists entries,
    getAllEligibleWithProofs users_tree = Some entries /\
    length entries = 3%nat.
Proof.
  destruct (getAllEligibleWithProofs_entries_verify users users_tree
              users_tree_new) as (entries & He & Hall).
  exists entries. split; [exact He|].
  symmetry. exact (Forall2_length _ _ _ Hall).
Defined.

(** *** Whole tokens *)

Lemma span_digits_all ds :
  forallb Hex.is_digit ds = true -> Ethers.span_digits ds = (ds, []).
Proof.
  induction ds as [|c ds IH]; [done|]. cbn [forallb Ethers.span_digits].
  intros H. apply andb_true_iff in H as [-> H]. by rewrite IH.
Qed.

Lemma decimal_value_zeros n ds :
  Ethers.decimal_value (ds ++ replicate n x30)
  = (Ethers.decimal_value ds * 10 ^ Z.of_nat n)%Z.
Proof.
  unfold Ethers.decimal_value. rewrite fold_left_app.
  generalize (fold_left (fun acc c => (acc * 10 + Hex.value c)%Z) ds 0%Z).
  induction n as [|n IH]; intros v.
  - cbn. lia.
  - cbn [replicate fold_left]. rewrite IH.
    change (Hex.value x30) with 0%Z.
    rewrite Nat2Z.inj_succ, Z.pow_succ_r by lia. lia.
Qed.

Lemma decimal_value_nonneg ds : (0 <= Ethers.decimal_value ds)%Z.
Proof.
  unfold Ethers.decimal_value.
  assert (H : forall v, (0 <= v)%Z ->
            (0 <= fold_left (fun acc c => (acc * 10 + Hex.value c)%Z) ds v)%Z);
    [|by apply H].
  induction ds as [|c ds IH]; intros v Hv; [done|].
  cbn [fold_left]. apply IH.
  assert (0 <= Hex.value c)%Z by (destruct c; vm_compute; discriminate).
  lia.
Qed.

(** Whole tokens are committed in base units: for an address [getAddress]
    accepts and an amount text that is a number of whole tokens in decimal
    digits, [createLeaf] returns the leaf of the account and that number
    times 10^18, as long as the product is a [uint256]. *)
Theorem createLeaf_scales_whole_tokens address digits :
  is_Some (Ethers.getAddress address) ->
  digits <> [] ->
  forallb Hex.is_digit digits = true ->
  (Ethers.decimal_value digits * 10 ^ 18 <= Solidity.uint256_max)%Z ->
  createLeaf address (string_of_list_byte digits)
  = Some (PayCryptAirdrop.leafOf (Frontend.accountOf address)
            (Ethers.decimal_value digits * 10 ^ 18)).
Proof.
  intros [a Ha] Hne Hdigits Hfit.
  pose proof (decimal_value_nonneg digits) as Hpos.
  assert (Hp : Ethers.parseEther (string_of_list_byte digits)
               = Some (Ethers.decimal_value digits * 10 ^ 18)%Z).
  { unfold Ethers.parseEther.
    rewrite list_byte_of_string_of_list_byte.
    destruct digits as [|c ds]; [done|].
    assert (Hc : Hex.is_digit c = true)
      by (cbn [forallb] in Hdigits; by apply andb_true_iff in Hdigits as [? _]).
    replace (match c :: ds with
             | x2d :: rest => (true, rest)
             | _ => (false, c :: ds)
             end) with (false, c :: ds)
      by (destruct c; try reflexivity; discriminate Hc).
    rewrite span_digits_all by done.
    cbn [Ethers.span_digits length drop Ethers.all_zero_digits forallb negb
         Nat.add Nat.eqb app_nil_l].
    change (take Ethers.decimals ([] ++ replicate Ethers.decimals x30))
      with (replicate 18 x30).
    rewrite decimal_value_zeros. change (Z.of_nat 18) with 18%Z.
    unfold Solidity.uint256_max in Hfit.
    rewrite (proj2 (andb_true_iff _ _)); [done|].
    split; [apply Z.leb_le|apply Z.ltb_lt].
    - assert (- 2 ^ 511 <= 0)%Z by (vm_compute; discriminate). lia.
    - assert (2 ^ 256 - 1 < 2 ^ 511)%Z by (vm_compute; reflexivity). lia. }
  apply createLeaf_Some. eexists. eexists. split; [exact Hp|].
  split; [|reflexivity].
  apply (solidityPacked_Some _ a); [done|].
  unfold Solidity.is_uint256. apply andb_true_iff.
  split; [apply Z.leb_le|apply Z.leb_le]; lia.
Qed.

Lemma createLeaf_scales_whole_tokens_witness :
  createLeaf (address carol) "2000"
  = Some (PayCryptAirdrop.leafOf (Frontend.accountOf (address carol))
            (2000 * 10 ^ 18)).
Proof.
  apply (createLeaf_scales_whole_tokens (address carol)
           (list_byte_of_string "2000")).
  - vm_compute. eauto.
  - discriminate.
  - vm_compute. reflexivity.
  - vm_compute. discriminate.
Defined.

End BuilderProperties.
